(** * Activity runtime core of bpmn-elements: outbound evaluator, parallel
    join and run-queue state machine

    A shallow embedding of [Activity] and [OutboundEvaluator] (the compiled
    activity module of the repository) together with the properties that the
    specification states about them.

    Conventions of the embedding:
    - a JavaScript object used as a record becomes a Rocq record whose
      optional keys are [option] fields ([None] is an absent key);
    - a JavaScript object used as a dictionary ([evaluateArgs.result]) is an
      insertion-ordered property list, with the enumeration order of
      [Object.values];
    - the collaborators that are handed to the activity (broker, sequence
      flows, behaviour execution, extensions, formatter) are not part of the
      module: every call made on them is recorded, in order, in a log;
    - callbacks that the module passes to a collaborator are taken to be
      invoked once, before control returns;
    - a message that is published as mandatory and finds no consumer bound
      makes the publishing call throw. *)

From Stdlib Require Import ZArith Lia.
From stdpp Require Import base option list strings gmap.

(** ** JavaScript values and objects *)

Module Js.

(** The primitive values that travel in message contents. *)
Inductive Value :=
| undefined
| null
| boolean (b : bool)
| number (n : Z)
| text (s : string).

(** [!!v] *)
Definition truthy (v : Value) : bool :=
  match v with
  | undefined | null => false
  | boolean b => b
  | number n => negb (n =? 0)%Z
  | text s => negb (String.eqb s "")
  end.

(** A string as a condition: [null], [undefined] and the empty string are
    falsy. *)
Definition nonEmpty (a : option string) : option string :=
  match a with
  | Some s => if String.eqb s "" then None else Some s
  | None => None
  end.

(** An optional string inside a template literal. *)
Definition interpolate (a : option string) : string :=
  match a with
  | Some s => s
  | None => "undefined"
  end.

(** [list.findIndex(p)], with -1 when nothing matches. *)
Fixpoint findIndex {A} (p : A -> bool) (l : list A) : Z :=
  match l with
  | [] => (-1)%Z
  | x :: l' =>
      if p x then 0%Z
      else let i := findIndex p l' in
           if (i =? -1)%Z then (-1)%Z else (i + 1)%Z
  end.

(** [list.splice(i, 1)] for an index inside the list: the removed elements
    and what is left. *)
Definition splice1 {A} (i : Z) (l : list A) : list A * list A :=
  let n := Z.to_nat i in
  (firstn 1 (skipn n l), firstn n l ++ skipn (S n) l).

(** Property keys that are canonical array indices ("0", "7", "42", up to
    2^32 - 2) are enumerated first, in numeric order. *)
Definition digit (c : Ascii.ascii) : option N :=
  let n := Ascii.N_of_ascii c in
  if ((48 <=? n) && (n <=? 57))%N then Some (n - 48)%N else None.

Fixpoint decimal (acc : N) (s : string) : option N :=
  match s with
  | EmptyString => Some acc
  | String c s' =>
      match digit c with
      | Some d => decimal (10 * acc + d)%N s'
      | None => None
      end
  end.

Definition arrayIndex (key : string) : option N :=
  match key with
  | EmptyString => None
  | String c rest =>
      if (Ascii.N_of_ascii c =? 48)%N && negb (String.eqb rest "") then None
      else match decimal 0 key with
           | Some n => if (n <? 4294967295)%N then Some n else None
           | None => None
           end
  end.

(** An object used as a dictionary: own string keys in insertion order. *)
Module Object.
Section WithValues.
Context {V : Type}.

Definition t := list (string * V).

Definition empty : t := [].

(** The own property [o[key]]. *)
Fixpoint get (key : string) (o : t) : option V :=
  match o with
  | [] => None
  | (k, v) :: o' => if String.eqb k key then Some v else get key o'
  end.

(** Writing an own property: an existing key keeps its place. *)
Fixpoint define (key : string) (v : V) (o : t) : t :=
  match o with
  | [] => [(key, v)]
  | (k, w) :: o' =>
      if String.eqb k key then (k, v) :: o' else (k, w) :: define key v o'
  end.

(** [o[key] = v] on an object literal. The key [__proto__] is the accessor
    of the prototype: assigning to it replaces the prototype and leaves the
    own properties, which are all that [Object.values] lists, as they
    are. *)
Definition set (key : string) (v : V) (o : t) : t :=
  if String.eqb key "__proto__" then o else define key v o.

Fixpoint insertIndexed (n : N) (v : V) (l : list (N * V)) : list (N * V) :=
  match l with
  | [] => [(n, v)]
  | (m, w) :: l' =>
      if (n <? m)%N then (n, v) :: l else (m, w) :: insertIndexed n v l'
  end.

Definition indexed (o : t) : list (N * V) :=
  foldr (fun kv acc =>
           match arrayIndex kv.1 with
           | Some n => insertIndexed n kv.2 acc
           | None => acc
           end) [] o.

Definition named (o : t) : list V :=
  foldr (fun kv acc =>
           match arrayIndex kv.1 with
           | Some _ => acc
           | None => kv.2 :: acc
           end) [] o.

(** [Object.values(o)] *)
Definition values (o : t) : list V :=
  map snd (indexed o) ++ named o.
End WithValues.
Arguments t : clear implicits.
End Object.

End Js.

(** ** Messages *)

Module Action.
Inductive t := take | discard.

Global Instance eq_dec : EqDecision t.
Proof. solve_decision. Defined.

(** The action inside a routing key. *)
Definition name (a : t) : string :=
  match a with
  | take => "take"
  | discard => "discard"
  end.
End Action.

(** The values of [activity.status]; an unset status is [None]. *)
Module Status.
Inductive t :=
| entered | started | executing | executed | error | discarded | discard
| end_ | formatting.

Global Instance eq_dec : EqDecision t.
Proof. solve_decision. Defined.
End Status.

Record Fields := {
  routingKey : string;
  redelivered : bool;
}.

(** Message properties and publish options. *)
Record Properties := {
  correlationId : option string;
  type : option string;
  mandatory : option bool;
  persistent : option bool;
}.

Definition noProperties : Properties :=
  {| correlationId := None; type := None; mandatory := None; persistent := None |}.

(** The record [formatFlowAction] builds for one outbound flow, and what a
    [run.outbound.*] message carries as [content.flow]. *)
Module FlowAction.
Record t := {
  id : string;
  action : Action.t;
  isDefault : bool;
  result : option Js.Value;
  evaluationId : option string;
  message : option Js.Value;
  sequenceId : option string;
  discardSequence : option (list string);
}.

(** The options literal [{action}]. *)
Definition just (a : Action.t) : t :=
  {| id := ""; action := a; isDefault := false; result := None;
     evaluationId := None; message := None; sequenceId := None;
     discardSequence := None |}.
End FlowAction.

(** The content of a message published by an inbound trigger (a sequence
    flow, an association or the attached-to activity). *)
Module Inbound.
Record Content := {
  id : string;
  sequenceId : option string;
  message : option Js.Value;
  discardSequence : option (list string);
}.

Record Message := {
  fields : Fields;
  content : Content;
  properties : Properties;
}.
End Inbound.

(** The flags computed once by the constructor. *)
Record Flags := {
  isEnd : bool;
  isStart : bool;
  isSubProcess : bool;
  isMultiInstance : bool;
  isForCompensation : bool;
  attachedTo : option string;
  isTransaction : bool;
  isParallelJoin : bool;
  isThrowing : bool;
}.

(** Run-queue message contents, messages and the errors they may carry.
    [flags] holds the truthy flags that [_createMessage] copies into a
    content; a [false] or [None] flag is an absent key. *)
Module Msg.
#[warnings="-register-all"]
Inductive Content : Type := Build_Content {
  id : string;
  type_ : string;
  name : option string;
  status : option Status.t;
  flags : Flags;
  executionId : option string;
  message : option Js.Value;
  inbound : option (list Inbound.Content);
  discardSequence : option (list string);
  outbound : option (list FlowAction.t);
  outboundTakeOne : bool;
  ignoreOutbound : bool;
  flow : option FlowAction.t;
  state : option string;
  error : option Error;
}
with Error : Type := Build_Error {
  className : string;
  description : string;
  source : option Message;
  inner : option Error;
}
with Message : Type := Build_Message {
  fields : Fields;
  content : Content;
  properties : Properties;
}.
End Msg.

Abbreviation Content := Msg.Content.
Abbreviation Error := Msg.Error.
Abbreviation Message := Msg.Message.

Definition noFlags : Flags :=
  {| isEnd := false; isStart := false; isSubProcess := false;
     isMultiInstance := false; isForCompensation := false; attachedTo := None;
     isTransaction := false; isParallelJoin := false; isThrowing := false |}.

(** The empty object literal as a content. *)
Definition emptyContent : Content :=
  {| Msg.id := ""; Msg.type_ := ""; Msg.name := None; Msg.status := None;
     Msg.flags := noFlags; Msg.executionId := None; Msg.message := None;
     Msg.inbound := None; Msg.discardSequence := None; Msg.outbound := None;
     Msg.outboundTakeOne := false; Msg.ignoreOutbound := false;
     Msg.flow := None; Msg.state := None; Msg.error := None |}.

(** [new Error(description)] *)
Definition plainError (description : string) : Error :=
  {| Msg.className := "Error"; Msg.description := description;
     Msg.source := None; Msg.inner := None |}.

(** The [TypeError] of a property read on [undefined]. *)
Definition typeError (description : string) : Error :=
  {| Msg.className := "TypeError"; Msg.description := description;
     Msg.source := None; Msg.inner := None |}.

(** [new ActivityError(description, sourceMessage, inner)] *)
Definition ActivityError (description : string) (sourceMessage : Message)
    (inner : option Error) : Error :=
  {| Msg.className := "ActivityError"; Msg.description := description;
     Msg.source := Some sourceMessage; Msg.inner := inner |}.

(** [cloneContent] and [cloneMessage] take deep copies; on immutable values
    a copy is the value itself. *)
Definition cloneContent (c : Content) : Content := c.
Definition cloneMessage (m : Message) : Message := m.

(** ** Sequence flows *)

(** What the evaluator and the activity use of an outbound sequence flow. A
    condition reports an error or a result to its callback. *)
Module Flow.
Inductive Outcome :=
| failed (err : Error)
| evaluated (result : Js.Value).

Record Condition := {
  execute : Message -> Outcome;
}.

Record t := {
  id : string;
  isDefault : bool;
  getCondition : option Condition;
}.
End Flow.

(** [formatFlowAction(flow, options)] *)
Definition formatFlowAction (flow : Flow.t) (options : FlowAction.t) : FlowAction.t :=
  {| FlowAction.id := Flow.id flow;
     FlowAction.action := FlowAction.action options;
     FlowAction.isDefault :=
       if Flow.isDefault flow then true else FlowAction.isDefault options;
     FlowAction.result := FlowAction.result options;
     FlowAction.evaluationId := FlowAction.evaluationId options;
     FlowAction.message := FlowAction.message options;
     FlowAction.sequenceId := FlowAction.sequenceId options;
     FlowAction.discardSequence := FlowAction.discardSequence options |}.

(** ** The outbound evaluator *)

Module OutboundEvaluator.

(** What the evaluator does to its collaborators, in order: calls on the
    broker and executions of flow conditions. *)
Inductive Call :=
| subscribeTmp (exchange pattern consumerTag : string)
| execute (flowId : string)
| publish (exchange routingKey : string) (content : FlowAction.t)
| ack (flowId : string)
| cancel (consumerTag : string).

Record t := {
  activity : string;
  outboundFlows : list Flow.t;
  defaultFlowIdx : Z;
}.

(** [new OutboundEvaluator(activity, outboundFlows)] *)
Definition new (activityId : string) (outboundFlows : list Flow.t) : t :=
  let flows := outboundFlows in
  let defaultFlowIdx := Js.findIndex Flow.isDefault flows in
  let flows :=
    if (defaultFlowIdx >? -1)%Z
    then let '(defaultFlow, flows) := Js.splice1 defaultFlowIdx flows in
         flows ++ defaultFlow
    else flows in
  {| activity := activityId;
     outboundFlows := flows;
     defaultFlowIdx := Js.findIndex Flow.isDefault outboundFlows |}.

(** [evaluateArgs]; its [flows] queue is the list the evaluation recurses
    on and is passed next to this record. *)
Record Args := {
  fromMessage : Message;
  evaluationId : option string;
  discardRestAtTake : bool;
  conditionMet : bool;
  result : Js.Object.t FlowAction.t;
  takenCount : nat;
}.

Definition setResult (flowId : string) (content : FlowAction.t) (args : Args) : Args :=
  {| fromMessage := fromMessage args;
     evaluationId := evaluationId args;
     discardRestAtTake := discardRestAtTake args;
     conditionMet := conditionMet args;
     result := Js.Object.set flowId content (result args);
     takenCount := takenCount args |}.

Definition countTaken (args : Args) : Args :=
  {| fromMessage := fromMessage args;
     evaluationId := evaluationId args;
     discardRestAtTake := discardRestAtTake args;
     conditionMet := true;
     result := result args;
     takenCount := S (takenCount args) |}.

(** What the completion callback receives. *)
Inductive Callback :=
| callbackError (err : Error)
| callbackResult (evaluationResult : list FlowAction.t).

(** One whole evaluation: the callback's arguments, [evaluateArgs] as it
    is left behind, and the calls made. *)
Record Run := {
  outcome : Callback;
  args : Args;
  calls : list Call;
}.

Definition consumerTag (args : Args) : string :=
  "_flow-evaluation-" +:+ Js.interpolate (evaluationId args).

(** [{...flow, ...(message !== undefined ? {message} : undefined)}] *)
Definition withMessage (message : option Js.Value) (flow : FlowAction.t) : FlowAction.t :=
  match message with
  | None | Some Js.undefined => flow
  | Some _ =>
      {| FlowAction.id := FlowAction.id flow;
         FlowAction.action := FlowAction.action flow;
         FlowAction.isDefault := FlowAction.isDefault flow;
         FlowAction.result := FlowAction.result flow;
         FlowAction.evaluationId := FlowAction.evaluationId flow;
         FlowAction.message := message;
         FlowAction.sequenceId := FlowAction.sequenceId flow;
         FlowAction.discardSequence := FlowAction.discardSequence flow |}
  end.

Definition nonTakenError (self : t) (fromMessage : Message) : Error :=
  ActivityError ("<" +:+ activity self +:+ "> no conditional flow taken") fromMessage None.

(** [OutboundEvaluator.prototype.completed] *)
Definition completed (self : t) (err : option Error) (args : Args)
    (calls : list Call) : Run :=
  let calls := calls ++ [cancel (consumerTag args)] in
  match err with
  | Some err => {| outcome := callbackError err; args := args; calls := calls |}
  | None =>
      if (takenCount args =? 0) && negb (length (outboundFlows self) =? 0)
      then {| outcome := callbackError (nonTakenError self (fromMessage args));
              args := args; calls := calls |}
      else
        let message := Msg.message (Msg.content (fromMessage args)) in
        {| outcome :=
             callbackResult (map (withMessage message) (Js.Object.values (result args)));
           args := args; calls := calls |}
  end.

(** [do { ... } while (nextFlow = args.flows.shift())] of [onEvaluated] *)
Definition discardRest (flows : list Flow.t) (args : Args) : Args :=
  foldl (fun args nextFlow =>
           setResult (Flow.id nextFlow)
             (formatFlowAction nextFlow (FlowAction.just Action.discard)) args)
        args flows.

(** [OutboundEvaluator.prototype.onEvaluated]; [evaluateFlow] is the
    method of that name and [flows] is [args.flows]. *)
Definition onEvaluated (self : t)
    (evaluateFlow : Flow.t -> list Flow.t -> Args -> list Call -> Run)
    (content : FlowAction.t) (flows : list Flow.t) (args : Args)
    (calls : list Call) : Run :=
  let flowId := FlowAction.id content in
  let args :=
    match FlowAction.action content with
    | Action.take => countTaken args
    | Action.discard => args
    end in
  let args := setResult flowId content args in
  match flows with
  | [] => completed self None args calls
  | nextFlow :: flows =>
      if discardRestAtTake args && conditionMet args then
        completed self None (discardRest (nextFlow :: flows) args) calls
      else if conditionMet args && Flow.isDefault nextFlow then
        completed self None
          (setResult (Flow.id nextFlow)
             (formatFlowAction nextFlow (FlowAction.just Action.discard)) args)
          calls
      else evaluateFlow nextFlow flows args (calls ++ [ack flowId])
  end.

(** Modelled from the spec: the broker is not part of the module. A
    message published on the [execution] exchange under a key matching
    [evaluate.flow.#] is routed to the temporary subscription that
    [evaluate] made, and its content, a copy, is handed to the subscribed
    handler. *)
Definition brokerPublish (routingKey : string) (content : FlowAction.t)
    (handler : FlowAction.t -> list Call -> Run) (calls : list Call) : Run :=
  handler content (calls ++ [publish "execution" routingKey content]).

(** [OutboundEvaluator.prototype.evaluateFlow] *)
Fixpoint evaluateFlow (self : t) (flow : Flow.t) (flows : list Flow.t)
    (args : Args) (calls : list Call) {struct flows} : Run :=
  let handler content calls :=
    onEvaluated self (evaluateFlow self) content flows args calls in
  if Flow.isDefault flow then
    brokerPublish "evaluate.flow.take"
      (formatFlowAction flow (FlowAction.just Action.take)) handler calls
  else
    match Flow.getCondition flow with
    | None =>
        brokerPublish "evaluate.flow.take"
          (formatFlowAction flow (FlowAction.just Action.take)) handler calls
    | Some flowCondition =>
        let calls := calls ++ [execute (Flow.id flow)] in
        match Flow.execute flowCondition (cloneMessage (fromMessage args)) with
        | Flow.failed err => completed self (Some err) args calls
        | Flow.evaluated result =>
            let action := if Js.truthy result then Action.take else Action.discard in
            brokerPublish ("evaluate.flow." +:+ Action.name action)
              (formatFlowAction flow
                 {| FlowAction.id := "";
                    FlowAction.action := action;
                    FlowAction.isDefault := false;
                    FlowAction.result := Some result;
                    FlowAction.evaluationId := evaluationId args;
                    FlowAction.message := None;
                    FlowAction.sequenceId := None;
                    FlowAction.discardSequence := None |})
              handler calls
        end
    end.

(** [OutboundEvaluator.prototype.evaluate]; the callback is the
    continuation of the returned [Run]. *)
Definition evaluate (self : t) (fromMessage : Message)
    (discardRestAtTake : bool) : Run :=
  let args :=
    {| fromMessage := fromMessage;
       evaluationId := Msg.executionId (Msg.content fromMessage);
       discardRestAtTake := discardRestAtTake;
       conditionMet := false;
       result := Js.Object.empty;
       takenCount := 0 |} in
  match outboundFlows self with
  | [] => completed self None args []
  | flow :: flows =>
      evaluateFlow self flow flows args
        [subscribeTmp "execution" "evaluate.flow.#" (consumerTag args)]
  end.

End OutboundEvaluator.

(** ** The activity *)

Module Activity.

(** The [ActivityExecution] of a run is a collaborator; of its state the
    activity reads [completed]. *)
Record Execution := {
  completed : bool;
}.

Record Counters := {
  taken : nat;
  discarded : nat;
}.

(** [this[execSymbol]] *)
Module Exec.
Record t := {
  initExecutionId : option string;
  executionId : option string;
  execution : option Execution;
}.
End Exec.

(** What the formatter hands to its callback: [(err)],
    [(null, formattedContent, true)] or [(null, undefined, false)]. *)
Inductive Formatted :=
| formatFailed (err : Error)
| formatted (formattedContent : Content)
| unformatted.

(** What the constructor fixes, and what stands around the activity.
    [extensions] and [bpmnIo] tell whether the getters of these names return
    an object. [formatter], [makeErrorFromMessage] and [generateId] stand
    for functions that the module imports: the message formatter, the error
    helper of that name, which returns [undefined] for a message without an
    error, and the source of the random part of [getUniqueId].
    [errorConsumer] tells whether a consumer is bound for the [error] event
    and [unhandled] is what the broker throws for one when none is.
    [apiConsumer] tells whether the consumer [_activity-api] is bound when
    the api is asked to stop (it is from [run] on, until the run consumers
    are deactivated), and [stopMessage] is the message of type [stop] that
    the api object built around a message publishes. *)
Record Def := {
  id : string;
  type_ : string;
  name : option string;
  flags : Flags;
  inboundSequenceFlows : list string;
  inboundTriggers : list string;
  outboundSequenceFlows : list Flow.t;
  step : bool;
  extensions : bool;
  bpmnIo : bool;
  formatter : Message -> Formatted;
  makeErrorFromMessage : Message -> option Error;
  generateId : nat -> string;
  errorConsumer : bool;
  unhandled : Content -> Error;
  apiConsumer : bool;
  stopMessage : option Message -> Message;
}.

Definition outboundEvaluator (self : Def) : OutboundEvaluator.t :=
  OutboundEvaluator.new (id self) (outboundSequenceFlows self).

(** What changes while the activity lives. [generated] counts the ids
    drawn from [getUniqueId]. *)
Record State := {
  status : option Status.t;
  stopped : bool;
  consuming : bool;
  counters : Counters;
  exec : Exec.t;
  stateMessage : option Message;
  executeMessage : option Message;
  inboundJoinFlows : list Inbound.Message;
  generated : nat;
}.

(** The state the constructor leaves. *)
Definition initial : State :=
  {| status := None; stopped := false; consuming := false;
     counters := {| taken := 0; discarded := 0 |};
     exec := {| Exec.initExecutionId := None; Exec.executionId := None;
                Exec.execution := None |};
     stateMessage := None; executeMessage := None;
     inboundJoinFlows := []; generated := 0 |}.

(** The argument of [recover]: what it reads of a state snapshot. *)
Module Snapshot.
Record Counters := {
  taken : option nat;
  discarded : option nat;
}.
Record t := {
  stopped : bool;
  status : option Status.t;
  executionId : option string;
  counters : option Counters;
  execution : option Execution;
}.
End Snapshot.

(** Calls on collaborators: the broker and its queues and messages, the
    extensions, the behaviour execution, the outbound sequence flows and
    the outbound evaluator. *)
Inductive Call :=
| publish (exchange routingKey : string) (content : Content) (options : Properties)
| cancel (consumerTag : string)
| subscribeTmp (exchange pattern consumerTag : string)
| assertConsumer (queue consumerTag : string)
| consume (queue consumerTag : string) (prefetch : option nat)
| purge (queue : string)
| brokerRecover
| brokerGetState
| ack (message : Message)
| ackInbound (message : Inbound.Message)
| extensionsActivate (message : Message)
| extensionsDeactivate (message : option (Message + Content))
| bpmnIoActivate (message : Message)
| bpmnIoDeactivate (message : Message)
| executionRecover
| executionGetState
| executionExecute (message : Message)
| executionPassthrough (message : Message)
| executionDiscard
| flowTake (flowId : string) (content : FlowAction.t)
| flowDiscard (flowId : string) (content : FlowAction.t)
| evaluation (call : OutboundEvaluator.Call).

(** *** State, log and exceptions *)

Inductive Completion (A : Type) :=
| returned (a : A)
| thrown (err : Error).
Arguments returned {A} a.
Arguments thrown {A} err.

Record Result (A : Type) := {
  completion : Completion A;
  state : State;
  calls : list Call;
}.
Arguments completion {A} _.
Arguments state {A} _.
Arguments calls {A} _.

Definition M (A : Type) : Type := State -> Result A.

Definition ret {A} (a : A) : M A :=
  fun st => {| completion := returned a; state := st; calls := [] |}.

Definition throw {A} (err : Error) : M A :=
  fun st => {| completion := thrown err; state := st; calls := [] |}.

(** The calls of a first part put before a result. *)
Definition after {A} (first : list Call) (r : Result A) : Result A :=
  {| completion := completion r; state := state r; calls := first ++ calls r |}.

Definition bind {A B} (m : M A) (k : A -> M B) : M B :=
  fun st =>
    match m st with
    | {| completion := returned a; state := st'; calls := first |} =>
        after first (k a st')
    | {| completion := thrown err; state := st'; calls := first |} =>
        {| completion := thrown err; state := st'; calls := first |}
    end.

Definition get : M State :=
  fun st => {| completion := returned st; state := st; calls := [] |}.

Definition modify (f : State -> State) : M unit :=
  fun st => {| completion := returned tt; state := f st; calls := [] |}.

Definition call (c : Call) : M unit :=
  fun st => {| completion := returned tt; state := st; calls := [c] |}.

Definition when (b : bool) (m : M unit) : M unit :=
  if b then m else ret tt.

Declare Scope activity_scope.
Delimit Scope activity_scope with activity.
Notation "x ← y ; z" := (bind y (fun x => z))
  (at level 20, y at level 100, z at level 200, only parsing) : activity_scope.
Notation "y ;; z" := (bind y (fun _ => z))
  (at level 100, z at level 200, only parsing, right associativity) : activity_scope.
Local Open Scope activity_scope.

Fixpoint forEach {A} (l : list A) (body : A -> M unit) : M unit :=
  match l with
  | [] => ret tt
  | x :: l' => body x;; forEach l' body
  end.

(** *** Assignments *)

Definition setStatus (v : option Status.t) (st : State) : State :=
  {| status := v; stopped := stopped st; consuming := consuming st;
     counters := counters st; exec := exec st; stateMessage := stateMessage st;
     executeMessage := executeMessage st;
     inboundJoinFlows := inboundJoinFlows st; generated := generated st |}.

Definition setStopped (v : bool) (st : State) : State :=
  {| status := status st; stopped := v; consuming := consuming st;
     counters := counters st; exec := exec st; stateMessage := stateMessage st;
     executeMessage := executeMessage st;
     inboundJoinFlows := inboundJoinFlows st; generated := generated st |}.

Definition setConsuming (v : bool) (st : State) : State :=
  {| status := status st; stopped := stopped st; consuming := v;
     counters := counters st; exec := exec st; stateMessage := stateMessage st;
     executeMessage := executeMessage st;
     inboundJoinFlows := inboundJoinFlows st; generated := generated st |}.

Definition setCounters (v : Counters) (st : State) : State :=
  {| status := status st; stopped := stopped st; consuming := consuming st;
     counters := v; exec := exec st; stateMessage := stateMessage st;
     executeMessage := executeMessage st;
     inboundJoinFlows := inboundJoinFlows st; generated := generated st |}.

Definition setExec (v : Exec.t) (st : State) : State :=
  {| status := status st; stopped := stopped st; consuming := consuming st;
     counters := counters st; exec := v; stateMessage := stateMessage st;
     executeMessage := executeMessage st;
     inboundJoinFlows := inboundJoinFlows st; generated := generated st |}.

Definition setStateMessage (v : option Message) (st : State) : State :=
  {| status := status st; stopped := stopped st; consuming := consuming st;
     counters := counters st; exec := exec st; stateMessage := v;
     executeMessage := executeMessage st;
     inboundJoinFlows := inboundJoinFlows st; generated := generated st |}.

Definition setExecuteMessage (v : option Message) (st : State) : State :=
  {| status := status st; stopped := stopped st; consuming := consuming st;
     counters := counters st; exec := exec st; stateMessage := stateMessage st;
     executeMessage := v;
     inboundJoinFlows := inboundJoinFlows st; generated := generated st |}.

Definition setInboundJoinFlows (v : list Inbound.Message) (st : State) : State :=
  {| status := status st; stopped := stopped st; consuming := consuming st;
     counters := counters st; exec := exec st; stateMessage := stateMessage st;
     executeMessage := executeMessage st;
     inboundJoinFlows := v; generated := generated st |}.

Definition setGenerated (v : nat) (st : State) : State :=
  {| status := status st; stopped := stopped st; consuming := consuming st;
     counters := counters st; exec := exec st; stateMessage := stateMessage st;
     executeMessage := executeMessage st;
     inboundJoinFlows := inboundJoinFlows st; generated := v |}.

Definition setInitExecutionId (v : option string) (e : Exec.t) : Exec.t :=
  {| Exec.initExecutionId := v; Exec.executionId := Exec.executionId e;
     Exec.execution := Exec.execution e |}.

Definition setExecutionId (v : option string) (e : Exec.t) : Exec.t :=
  {| Exec.initExecutionId := Exec.initExecutionId e; Exec.executionId := v;
     Exec.execution := Exec.execution e |}.

Definition setExecution (v : option Execution) (e : Exec.t) : Exec.t :=
  {| Exec.initExecutionId := Exec.initExecutionId e;
     Exec.executionId := Exec.executionId e; Exec.execution := v |}.

(** Object spreads that extend a content by one key. *)
Definition withExecutionId (v : option string) (c : Content) : Content :=
  {| Msg.id := Msg.id c; Msg.type_ := Msg.type_ c; Msg.name := Msg.name c;
     Msg.status := Msg.status c; Msg.flags := Msg.flags c;
     Msg.executionId := v; Msg.message := Msg.message c;
     Msg.inbound := Msg.inbound c; Msg.discardSequence := Msg.discardSequence c;
     Msg.outbound := Msg.outbound c; Msg.outboundTakeOne := Msg.outboundTakeOne c;
     Msg.ignoreOutbound := Msg.ignoreOutbound c; Msg.flow := Msg.flow c;
     Msg.state := Msg.state c; Msg.error := Msg.error c |}.

Definition withState (v : string) (c : Content) : Content :=
  {| Msg.id := Msg.id c; Msg.type_ := Msg.type_ c; Msg.name := Msg.name c;
     Msg.status := Msg.status c; Msg.flags := Msg.flags c;
     Msg.executionId := Msg.executionId c; Msg.message := Msg.message c;
     Msg.inbound := Msg.inbound c; Msg.discardSequence := Msg.discardSequence c;
     Msg.outbound := Msg.outbound c; Msg.outboundTakeOne := Msg.outboundTakeOne c;
     Msg.ignoreOutbound := Msg.ignoreOutbound c; Msg.flow := Msg.flow c;
     Msg.state := Some v; Msg.error := Msg.error c |}.

Definition withError (v : option Error) (c : Content) : Content :=
  {| Msg.id := Msg.id c; Msg.type_ := Msg.type_ c; Msg.name := Msg.name c;
     Msg.status := Msg.status c; Msg.flags := Msg.flags c;
     Msg.executionId := Msg.executionId c; Msg.message := Msg.message c;
     Msg.inbound := Msg.inbound c; Msg.discardSequence := Msg.discardSequence c;
     Msg.outbound := Msg.outbound c; Msg.outboundTakeOne := Msg.outboundTakeOne c;
     Msg.ignoreOutbound := Msg.ignoreOutbound c; Msg.flow := Msg.flow c;
     Msg.state := Msg.state c; Msg.error := v |}.

Definition withOutbound (v : list FlowAction.t) (c : Content) : Content :=
  {| Msg.id := Msg.id c; Msg.type_ := Msg.type_ c; Msg.name := Msg.name c;
     Msg.status := Msg.status c; Msg.flags := Msg.flags c;
     Msg.executionId := Msg.executionId c; Msg.message := Msg.message c;
     Msg.inbound := Msg.inbound c; Msg.discardSequence := Msg.discardSequence c;
     Msg.outbound := Some v; Msg.outboundTakeOne := Msg.outboundTakeOne c;
     Msg.ignoreOutbound := Msg.ignoreOutbound c; Msg.flow := Msg.flow c;
     Msg.state := Msg.state c; Msg.error := Msg.error c |}.

(** Modelled from the spec: [cloneContent(content, {outbound})] of the
    message helpers, which are not part of the module. The clone takes the
    keys of the content, then those of the extension, and then once more the
    content's own [discardSequence], [inbound] and [outbound] lists, as
    copies: an [outbound] list that the content has, even an empty one, is
    kept, and the one of the extension is used when the content has
    none. *)
Definition cloneContentOutbound (content : Content) (outbound : list FlowAction.t)
    : Content :=
  match Msg.outbound content with
  | Some _ => cloneContent content
  | None => withOutbound outbound (cloneContent content)
  end.

Definition withFlow (v : FlowAction.t) (c : Content) : Content :=
  {| Msg.id := Msg.id c; Msg.type_ := Msg.type_ c; Msg.name := Msg.name c;
     Msg.status := Msg.status c; Msg.flags := Msg.flags c;
     Msg.executionId := Msg.executionId c; Msg.message := Msg.message c;
     Msg.inbound := Msg.inbound c; Msg.discardSequence := Msg.discardSequence c;
     Msg.outbound := Msg.outbound c; Msg.outboundTakeOne := Msg.outboundTakeOne c;
     Msg.ignoreOutbound := Msg.ignoreOutbound c; Msg.flow := Some v;
     Msg.state := Msg.state c; Msg.error := Msg.error c |}.

Definition withContent (v : Content) (m : Message) : Message :=
  {| Msg.fields := Msg.fields m; Msg.content := v;
     Msg.properties := Msg.properties m |}.

(** The options literal [{correlationId}]. *)
Definition correlated (correlationId : option string) : Properties :=
  {| correlationId := correlationId; type := None; mandatory := None;
     persistent := None |}.

(** The options literal [{persistent: false}]. *)
Definition transient : Properties :=
  {| correlationId := None; type := None; mandatory := None;
     persistent := Some false |}.

(** *** Operations *)

(** Modelled from the spec: [getUniqueId] belongs to the shared helpers,
    which are not part of the module. It returns the prefix, an underscore
    and a freshly generated part. *)
Definition getUniqueId (self : Def) (prefix : string) : M string :=
  st ← get;
  modify (setGenerated (S (generated st)));;
  ret (prefix +:+ "_" +:+ generateId self (generated st)).

(** The getter [isRunning]. *)
Definition isRunning (st : State) : bool :=
  if negb (consuming st) then false
  else match status st with Some _ => true | None => false end.

(** [for (const [flag, value] of Object.entries(flags)) if (value) result[flag] = value] *)
Definition copyFlags (own override : Flags) : Flags :=
  {| isEnd := isEnd own || isEnd override;
     isStart := isStart own || isStart override;
     isSubProcess := isSubProcess own || isSubProcess override;
     isMultiInstance := isMultiInstance own || isMultiInstance override;
     isForCompensation := isForCompensation own || isForCompensation override;
     attachedTo :=
       match Js.nonEmpty (attachedTo own) with
       | Some a => Some a
       | None => attachedTo override
       end;
     isTransaction := isTransaction own || isTransaction override;
     isParallelJoin := isParallelJoin own || isParallelJoin override;
     isThrowing := isThrowing own || isThrowing override |}.

(** [_createMessage(override)]; the [parent] key is left out of the
    embedding. *)
Definition createMessage (self : Def) (override : Content) : M Content :=
  st ← get;
  ret {| Msg.id := id self;
         Msg.type_ := type_ self;
         Msg.name :=
           match Js.nonEmpty (name self) with
           | Some n => Some n
           | None => Msg.name override
           end;
         Msg.status :=
           match status st with
           | Some s => Some s
           | None => Msg.status override
           end;
         Msg.flags := copyFlags (flags self) (Msg.flags override);
         Msg.executionId := Msg.executionId override;
         Msg.message := Msg.message override;
         Msg.inbound := Msg.inbound override;
         Msg.discardSequence := Msg.discardSequence override;
         Msg.outbound := Msg.outbound override;
         Msg.outboundTakeOne := Msg.outboundTakeOne override;
         Msg.ignoreOutbound := Msg.ignoreOutbound override;
         Msg.flow := Msg.flow override;
         Msg.state := Msg.state override;
         Msg.error := Msg.error override |}.

(** Modelled from the spec: [broker.publish('event', ...)]; the broker is
    not part of the module. A message that is published as mandatory and
    finds no consumer bound is returned, and the broker surfaces it as an
    unhandled error: [publish] throws. The only mandatory messages are the
    [error] events. *)
Definition publishOnEvent (self : Def) (routingKey : string) (content : Content)
    (options : Properties) : M unit :=
  call (publish "event" routingKey content options);;
  match mandatory options with
  | Some true =>
      if errorConsumer self then ret tt else throw (unhandled self content)
  | _ => ret tt
  end.

(** [_publishEvent(state, content, messageProperties = {})] *)
Definition publishEvent (self : Def) (state : string) (content : option Content)
    (messageProperties : Properties) : M unit :=
  content ← match content with
            | Some c => ret c
            | None => createMessage self emptyContent
            end;
  publishOnEvent self ("activity." +:+ state) (withState state content)
    {| correlationId := correlationId messageProperties;
       type := Some state;
       mandatory := Some (String.eqb state "error");
       persistent :=
         Some match persistent messageProperties with
              | Some p => p
              | None => negb (String.eqb state "stop")
              end |}.

(** Modelled from the spec: [emitFatal] comes from the event broker
    façade, which is not part of the module. It publishes an [error]
    event, marked mandatory, carrying the error. *)
Definition emitFatal (self : Def) (err : Error) (content : Content) : M unit :=
  publishOnEvent self "activity.error" (withError (Some err) content)
    {| correlationId := None; type := Some "error";
       mandatory := Some true; persistent := None |}.

(** [_consumeInbound] *)
Definition consumeInbound (self : Def) : M unit :=
  st ← get;
  match status st with
  | Some _ => ret tt
  | None =>
      if isParallelJoin (flags self)
      then call (consume "inbound-q" "_run-on-inbound" (Some 1000))
      else call (consume "inbound-q" "_run-on-inbound" None)
  end.

(** [activate] *)
Definition activate (self : Def) : M unit :=
  if isForCompensation (flags self) then ret tt else consumeInbound self.

(** [deactivate] *)
Definition deactivate (self : Def) : M unit :=
  call (cancel "_run-on-inbound");;
  call (cancel "_format-consumer").

(** [_consumeApi] *)
Definition consumeApi (self : Def) : M unit :=
  st ← get;
  match Js.nonEmpty (Exec.executionId (exec st)) with
  | None => ret tt
  | Some executionId =>
      call (cancel "_activity-api");;
      call (subscribeTmp "api" ("activity.*." +:+ executionId) "_activity-api")
  end.

(** [_consumeRunQ] *)
Definition consumeRunQ (self : Def) : M unit :=
  st ← get;
  if consuming st then ret tt
  else
    modify (setConsuming true);;
    call (assertConsumer "run-q" "_activity-run").

(** [_deactivateRunConsumers] *)
Definition deactivateRunConsumers (self : Def) : M unit :=
  call (cancel "_activity-api");;
  call (cancel "_activity-run");;
  call (cancel "_activity-execution");;
  modify (setConsuming false).

(** [exec.initExecutionId || getUniqueId(id)] *)
Definition initExecutionIdOrUnique (self : Def) : M string :=
  st ← get;
  match Js.nonEmpty (Exec.initExecutionId (exec st)) with
  | Some initExecutionId => ret initExecutionId
  | None => getUniqueId self (id self)
  end.

(** [init(initContent)] *)
Definition init (self : Def) (initContent : Content) : M unit :=
  executionId ← initExecutionIdOrUnique self;
  modify (fun st => setExec (setInitExecutionId (Some executionId) (exec st)) st);;
  content ← createMessage self (withExecutionId (Some executionId) initContent);
  publishEvent self "init" (Some content) noProperties.

(** [run(runContent)] *)
Definition run (self : Def) (runContent : Content) : M unit :=
  st ← get;
  if isRunning st
  then throw (plainError ("activity <" +:+ id self +:+ "> is already running"))
  else
    executionId ← initExecutionIdOrUnique self;
    modify (fun st => setExec (setExecutionId (Some executionId) (exec st)) st);;
    modify (fun st => setExec (setInitExecutionId None (exec st)) st);;
    consumeApi self;;
    content ← createMessage self (withExecutionId (Some executionId) runContent);
    call (publish "run" "run.enter" content noProperties);;
    call (publish "run" "run.start" (cloneContent content) noProperties);;
    consumeRunQ self.

(** [{...this[countersSymbol], ...state.counters}] *)
Definition spreadCounters (own : Counters) (recovered : option Snapshot.Counters) : Counters :=
  match recovered with
  | None => own
  | Some c =>
      {| taken := default (taken own) (Snapshot.taken c);
         discarded := default (discarded own) (Snapshot.discarded c) |}
  end.

(** [recover(state)] *)
Definition recover (self : Def) (state : option Snapshot.t) : M unit :=
  st ← get;
  if isRunning st
  then throw (plainError ("cannot recover running activity <" +:+ id self +:+ ">"))
  else
    match state with
    | None => ret tt
    | Some state =>
        modify (setStopped (Snapshot.stopped state));;
        modify (setStatus (Snapshot.status state));;
        modify (fun st => setExec (setExecutionId (Snapshot.executionId state) (exec st)) st);;
        modify (fun st => setCounters (spreadCounters (counters st) (Snapshot.counters state)) st);;
        match Snapshot.execution state with
        | Some execution =>
            call executionRecover;;
            modify (fun st => setExec (setExecution (Some execution) (exec st)) st)
        | None => ret tt
        end;;
        call brokerRecover
    end.

(** [resume()] *)
Definition resume (self : Def) : M unit :=
  st ← get;
  if consuming st
  then throw (plainError ("cannot resume running activity <" +:+ id self +:+ ">"))
  else
    match status st with
    | None => activate self
    | Some _ =>
        modify (setStopped false);;
        consumeApi self;;
        content ← createMessage self emptyContent;
        call (publish "run" "run.resume" content transient);;
        consumeRunQ self
    end.

(** [_runDiscard(discardContent = {})] *)
Definition runDiscard (self : Def) (discardContent : Content) : M unit :=
  executionId ← initExecutionIdOrUnique self;
  modify (fun st => setExec (setExecutionId (Some executionId) (exec st)) st);;
  modify (fun st => setExec (setInitExecutionId None (exec st)) st);;
  consumeApi self;;
  content ← createMessage self (withExecutionId (Some executionId) discardContent);
  call (publish "run" "run.discard" content noProperties);;
  consumeRunQ self.

(** [this[stateMessageSymbol].content], a [TypeError] without a state
    message. *)
Definition stateMessageContent : M Content :=
  st ← get;
  match stateMessage st with
  | Some m => ret (Msg.content m)
  | None => throw (typeError "Cannot read properties of undefined (reading 'content')")
  end.

Definition executionInFlight (st : State) : bool :=
  match Exec.execution (exec st) with
  | Some execution => negb (completed execution)
  | None => false
  end.

(** [discard(discardContent)] *)
Definition discard (self : Def) (discardContent : Content) : M unit :=
  st ← get;
  match status st with
  | None => runDiscard self discardContent
  | Some _ =>
      if executionInFlight st then call executionDiscard
      else
        deactivateRunConsumers self;;
        call (purge "run-q");;
        content ← stateMessageContent;
        call (publish "run" "run.discard" (cloneContent content) noProperties);;
        consumeRunQ self
  end.

(** [_discardRun()] *)
Definition discardRun (self : Def) : M unit :=
  st ← get;
  match status st with
  | None => ret tt
  | Some status =>
      if executionInFlight st then ret tt
      else
        match status with
        | Status.executing | Status.error | Status.discarded => ret tt
        | _ =>
            deactivateRunConsumers self;;
            when (extensions self) (call (extensionsDeactivate None));;
            call (purge "run-q");;
            content ← stateMessageContent;
            call (publish "run" "run.discard" (cloneContent content) noProperties);;
            consumeRunQ self
        end
  end.

(** [_onStop(message)] *)
Definition onStop (self : Def) (message : option Message) : M unit :=
  st ← get;
  let running := consuming st in
  modify (setStopped true);;
  modify (setConsuming false);;
  call (cancel "_activity-run");;
  call (cancel "_activity-api");;
  call (cancel "_activity-execution");;
  call (cancel "_run-on-inbound");;
  call (cancel "_format-consumer");;
  when running
    (when (extensions self)
       match message with
       | Some m => call (extensionsDeactivate (Some (inl m)))
       | None =>
           content ← createMessage self emptyContent;
           call (extensionsDeactivate (Some (inr content)))
       end;;
     publishEvent self "stop" None noProperties).

(** Modelled from the spec: the api object that [getApi] returns is not
    part of the module. It is built around the state message, and its
    [stop] publishes a message of type [stop] on the [api] exchange. The
    broker delivers it to the consumer [_activity-api], when that consumer
    is bound, and [_onApiMessage] hands it to [_onStop]; otherwise nothing
    happens. (While an execution is in flight the api object is the one of
    the execution, which the embedding takes to publish in the same way.) *)
Definition apiStop (self : Def) : M unit :=
  st ← get;
  if apiConsumer self
  then onStop self (Some (stopMessage self (stateMessage st)))
  else ret tt.

(** [stop()] *)
Definition stop (self : Def) : M unit :=
  st ← get;
  if negb (consuming st) then ret tt
  else apiStop self.

(** [next()]: the pending message, when it was acknowledged. *)
Definition next (self : Def) : M (option Message) :=
  st ← get;
  if negb (step self) then ret None
  else
    match stateMessage st with
    | None => ret None
    | Some current =>
        match status st with
        | Some Status.executing | Some Status.formatting => ret None
        | _ => call (ack current);; ret (Some current)
        end
    end.

(** *** The parallel join *)

(** The [reduce] of [_onJoinInbound]: the discard sequences of the
    collected messages, each source id once, in order of appearance. *)
Definition mergeDiscardSequence (evaluatedInbound : list Inbound.Message) : list string :=
  foldl (fun result im =>
           match Inbound.discardSequence (Inbound.content im) with
           | None => result
           | Some discardSequence =>
               foldl (fun result sourceId =>
                        if bool_decide (sourceId ∈ result) then result
                        else result ++ [sourceId])
                     result discardSequence
           end)
        [] evaluatedInbound.

Definition isFlowTake (im : Inbound.Message) : bool :=
  String.eqb (routingKey (Inbound.fields im)) "flow.take".

(** The run content literals [{inbound}] and [{inbound, discardSequence}]. *)
Definition inboundContent (inbound : list Inbound.Content)
    (discardSequence : option (list string)) : Content :=
  {| Msg.id := ""; Msg.type_ := ""; Msg.name := None; Msg.status := None;
     Msg.flags := noFlags; Msg.executionId := None; Msg.message := None;
     Msg.inbound := Some inbound; Msg.discardSequence := discardSequence;
     Msg.outbound := None; Msg.outboundTakeOne := false;
     Msg.ignoreOutbound := false; Msg.flow := None; Msg.state := None;
     Msg.error := None |}.

(** [_onJoinInbound(routingKey, message)]; the debug line of the
    not-all-touched branch is left out. *)
Definition onJoinInbound (self : Def) (routingKey : string)
    (message : Inbound.Message) : M unit :=
  st ← get;
  let content := Inbound.content message in
  let idx :=
    Js.findIndex
      (fun msg => String.eqb (Inbound.id (Inbound.content msg)) (Inbound.id content))
      (inboundJoinFlows st) in
  modify (setInboundJoinFlows (inboundJoinFlows st ++ [message]));;
  if (idx >? -1)%Z then ret tt
  else
    st ← get;
    let allTouched := length (inboundTriggers self) <=? length (inboundJoinFlows st) in
    if negb allTouched then ret tt
    else
      let evaluatedInbound := inboundJoinFlows st in
      modify (setInboundJoinFlows []);;
      let taken := existsb isFlowTake evaluatedInbound in
      forEach evaluatedInbound (fun im => call (ackInbound im));;
      let inbound := map Inbound.content evaluatedInbound in
      call (cancel "_run-on-inbound");;
      if negb taken
      then runDiscard self
             (inboundContent inbound (Some (mergeDiscardSequence evaluatedInbound)))
      else run self (inboundContent inbound None).

(** *** The run queue *)

(** The cases of [switch (routingKey)] in the run consumer. *)
Inductive RunKey :=
| run_enter | run_discard | run_start | run_execute_passthrough | run_execute
| run_end | run_error | run_discarded | run_outbound_take
| run_outbound_discard | run_leave | run_next | run_resume | run_other.

Definition runKey (routingKey : string) : RunKey :=
  if String.eqb routingKey "run.enter" then run_enter
  else if String.eqb routingKey "run.discard" then run_discard
  else if String.eqb routingKey "run.start" then run_start
  else if String.eqb routingKey "run.execute.passthrough" then run_execute_passthrough
  else if String.eqb routingKey "run.execute" then run_execute
  else if String.eqb routingKey "run.end" then run_end
  else if String.eqb routingKey "run.error" then run_error
  else if String.eqb routingKey "run.discarded" then run_discarded
  else if String.eqb routingKey "run.outbound.take" then run_outbound_take
  else if String.eqb routingKey "run.outbound.discard" then run_outbound_discard
  else if String.eqb routingKey "run.leave" then run_leave
  else if String.eqb routingKey "run.next" then run_next
  else if String.eqb routingKey "run.resume" then run_resume
  else run_other.

(** [if (!step) ack()] *)
Definition ackUnlessStep (self : Def) (message : Message) : M unit :=
  when (negb (step self)) (call (ack message)).

(** [_getOutboundSequenceFlowById(flowId)] *)
Definition getOutboundSequenceFlowById (self : Def) (flowId : string) : option Flow.t :=
  List.find (fun flow => String.eqb (Flow.id flow) flowId) (outboundSequenceFlows self).

(** [{...outboundFlow, sequenceId, ...(discardSequence ? {discardSequence} : undefined)}] *)
Definition outboundFlowContent (outboundFlow : FlowAction.t) (sequenceId : string)
    (discardSequence : option (list string)) : FlowAction.t :=
  {| FlowAction.id := FlowAction.id outboundFlow;
     FlowAction.action := FlowAction.action outboundFlow;
     FlowAction.isDefault := FlowAction.isDefault outboundFlow;
     FlowAction.result := FlowAction.result outboundFlow;
     FlowAction.evaluationId := FlowAction.evaluationId outboundFlow;
     FlowAction.message := FlowAction.message outboundFlow;
     FlowAction.sequenceId := Some sequenceId;
     FlowAction.discardSequence :=
       match discardSequence with
       | Some ds => Some ds
       | None => FlowAction.discardSequence outboundFlow
       end |}.

(** [_doRunOutbound(outboundList, content, discardSequence)] *)
Definition doRunOutbound (self : Def) (outboundList : list FlowAction.t)
    (content : Content) (discardSequence : option (list string))
    : M (list FlowAction.t) :=
  forEach outboundList (fun outboundFlow =>
    let flowId := FlowAction.id outboundFlow in
    let action := Action.name (FlowAction.action outboundFlow) in
    sequenceId ← getUniqueId self (flowId +:+ "_" +:+ action);
    call (publish "run" ("run.outbound." +:+ action)
            (withFlow (outboundFlowContent outboundFlow sequenceId discardSequence)
               (cloneContent content))
            noProperties));;
  ret outboundList.

(** [outboundSequenceFlows.map(flow => formatFlowAction(flow,
    fromContent.outbound.filter(f => f.id === flow.id).pop()))]; reading
    [action] of a missing entry is a [TypeError]. *)
Fixpoint adoptOutbound (flows : list Flow.t) (outbound : list FlowAction.t)
    : M (list FlowAction.t) :=
  match flows with
  | [] => ret []
  | flow :: flows' =>
      match last (List.filter (fun f => String.eqb (FlowAction.id f) (Flow.id flow)) outbound) with
      | None => throw (typeError "Cannot read properties of undefined (reading 'action')")
      | Some options =>
          rest ← adoptOutbound flows' outbound;
          ret (formatFlowAction flow options :: rest)
      end
  end.

(** The discard sequence that [_doOutbound] hands on. *)
Definition outboundDiscardSequence (self : Def) (fromContent : Content)
    (isDiscarded : bool) : option (list string) :=
  match Msg.discardSequence fromContent with
  | Some discardSequence => Some discardSequence
  | None =>
      if isDiscarded then
        match Js.nonEmpty (attachedTo (flags self)), Msg.inbound fromContent with
        | Some _, Some (first :: _) => Some [Inbound.id first]
        | _, _ => None
        end
      else None
  end.

(** [_doOutbound(fromMessage, isDiscarded, callback)] *)
Definition doOutbound (self : Def) (fromMessage : Message) (isDiscarded : bool)
    (callback : option Error -> list FlowAction.t -> M unit) : M unit :=
  let outboundSequenceFlows := outboundSequenceFlows self in
  if length outboundSequenceFlows =? 0 then callback None []
  else
    let fromContent := Msg.content fromMessage in
    let discardSequence := outboundDiscardSequence self fromContent isDiscarded in
    outboundFlows ←
      (if isDiscarded then
         ret (Some (map (fun flow => formatFlowAction flow (FlowAction.just Action.discard))
                        outboundSequenceFlows))
       else
         match Msg.outbound fromContent with
         | Some ((_ :: _) as outbound) =>
             adopted ← adoptOutbound outboundSequenceFlows outbound;
             ret (Some adopted)
         | _ => ret None
         end);
    match outboundFlows with
    | Some outboundFlows =>
        doRunOutbound self outboundFlows fromContent discardSequence;;
        callback None outboundFlows
    | None =>
        let evaluated :=
          OutboundEvaluator.evaluate (outboundEvaluator self) fromMessage
            (Msg.outboundTakeOne fromContent) in
        forEach (OutboundEvaluator.calls evaluated) (fun c => call (evaluation c));;
        match OutboundEvaluator.outcome evaluated with
        | OutboundEvaluator.callbackError err =>
            callback (Some (ActivityError (Msg.description err) fromMessage (Some err))) []
        | OutboundEvaluator.callbackResult evaluatedOutbound =>
            outbound ← doRunOutbound self evaluatedOutbound fromContent discardSequence;
            callback None outbound
        end
    end.

(** [_doRunLeave(message, isDiscarded, onOutbound)] *)
Definition doRunLeave (self : Def) (message : Message) (isDiscarded : bool)
    (onOutbound : M unit) : M unit :=
  let content := Msg.content message in
  let correlationId := correlationId (Msg.properties message) in
  if Msg.ignoreOutbound content then
    call (publish "run" "run.leave" (cloneContent content) (correlated correlationId));;
    onOutbound
  else
    doOutbound self (cloneMessage message) isDiscarded (fun err outbound =>
      match err with
      | Some err =>
          publishEvent self "error" (Some (withError (Some err) (cloneContent content)))
            (correlated correlationId)
      | None =>
          call (publish "run" "run.leave"
                  (if length outbound =? 0 then cloneContent content
                   else cloneContentOutbound content outbound)
                  (correlated correlationId));;
          onOutbound
      end).

(** [_resumeExtensions(message, callback)] *)
Definition resumeExtensions (self : Def) (message : Message)
    (callback : option Error -> option Content -> M unit) : M unit :=
  if negb (extensions self) && negb (bpmnIo self) then callback None None
  else
    when (extensions self) (call (extensionsActivate (cloneMessage message)));;
    when (bpmnIo self) (call (bpmnIoActivate (cloneMessage message)));;
    modify (setStatus (Some Status.formatting));;
    match formatter self message with
    | formatFailed err => callback (Some err) None
    | formatted formattedContent => callback None (Some formattedContent)
    | unformatted => callback None None
    end.

Definition addTaken (c : Counters) : Counters :=
  {| taken := S (taken c); discarded := discarded c |}.

Definition addDiscarded (c : Counters) : Counters :=
  {| taken := taken c; discarded := S (discarded c) |}.

(** [case 'run.execute'] of [_continueRunMessage], which
    [case 'run.execute.passthrough'] falls through to. *)
Definition runExecute (self : Def) (message : Message) : M unit :=
  modify (setStatus (Some Status.executing));;
  modify (setExecuteMessage (Some message));;
  call (assertConsumer "execution-q" "_activity-execution");;
  modify (fun st =>
            match Exec.execution (exec st) with
            | Some _ => st
            | None => setExec (setExecution (Some {| completed := false |}) (exec st)) st
            end);;
  if redelivered (Msg.fields message) then
    resumeExtensions self message (fun err formattedContent =>
      match err with
      | Some err => emitFatal self err (Msg.content message)
      | None =>
          let message :=
            match formattedContent with
            | Some c => withContent c message
            | None => message
            end in
          modify (setStatus (Some Status.executing));;
          call (executionExecute message)
      end)
  else call (executionExecute message).

(** [case 'run.outbound.take'] and [case 'run.outbound.discard'] *)
Definition runOutbound (self : Def) (message : Message)
    (deliver : string -> FlowAction.t -> Call) : M unit :=
  match Msg.flow (Msg.content message) with
  | None => throw (typeError "Cannot read properties of undefined (reading 'id')")
  | Some flowContent =>
      let flow := getOutboundSequenceFlowById self (FlowAction.id flowContent) in
      call (ack message);;
      match flow with
      | Some flow => call (deliver (Flow.id flow) flowContent)
      | None => throw (typeError "Cannot read properties of undefined")
      end
  end.

(** [_continueRunMessage(routingKey, message)] *)
Definition continueRunMessage (self : Def) (routingKey : string)
    (message : Message) : M unit :=
  let fields := Msg.fields message in
  let isRedelivered := redelivered fields in
  let content := cloneContent (Msg.content message) in
  let correlationId := correlationId (Msg.properties message) in
  modify (setStateMessage (Some message));;
  match runKey routingKey with
  | run_enter =>
      modify (setStatus (Some Status.entered));;
      when (negb isRedelivered)
        (modify (fun st => setExec (setExecution None (exec st)) st));;
      when (extensions self) (call (extensionsActivate (cloneMessage message)));;
      when (bpmnIo self) (call (bpmnIoActivate message));;
      when (negb isRedelivered)
        (publishEvent self "enter" (Some content) (correlated correlationId));;
      ackUnlessStep self message
  | run_discard =>
      modify (setStatus (Some Status.discard));;
      modify (fun st => setExec (setExecution None (exec st)) st);;
      when (extensions self) (call (extensionsActivate (cloneMessage message)));;
      when (bpmnIo self) (call (bpmnIoActivate message));;
      when (negb isRedelivered)
        (call (publish "run" "run.discarded" content (correlated correlationId));;
         publishEvent self "discard" (Some content) noProperties);;
      ackUnlessStep self message
  | run_start =>
      modify (setStatus (Some Status.started));;
      when (negb isRedelivered)
        (call (publish "run" "run.execute" content (correlated correlationId));;
         publishEvent self "start" (Some content) (correlated correlationId));;
      ackUnlessStep self message
  | run_execute_passthrough =>
      st ← get;
      match Exec.execution (exec st) with
      | Some _ =>
          if negb isRedelivered then
            modify (setExecuteMessage (Some message));;
            call (executionPassthrough message)
          else runExecute self message
      | None => runExecute self message
      end
  | run_execute => runExecute self message
  | run_end =>
      st ← get;
      if bool_decide (status st = Some Status.end_) then ackUnlessStep self message
      else
        modify (fun st => setCounters (addTaken (counters st)) st);;
        modify (setStatus (Some Status.end_));;
        if isRedelivered then ackUnlessStep self message
        else
          doRunLeave self message false
            (publishEvent self "end" (Some content) (correlated correlationId);;
             ackUnlessStep self message)
  | run_error =>
      publishEvent self "error"
        (Some (withError
                 (if redelivered fields then makeErrorFromMessage self message
                  else Msg.error content)
                 (cloneContent content)))
        (correlated correlationId);;
      ackUnlessStep self message
  | run_discarded =>
      modify (fun st => setCounters (addDiscarded (counters st)) st);;
      modify (setStatus (Some Status.discarded));;
      if negb isRedelivered
      then doRunLeave self message true (ackUnlessStep self message)
      else ackUnlessStep self message
  | run_outbound_take => runOutbound self message flowTake
  | run_outbound_discard => runOutbound self message flowDiscard
  | run_leave =>
      modify (setStatus None);;
      when (bpmnIo self) (call (bpmnIoDeactivate message));;
      when (extensions self) (call (extensionsDeactivate (Some (inl message))));;
      when (negb isRedelivered)
        (call (publish "run" "run.next" (cloneContent content) transient);;
         publishEvent self "leave" (Some content) (correlated correlationId));;
      ackUnlessStep self message
  | run_next =>
      consumeInbound self;;
      ackUnlessStep self message
  | run_resume | run_other => ackUnlessStep self message
  end.

(** [_onResumeMessage(message)] *)
Definition onResumeMessage (self : Def) (message : Message) : M unit :=
  call (ack message);;
  st ← get;
  match stateMessage st with
  | None => throw (typeError "Cannot destructure property 'fields' of undefined")
  | Some stateMessage =>
      let fields := Msg.fields stateMessage in
      match runKey (routingKey fields) with
      | run_enter | run_start | run_discarded | run_end | run_leave =>
          if negb (redelivered fields) then ret tt
          else call (publish "run" (routingKey fields)
                       (cloneContent (Msg.content stateMessage))
                       (Msg.properties stateMessage))
      | _ => ret tt
      end
  end.

(** [_onRunMessage(routingKey, message)], the consumer of [run-q] *)
Definition onRunMessage (self : Def) (routingKey : string) (message : Message) : M unit :=
  match runKey routingKey with
  | run_outbound_discard | run_outbound_take | run_next =>
      continueRunMessage self routingKey message
  | run_resume => onResumeMessage self message
  | _ =>
      st ← get;
      let preStatus := status st in
      modify (setStatus (Some Status.formatting));;
      match formatter self message with
      | formatFailed err => emitFatal self err (Msg.content message)
      | formatted formattedContent =>
          modify (setStatus preStatus);;
          continueRunMessage self routingKey (withContent formattedContent message)
      | unformatted =>
          modify (setStatus preStatus);;
          continueRunMessage self routingKey message
      end
  end.

(** *** The state snapshot *)

(** The object that [getState] returns: the keys of [_createMessage()],
    among them the status, and the keys that [getState] adds. [behaviour]
    is the activity's behaviour definition and [broker] is what the
    broker's own [getState] returns; the snapshot of an execution is taken
    to be the execution. *)
Record Saved (Behaviour BrokerState : Type) := {
  savedMessage : Content;
  savedExecutionId : option string;
  savedStopped : bool;
  savedBehaviour : Behaviour;
  savedCounters : Counters;
  savedBroker : BrokerState;
  savedExecution : option Execution;
}.
Arguments savedMessage {Behaviour BrokerState} _.
Arguments savedExecutionId {Behaviour BrokerState} _.
Arguments savedStopped {Behaviour BrokerState} _.
Arguments savedBehaviour {Behaviour BrokerState} _.
Arguments savedCounters {Behaviour BrokerState} _.
Arguments savedBroker {Behaviour BrokerState} _.
Arguments savedExecution {Behaviour BrokerState} _.

(** [getState()]: the broker and, when there is one, the execution are
    asked for their state. *)
Definition getState {Behaviour BrokerState} (self : Def) (behaviour : Behaviour)
    (brokerState : BrokerState) : M (Saved Behaviour BrokerState) :=
  msg ← createMessage self emptyContent;
  st ← get;
  call brokerGetState;;
  when (bool_decide (is_Some (Exec.execution (exec st)))) (call executionGetState);;
  ret {| savedMessage := msg;
         savedExecutionId := Exec.executionId (exec st);
         savedStopped := stopped st;
         savedBehaviour := behaviour;
         savedCounters := counters st;
         savedBroker := brokerState;
         savedExecution := Exec.execution (exec st) |}.

(** What [recover] reads of the object that [getState] returned. *)
Definition asSnapshot {Behaviour BrokerState} (saved : Saved Behaviour BrokerState)
    : Snapshot.t :=
  {| Snapshot.stopped := savedStopped saved;
     Snapshot.status := Msg.status (savedMessage saved);
     Snapshot.executionId := savedExecutionId saved;
     Snapshot.counters :=
       Some {| Snapshot.taken := Some (taken (savedCounters saved));
               Snapshot.discarded := Some (discarded (savedCounters saved)) |};
     Snapshot.execution := savedExecution saved |}.

(** *** The inbound consumer *)

(** The run content literal [{message: content.message, inbound}]. *)
Definition triggeredContent (message : option Js.Value)
    (inbound : list Inbound.Content) : Content :=
  {| Msg.id := ""; Msg.type_ := ""; Msg.name := None; Msg.status := None;
     Msg.flags := noFlags; Msg.executionId := None;
     Msg.message := Some (default Js.undefined message);
     Msg.inbound := Some inbound; Msg.discardSequence := None;
     Msg.outbound := None; Msg.outboundTakeOne := false;
     Msg.ignoreOutbound := false; Msg.flow := None; Msg.state := None;
     Msg.error := None |}.

(** The cases of [switch (routingKey)] in the inbound consumer. *)
Inductive InboundKey :=
| inbound_take | inbound_discard | association_complete | inbound_other.

Definition inboundKey (routingKey : string) : InboundKey :=
  if String.eqb routingKey "association.take" then inbound_take
  else if String.eqb routingKey "flow.take" then inbound_take
  else if String.eqb routingKey "activity.enter" then inbound_take
  else if String.eqb routingKey "flow.discard" then inbound_discard
  else if String.eqb routingKey "activity.discard" then inbound_discard
  else if String.eqb routingKey "association.complete" then association_complete
  else inbound_other.

(** [_onInbound(routingKey, message)]. [brokerSafeId] stands for the helper
    of that name, which the module imports; it is applied to the activity id
    and to [content.sequenceId]. The helper calls a method of the string it
    is given, so that a missing [sequenceId] is a [TypeError]. *)
Definition onInbound (brokerSafeId : string -> string) (self : Def)
    (routingKey : string) (message : Inbound.Message) : M unit :=
  call (ackInbound message);;
  call (cancel "_run-on-inbound");;
  let content := Inbound.content message in
  let inbound := [content] in
  match inboundKey routingKey with
  | inbound_take => run self (triggeredContent (Inbound.message content) inbound)
  | inbound_discard =>
      runDiscard self (inboundContent inbound (Inbound.discardSequence content))
  | association_complete =>
      call (cancel "_run-on-inbound");;
      match Inbound.sequenceId content with
      | None =>
          throw (typeError "Cannot read properties of undefined (reading 'replace')")
      | Some sequenceId =>
          let compensationId :=
            brokerSafeId (id self) +:+ "_" +:+ brokerSafeId sequenceId in
          content ← createMessage self
                      (withExecutionId (Some compensationId) emptyContent);
          publishEvent self "compensation.end" (Some content) noProperties
      end
  | inbound_other => ret tt
  end.

(** *** The execution queue *)

(** [{...base, ...over}] on contents. [None], [false] and the empty
    string stand for an absent key, so a key of [over] wins where it is
    present. *)
Definition spreadContent (base over : Content) : Content :=
  {| Msg.id := if String.eqb (Msg.id over) "" then Msg.id base else Msg.id over;
     Msg.type_ := if String.eqb (Msg.type_ over) "" then Msg.type_ base else Msg.type_ over;
     Msg.name := match Msg.name over with Some v => Some v | None => Msg.name base end;
     Msg.status := match Msg.status over with Some v => Some v | None => Msg.status base end;
     Msg.flags := copyFlags (Msg.flags over) (Msg.flags base);
     Msg.executionId :=
       match Msg.executionId over with Some v => Some v | None => Msg.executionId base end;
     Msg.message :=
       match Msg.message over with Some v => Some v | None => Msg.message base end;
     Msg.inbound :=
       match Msg.inbound over with Some v => Some v | None => Msg.inbound base end;
     Msg.discardSequence :=
       match Msg.discardSequence over with
       | Some v => Some v
       | None => Msg.discardSequence base
       end;
     Msg.outbound :=
       match Msg.outbound over with Some v => Some v | None => Msg.outbound base end;
     Msg.outboundTakeOne := Msg.outboundTakeOne over || Msg.outboundTakeOne base;
     Msg.ignoreOutbound := Msg.ignoreOutbound over || Msg.ignoreOutbound base;
     Msg.flow := match Msg.flow over with Some v => Some v | None => Msg.flow base end;
     Msg.state := match Msg.state over with Some v => Some v | None => Msg.state base end;
     Msg.error := match Msg.error over with Some v => Some v | None => Msg.error base end |}.

(** [_ackRunExecuteMessage()] *)
Definition ackRunExecuteMessage (self : Def) : M unit :=
  if step self then ret tt
  else
    st ← get;
    modify (setExecuteMessage None);;
    match executeMessage st with
    | Some executeMessage => call (ack executeMessage)
    | None => throw (typeError "Cannot read properties of undefined (reading 'ack')")
    end.

(** The cases of [switch (routingKey)] in the execution consumer. *)
Inductive ExecutionKey :=
| execution_outbound_take | execution_error | execution_discard | execution_other.

Definition executionKey (routingKey : string) : ExecutionKey :=
  if String.eqb routingKey "execution.outbound.take" then execution_outbound_take
  else if String.eqb routingKey "execution.error" then execution_error
  else if String.eqb routingKey "execution.discard" then execution_discard
  else execution_other.

(** [_onExecutionMessage(routingKey, message)], the consumer of
    [execution-q]; the [parent] key is left out of the embedding. The
    execute message is unset before the first [run.execute] and [null]
    after [_ackRunExecuteMessage]; the text of the [TypeError] is given for
    the first of the two. *)
Definition onExecutionMessage (self : Def) (routingKey : string)
    (message : Message) : M unit :=
  st ← get;
  match executeMessage st with
  | None => throw (typeError "Cannot read properties of undefined (reading 'content')")
  | Some executeMessage =>
      let content :=
        cloneContent
          (withExecutionId (Msg.executionId (Msg.content executeMessage))
             (spreadContent (Msg.content executeMessage) (Msg.content message))) in
      let correlationId := correlationId (Msg.properties message) in
      publishEvent self routingKey (Some content) (Msg.properties message);;
      match executionKey routingKey with
      | execution_outbound_take =>
          doOutbound self message false (fun err outbound =>
            call (ack message);;
            match err with
            | Some err => emitFatal self err content
            | None =>
                call (publish "run" "run.execute.passthrough"
                        (cloneContentOutbound content outbound) noProperties);;
                ackRunExecuteMessage self
            end)
      | key =>
          match key with
          | execution_error =>
              modify (setStatus (Some Status.error));;
              call (publish "run" "run.error" content (correlated correlationId));;
              call (publish "run" "run.discarded" content (correlated correlationId))
          | execution_discard =>
              modify (setStatus (Some Status.discarded));;
              call (publish "run" "run.discarded" content (correlated correlationId))
          | _ =>
              modify (setStatus (Some Status.executed));;
              call (publish "run" "run.end" content (correlated correlationId))
          end;;
          call (ack message);;
          ackRunExecuteMessage self
      end
  end.

End Activity.

(** * Scenarios *)

Module Scenario.
Import Activity.
Local Open Scope activity_scope.

(** A source of generated id parts: the n-th part is n letters long. *)
Fixpoint letters (n : nat) : string :=
  match n with
  | 0 => ""
  | S n => "i" +:+ letters n
  end.

(** A condition whose callback receives the given result. *)
Definition resulting (v : Js.Value) : option Flow.Condition :=
  Some {| Flow.execute := λ _, Flow.evaluated v |}.

(** A condition whose callback receives an error. *)
Definition failing : option Flow.Condition :=
  Some {| Flow.execute := λ _, Flow.failed (plainError "condition failed") |}.

Definition toA : Flow.t :=
  {| Flow.id := "toA"; Flow.isDefault := false;
     Flow.getCondition := resulting (Js.boolean false) |}.

Definition toB : Flow.t :=
  {| Flow.id := "toB"; Flow.isDefault := false;
     Flow.getCondition := resulting (Js.number 0) |}.

Definition toC : Flow.t :=
  {| Flow.id := "toC"; Flow.isDefault := false;
     Flow.getCondition := resulting (Js.boolean true) |}.

Definition toD : Flow.t :=
  {| Flow.id := "toD"; Flow.isDefault := false;
     Flow.getCondition := resulting (Js.text "yes") |}.

Definition unconditional : Flow.t :=
  {| Flow.id := "toNext"; Flow.isDefault := false; Flow.getCondition := None |}.

Definition defaultFlow : Flow.t :=
  {| Flow.id := "toDefault"; Flow.isDefault := true;
     Flow.getCondition := resulting (Js.boolean false) |}.

Definition broken : Flow.t :=
  {| Flow.id := "toBroken"; Flow.isDefault := false; Flow.getCondition := failing |}.

(** The message of an api object's [stop]: the content of the message the
    object was built around, under the type [stop]. *)
Definition stopping (message : option Message) : Message :=
  {| Msg.fields := {| routingKey := "activity.stop"; redelivered := false |};
     Msg.content :=
       match message with
       | Some m => Msg.content m
       | None => emptyContent
       end;
     Msg.properties :=
       {| correlationId := None; type := Some "stop"; mandatory := None;
          persistent := Some false |} |}.

(** A task definition; the formatter leaves messages as they are, the error
    helper returns the error of the content, and consumers are bound for the
    [error] event and for the api. *)
Definition task (outbound : list Flow.t) (stepMode : bool) : Def :=
  {| id := "task"; type_ := "bpmn:UserTask"; name := None; flags := noFlags;
     inboundSequenceFlows := ["fromStart"]; inboundTriggers := ["fromStart"];
     outboundSequenceFlows := outbound; step := stepMode;
     extensions := false; bpmnIo := false;
     formatter := λ _, unformatted;
     makeErrorFromMessage := λ message, Msg.error (Msg.content message);
     generateId := letters;
     errorConsumer := true;
     unhandled := λ content, default (plainError "unhandled") (Msg.error content);
     apiConsumer := true;
     stopMessage := stopping |}.

(** A parallel gateway that joins three inbound flows. *)
Definition join : Def :=
  {| id := "join"; type_ := "bpmn:ParallelGateway"; name := None;
     flags :=
       {| isEnd := false; isStart := false; isSubProcess := false;
          isMultiInstance := false; isForCompensation := false;
          attachedTo := None; isTransaction := false; isParallelJoin := true;
          isThrowing := false |};
     inboundSequenceFlows := ["f1"; "f2"; "f3"];
     inboundTriggers := ["f1"; "f2"; "f3"];
     outboundSequenceFlows := [unconditional]; step := false;
     extensions := false; bpmnIo := false;
     formatter := λ _, unformatted;
     makeErrorFromMessage := λ message, Msg.error (Msg.content message);
     generateId := letters;
     errorConsumer := true;
     unhandled := λ content, default (plainError "unhandled") (Msg.error content);
     apiConsumer := true;
     stopMessage := stopping |}.

(** The message a sequence flow publishes when it is taken or discarded. *)
Definition flowMessage (routingKey flowId : string)
    (discardSequence : option (list string)) : Inbound.Message :=
  {| Inbound.fields := {| routingKey := routingKey; redelivered := false |};
     Inbound.content :=
       {| Inbound.id := flowId; Inbound.sequenceId := None;
          Inbound.message := None; Inbound.discardSequence := discardSequence |};
     Inbound.properties := noProperties |}.

(** A message of the run queue as the broker delivers it. *)
Definition delivered (routingKey : string) (again : bool) (content : Content) : Message :=
  {| Msg.fields := {| routingKey := routingKey; redelivered := again |};
     Msg.content := content;
     Msg.properties := noProperties |}.

(** The content that [run] and [_runDiscard] publish for the first run of
    [task]. *)
Definition firstRun : Content :=
  {| Msg.id := "task"; Msg.type_ := "bpmn:UserTask"; Msg.name := None;
     Msg.status := None; Msg.flags := noFlags;
     Msg.executionId := Some "task_"; Msg.message := None; Msg.inbound := None;
     Msg.discardSequence := None; Msg.outbound := None;
     Msg.outboundTakeOne := false; Msg.ignoreOutbound := false;
     Msg.flow := None; Msg.state := None; Msg.error := None |}.

(** The message an evaluation starts from, with a message payload. *)
Definition leaving : Message :=
  delivered "run.end" false
    {| Msg.id := "gateway"; Msg.type_ := "bpmn:ExclusiveGateway"; Msg.name := None;
       Msg.status := Some Status.end_; Msg.flags := noFlags;
       Msg.executionId := Some "gateway_1"; Msg.message := Some (Js.text "order");
       Msg.inbound := None; Msg.discardSequence := None; Msg.outbound := None;
       Msg.outboundTakeOne := false; Msg.ignoreOutbound := false;
       Msg.flow := None; Msg.state := None; Msg.error := None |}.

(** A task in step mode: run messages are acknowledged by [next]. *)
Definition stepTask : Def := task [] true.

(** One discarded run of [stepTask] that is stopped and resumed before
    its [run.discarded] message is acknowledged: the broker delivers that
    message once more, marked as redelivered. *)
Definition stoppedAtDiscarded : M unit :=
  runDiscard stepTask emptyContent;;
  onRunMessage stepTask "run.discard" (delivered "run.discard" false firstRun);;
  next stepTask;;
  onRunMessage stepTask "run.discarded" (delivered "run.discarded" false firstRun);;
  stop stepTask;;
  resume stepTask;;
  onRunMessage stepTask "run.discarded" (delivered "run.discarded" true firstRun).

(** Three arrivals at [join]: its first inbound flow is taken twice, then
    its second inbound flow is taken; its third inbound flow is silent. *)
Definition arrivals : list Inbound.Message :=
  [flowMessage "flow.take" "f1" None; flowMessage "flow.take" "f1" None;
   flowMessage "flow.take" "f2" None].

(** A running activity: it consumes its run queue and has a status. *)
Definition executingState : State :=
  setStatus (Some Status.executing) (setConsuming true initial).

(** A gateway-like task with a conditional flow that is taken and a
    default flow. *)
Definition forking : Def := task [toC; defaultFlow] false.

(** A snapshot of an entered activity without an execution. *)
Definition enteredSnapshot : Snapshot.t :=
  {| Snapshot.stopped := false; Snapshot.status := Some Status.entered;
     Snapshot.executionId := Some "task_"; Snapshot.counters := None;
     Snapshot.execution := None |}.

(** The state of [task] after [run] and the [run.enter] message. *)
Definition enteredState : State :=
  state ((run (task [] false) emptyContent;;
          continueRunMessage (task [] false) "run.enter"
            (delivered "run.enter" false firstRun)) initial).

(** A state in which [run.execute] was consumed. *)
Definition executed : State :=
  setExecuteMessage (Some (delivered "run.execute" false firstRun)) executingState.
End Scenario.

(** * Vocabulary of the statements *)

Section EvaluationVocabulary.
Import OutboundEvaluator.

(** What [evaluateFlow] publishes for a flow, or the error of its
    condition. *)
Definition verdict (args : Args) (flow : Flow.t) : Error + FlowAction.t :=
  if Flow.isDefault flow then inr (formatFlowAction flow (FlowAction.just Action.take))
  else
    match Flow.getCondition flow with
    | None => inr (formatFlowAction flow (FlowAction.just Action.take))
    | Some flowCondition =>
        match Flow.execute flowCondition (fromMessage args) with
        | Flow.failed err => inl err
        | Flow.evaluated result =>
            inr (formatFlowAction flow
                   {| FlowAction.id := "";
                      FlowAction.action :=
                        if Js.truthy result then Action.take else Action.discard;
                      FlowAction.isDefault := false;
                      FlowAction.result := Some result;
                      FlowAction.evaluationId := evaluationId args;
                      FlowAction.message := None;
                      FlowAction.sequenceId := None;
                      FlowAction.discardSequence := None |})
        end
    end.

(** Whether [evaluateFlow] executes the condition of a flow. *)
Definition conditional (flow : Flow.t) : bool :=
  negb (Flow.isDefault flow) && bool_decide (is_Some (Flow.getCondition flow)).

Definition conditionCalls (flow : Flow.t) : list Call :=
  if conditional flow then [execute (Flow.id flow)] else [].

(** [evaluateArgs] after [onEvaluated] took note of a published record. *)
Definition noted (content : FlowAction.t) (args : Args) : Args :=
  setResult (FlowAction.id content) content
    match FlowAction.action content with
    | Action.take => countTaken args
    | Action.discard => args
    end.

Definition publication (content : FlowAction.t) : Call :=
  publish "execution" ("evaluate.flow." +:+ Action.name (FlowAction.action content)) content.

Definition discardOf (flow : Flow.t) : FlowAction.t :=
  formatFlowAction flow (FlowAction.just Action.discard).

(** The number of records with action [take]. *)
Definition takes (records : list FlowAction.t) : nat :=
  length (filter (λ r, FlowAction.action r = Action.take) records).

(** No flow of the list has a record yet, and the id of each names an own
    property. *)
Definition fresh (flows : list Flow.t) (args : Args) : Prop :=
  ∀ f, f ∈ flows →
    Flow.id f ≠ "__proto__" ∧ Js.Object.get (Flow.id f) (result args) = None.

(** The flow has a record with action [take]. *)
Definition takenIn (o : Js.Object.t FlowAction.t) (flow : Flow.t) : bool :=
  match Js.Object.get (Flow.id flow) o with
  | Some r => bool_decide (FlowAction.action r = Action.take)
  | None => false
  end.

(** The ids of the flows whose condition was executed, in order. *)
Definition executions (calls : list Call) : list string :=
  omap (λ c, match c with execute flowId => Some flowId | _ => None end) calls.

(** The record has action [take]. *)
Definition isTake (record : FlowAction.t) : bool :=
  bool_decide (FlowAction.action record = Action.take).

(** The entries written for a list of flows, where [met] tells whether a
    flow before them was taken: the discard that [onEvaluated] writes
    without evaluating when a flow was taken and the rest is discarded or
    the flow is the default flow, else the record that [evaluateFlow]
    publishes. *)
Fixpoint recordedFor (args : Args) (met : bool) (flows : list Flow.t)
    (entries : list (string * FlowAction.t)) : Prop :=
  match flows, entries with
  | [], [] => True
  | flow :: flows', entry :: entries' =>
      entry.1 = Flow.id flow
      ∧ (if met && (discardRestAtTake args || Flow.isDefault flow)
         then entry.2 = discardOf flow
         else verdict args flow = inr entry.2)
      ∧ recordedFor args (met || isTake entry.2) flows' entries'
  | _, _ => False
  end.

(** Only the last flow of the list may be a default flow. *)
Definition defaultLast (flows : list Flow.t) : Prop :=
  Forall (λ f, Flow.isDefault f = false) (removelast flows).

(** At most one outbound flow is the default flow. *)
Definition atMostOneDefault (flows : list Flow.t) : Prop :=
  length (filter (λ f, Flow.isDefault f = true) flows) ≤ 1.

(** The declaration order with the default flow moved to the end. *)
Definition defaultMovedLast (flows : list Flow.t) : list Flow.t :=
  filter (λ f, Flow.isDefault f = false) flows
    ++ filter (λ f, Flow.isDefault f = true) flows.

(** The [message] key that [completed] adds to the records. *)
Definition payload (fromMessage : Message) : option Js.Value :=
  match Msg.message (Msg.content fromMessage) with
  | None | Some Js.undefined => None
  | Some v => Some v
  end.

(** The record that a successful evaluation delivers for a flow, where
    [met] tells whether a record before it has action [take]. After a take,
    the default flow (and, with [discardRestAtTake], every flow) is
    discarded without being evaluated; otherwise the default flow and a flow
    without condition are taken, and a conditional flow is taken or
    discarded by the result of its condition, which the record then carries
    together with the evaluation id. *)
Definition resultRecord (fromMessage : Message) (discardRestAtTake met : bool)
    (flow : Flow.t) (record : FlowAction.t) : Prop :=
  FlowAction.id record = Flow.id flow
  ∧ FlowAction.isDefault record = Flow.isDefault flow
  ∧ FlowAction.message record = payload fromMessage
  ∧ FlowAction.sequenceId record = None
  ∧ FlowAction.discardSequence record = None
  ∧ if met && (discardRestAtTake || Flow.isDefault flow)
    then FlowAction.action record = Action.discard
         ∧ FlowAction.result record = None
         ∧ FlowAction.evaluationId record = None
    else match (if Flow.isDefault flow then None else Flow.getCondition flow) with
         | None =>
             FlowAction.action record = Action.take
             ∧ FlowAction.result record = None
             ∧ FlowAction.evaluationId record = None
         | Some flowCondition =>
             ∃ v,
               Flow.execute flowCondition fromMessage = Flow.evaluated v
               ∧ FlowAction.result record = Some v
               ∧ FlowAction.evaluationId record
                 = Msg.executionId (Msg.content fromMessage)
               ∧ FlowAction.action record
                 = if Js.truthy v then Action.take else Action.discard
         end.

(** The records of a successful evaluation, in the order of the flows. *)
Fixpoint resultRecords (fromMessage : Message) (discardRestAtTake met : bool)
    (flows : list Flow.t) (records : list FlowAction.t) : Prop :=
  match flows, records with
  | [], [] => True
  | flow :: flows', record :: records' =>
      resultRecord fromMessage discardRestAtTake met flow record
      ∧ resultRecords fromMessage discardRestAtTake (met || isTake record)
          flows' records'
  | _, _ => False
  end.

(** [evaluateArgs] as [evaluate] sets it up. *)
Definition initialArgs (fromMessage : Message) (discardRestAtTake : bool) : Args :=
  {| fromMessage := fromMessage;
     evaluationId := Msg.executionId (Msg.content fromMessage);
     discardRestAtTake := discardRestAtTake;
     conditionMet := false;
     result := Js.Object.empty;
     takenCount := 0 |}.
End EvaluationVocabulary.

Section JoinVocabulary.
Import Activity.



(** The source flow ids of buffered messages. *)
Definition sources (buffer : list Inbound.Message) : list string :=
  (λ im, Inbound.id (Inbound.content im)) <$> buffer.

(** The message is for a source flow that has no message in the buffer. *)
Definition newSource (message : Inbound.Message) (buffer : list Inbound.Message) : Prop :=
  Inbound.id (Inbound.content message) ∉ sources buffer.
End JoinVocabulary.

Section RunVocabulary.
Import Activity.

(** A call that publishes on the event exchange. *)
Definition isEvent (c : Call) : bool :=
  match c with
  | publish exchange _ _ _ => String.eqb exchange "event"
  | _ => false
  end.

(** The events among the calls. *)
Definition events (calls : list Call) : list Call := List.filter isEvent calls.

(** The contents published on an exchange with a routing key, in order. *)
Definition published (exchange routingKey : string) (calls : list Call) : list Content :=
  omap (λ c, match c with
             | publish e k content _ =>
                 if String.eqb e exchange && String.eqb k routingKey
                 then Some content else None
             | _ => None
             end) calls.

(** The status that the transition table gives after a run message. *)
Definition transition (key : RunKey) (before : option Status.t) : option Status.t :=
  match key with
  | run_enter => Some Status.entered
  | run_discard => Some Status.discard
  | run_start => Some Status.started
  | run_execute_passthrough | run_execute => Some Status.executing
  | run_end => Some Status.end_
  | run_discarded => Some Status.discarded
  | run_leave => None
  | _ => before
  end.

(** The counters after a run message, by its routing key. *)
Definition counted (key : RunKey) (before : option Status.t) (c : Counters) : Counters :=
  match key with
  | run_end => if bool_decide (before = Some Status.end_) then c else addTaken c
  | run_discarded => addDiscarded c
  | _ => c
  end.

(** The operation leaves the counters as they are. *)
Definition keepsCounters {A} (m : M A) : Prop :=
  ∀ st, counters (state (m st)) = counters st.

(** The id that [getUniqueId] draws in a state. *)
Definition nextUniqueId (self : Def) (st : State) : string :=
  id self +:+ "_" +:+ generateId self (generated st).

(** The execution id that [init] announces in a state. *)
Definition announcedId (self : Def) (st : State) : string :=
  match Js.nonEmpty (Exec.initExecutionId (exec st)) with
  | Some initExecutionId => initExecutionId
  | None => nextUniqueId self st
  end.
End RunVocabulary.

Section FrameVocabulary.
Import Activity.

(** The operation leaves a part of the state as it is. *)
Definition preserves {A B} (part : State → B) (m : M A) : Prop :=
  ∀ st, part (state (m st)) = part st.

(** The operation makes no call that the selection keeps. *)
Definition silent {A X} (selection : Call → option X) (m : M A) : Prop :=
  ∀ st, omap selection (calls (m st)) = [].

(** The run-queue messages that are acknowledged. *)
Definition acknowledged (c : Call) : option Message :=
  match c with ack message => Some message | _ => None end.

End FrameVocabulary.

Section OutboundVocabulary.
Import Activity.

(** The [run.outbound.*] message that [_doRunOutbound] publishes for a flow
    record when [generated] ids were drawn before. *)
Definition outboundMessage (self : Def) (content : Content)
    (discardSequence : option (list string)) (generated : nat)
    (outboundFlow : FlowAction.t) : Call :=
  let action := Action.name (FlowAction.action outboundFlow) in
  publish "run" ("run.outbound." +:+ action)
    (withFlow
       (outboundFlowContent outboundFlow
          ((FlowAction.id outboundFlow +:+ "_" +:+ action) +:+ "_"
             +:+ generateId self generated)
          discardSequence)
       content)
    noProperties.

(** The state after [n] more ids were drawn. *)
Definition drawn (n : nat) (st : State) : State :=
  match n with
  | 0 => st
  | S _ => setGenerated (generated st + n) st
  end.

(** The event is mandatory and no consumer is bound for it. *)
Definition unrouted (self : Def) (name : string) : bool :=
  String.eqb name "error" && negb (errorConsumer self).

(** The call that [_publishEvent] makes for a content. *)
Definition event (name : string) (content : Content) (messageProperties : Properties) : Call :=
  publish "event" ("activity." +:+ name) (withState name content)
    {| correlationId := correlationId messageProperties;
       type := Some name;
       mandatory := Some (String.eqb name "error");
       persistent :=
         Some match persistent messageProperties with
              | Some p => p
              | None => negb (String.eqb name "stop")
              end |}.
End OutboundVocabulary.

Section AckVocabulary.
Import Activity.

(** The selected calls of the operation are none or the given ones. *)
Definition within {A X} (selection : Call → option X) (l : list X) (m : M A) : Prop :=
  ∀ st, omap selection (calls (m st)) = [] ∨ omap selection (calls (m st)) = l.

(** The operation returns, and acknowledges nothing. *)
Definition quietly {A} (m : M A) : Prop :=
  ∀ st, (∃ a, completion (m st) = returned a) ∧ omap acknowledged (calls (m st)) = [].

(** The operation returns, and its last call, and no other, acknowledges
    the message. *)
Definition acknowledges (message : Message) (m : M unit) : Prop :=
  ∀ st, completion (m st) = returned ()
        ∧ ∃ earlier, calls (m st) = earlier ++ [ack message]
                     ∧ omap acknowledged earlier = [].
End AckVocabulary.

Section AdoptVocabulary.
Import Activity.

(** The record that [_doOutbound] adopts for a flow: the last one of the
    flow's id. *)
Definition adoptedRecord (records : list FlowAction.t) (flow : Flow.t) : option FlowAction.t :=
  last (List.filter (λ f, String.eqb (FlowAction.id f) (Flow.id flow)) records).
End AdoptVocabulary.

Section StopVocabulary.
Import Activity.

(** The content that [_createMessage()] builds in a state. *)
Definition ownContent (self : Def) (st : State) : Content :=
  {| Msg.id := id self; Msg.type_ := type_ self;
     Msg.name := Js.nonEmpty (name self);
     Msg.status := status st;
     Msg.flags := copyFlags (flags self) noFlags;
     Msg.executionId := None; Msg.message := None; Msg.inbound := None;
     Msg.discardSequence := None; Msg.outbound := None;
     Msg.outboundTakeOne := false; Msg.ignoreOutbound := false;
     Msg.flow := None; Msg.state := None; Msg.error := None |}.

(** The calls of [_consumeApi] in a state. *)
Definition apiSubscription (st : State) : list Call :=
  match Js.nonEmpty (Exec.executionId (exec st)) with
  | Some executionId =>
      [cancel "_activity-api";
       subscribeTmp "api" ("activity.*." +:+ executionId) "_activity-api"]
  | None => []
  end.
End StopVocabulary.

Section ResumeVocabulary.
Import Activity.

(** The run messages that [_onResumeMessage] publishes again. *)
Definition replayed (key : RunKey) : bool :=
  match key with
  | run_enter | run_start | run_discarded | run_end | run_leave => true
  | _ => false
  end.
End ResumeVocabulary.

Section ExecutionVocabulary.
Import Activity.

(** The content that [_onExecutionMessage] publishes: the content of the
    execute message, overlaid with the content of the execution message,
    under the execution id of the execute message. *)
Definition executionContent (executeMessage message : Message) : Content :=
  withExecutionId (Msg.executionId (Msg.content executeMessage))
    (spreadContent (Msg.content executeMessage) (Msg.content message)).

(** What the execution consumer makes of a completion: the status and
    the run messages. *)
Definition completionStatus (key : ExecutionKey) : Status.t :=
  match key with
  | execution_error => Status.error
  | execution_discard => Status.discarded
  | _ => Status.executed
  end.

Definition completionKeys (key : ExecutionKey) : list string :=
  match key with
  | execution_error => ["run.error"; "run.discarded"]
  | execution_discard => ["run.discarded"]
  | _ => ["run.end"]
  end.
End ExecutionVocabulary.

Section ApiDiscardVocabulary.
Import Activity.

(** The statuses in which [_discardRun] does nothing. *)
Definition settled (s : Status.t) : bool :=
  match s with
  | Status.executing | Status.error | Status.discarded => true
  | _ => false
  end.
End ApiDiscardVocabulary.

Section SubscriptionVocabulary.
Import OutboundEvaluator.

(** The calls that subscribe or cancel a consumer, in order. *)
Definition consumerCalls (calls : list Call) : list Call :=
  List.filter (λ c, match c with
                    | subscribeTmp _ _ _ | cancel _ => true
                    | _ => false
                    end) calls.
End SubscriptionVocabulary.


(** * Properties *)

(** ** Dictionary objects *)

Section ObjectFacts.
Context {V : Type}.
Implicit Types (o : Js.Object.t V) (k : string) (v : V).

Lemma object_set_define k v o :
  k ≠ "__proto__" → Js.Object.set k v o = Js.Object.define k v o.
Proof.
  intros Hk. unfold Js.Object.set. by destruct (String.eqb_spec k "__proto__").
Qed.

Lemma object_get_set_eq k v o :
  k ≠ "__proto__" → Js.Object.get k (Js.Object.set k v o) = Some v.
Proof.
  intros Hk. rewrite object_set_define by done.
  induction o as [|[k' w] o IH]; simpl.
  - by rewrite String.eqb_refl.
  - destruct (String.eqb_spec k' k) as [->|Hne]; simpl.
    + by rewrite String.eqb_refl.
    + by destruct (String.eqb_spec k' k).
Qed.

Lemma object_get_set_ne k k' v o :
  k ≠ k' → Js.Object.get k' (Js.Object.set k v o) = Js.Object.get k' o.
Proof.
  intros Hne. unfold Js.Object.set.
  destruct (String.eqb k "__proto__"); [done|].
  induction o as [|[k0 w] o IH]; simpl.
  - by destruct (String.eqb_spec k k').
  - destruct (String.eqb_spec k0 k) as [->|Hk]; simpl.
    + by destruct (String.eqb_spec k k').
    + by rewrite IH.
Qed.

(** Assignments never give the object an own property [__proto__]. *)
Lemma object_get_set_proto k v o :
  Js.Object.get "__proto__" (Js.Object.set k v o) = Js.Object.get "__proto__" o.
Proof.
  destruct (decide (k = "__proto__")) as [->|Hk].
  - done.
  - by apply object_get_set_ne.
Qed.

Lemma object_get_None k o :
  Js.Object.get k o = None ↔ k ∉ o.*1.
Proof.
  induction o as [|[k' w] o IH]; simpl.
  - split; [intros _ | done]. apply not_elem_of_nil.
  - rewrite not_elem_of_cons, <- IH.
    destruct (String.eqb_spec k' k) as [->|Hne].
    + split; [done | by intros [? _]].
    + split; [by intros ?; split | by intros [_ ?]].
Qed.

Lemma object_set_fresh k v o :
  k ≠ "__proto__" →
  Js.Object.get k o = None → Js.Object.set k v o = o ++ [(k, v)].
Proof.
  intros Hk. rewrite object_set_define by done.
  induction o as [|[k' w] o IH]; simpl; [done|].
  destruct (String.eqb_spec k' k); [done|]. intros H. by rewrite IH.
Qed.

Lemma object_insertIndexed_perm n v (l : list (N * V)) :
  Js.Object.insertIndexed n v l ≡ₚ (n, v) :: l.
Proof.
  induction l as [|[m w] l IH]; simpl; [done|].
  destruct (n <? m)%N; [done|]. rewrite IH. apply Permutation_swap.
Qed.

(** [Object.values] lists every value once. *)
Lemma object_values_perm o : Js.Object.values o ≡ₚ o.*2.
Proof.
  unfold Js.Object.values.
  induction o as [|[k w] o IH]; [done|].
  rewrite fmap_cons. unfold Js.Object.indexed, Js.Object.named in *.
  simpl. destruct (Js.arrayIndex k); simpl.
  - rewrite object_insertIndexed_perm. simpl. by rewrite IH.
  - rewrite <- Permutation_middle. by rewrite IH.
Qed.

(** Without array-index keys, [Object.values] follows insertion order. *)
Lemma object_values_named o :
  Forall (λ k, Js.arrayIndex k = None) o.*1 → Js.Object.values o = o.*2.
Proof.
  intros Ho. unfold Js.Object.values.
  assert (Js.Object.indexed o = [] ∧ Js.Object.named o = o.*2) as [-> ->]; [|done].
  unfold Js.Object.indexed, Js.Object.named.
  induction o as [|[k w] o IH]; [done|].
  rewrite fmap_cons, Forall_cons in Ho. simpl in *.
  destruct Ho as [-> Ho]. destruct (IH Ho) as [-> ->]. done.
Qed.
End ObjectFacts.

(** ** One round of the outbound evaluation *)

Section EvaluationRounds.
Import OutboundEvaluator.
Context (self : OutboundEvaluator.t).

Lemma verdict_id args flow content :
  verdict args flow = inr content → FlowAction.id content = Flow.id flow.
Proof. unfold verdict. repeat case_match; intros; by simplify_eq. Qed.

(** [evaluateFlow] unfolded by one flow. *)
Lemma evaluateFlow_round flow flows args calls :
  evaluateFlow self flow flows args calls =
    match verdict args flow with
    | inl err => completed self (Some err) args (calls ++ conditionCalls flow)
    | inr content =>
        let args' := noted content args in
        let calls' := (calls ++ conditionCalls flow) ++ [publication content] in
        match flows with
        | [] => completed self None args' calls'
        | nextFlow :: rest =>
            if discardRestAtTake args' && conditionMet args'
            then completed self None (discardRest (nextFlow :: rest) args') calls'
            else if conditionMet args' && Flow.isDefault nextFlow
            then completed self None
                   (setResult (Flow.id nextFlow) (discardOf nextFlow) args') calls'
            else evaluateFlow self nextFlow rest args'
                   (calls' ++ [ack (FlowAction.id content)])
        end
    end.
Proof.
  unfold verdict, conditionCalls, conditional.
  destruct flows as [|nextFlow rest]; simpl;
    unfold brokerPublish, onEvaluated, cloneMessage, publication, noted, discardOf;
    destruct (Flow.isDefault flow); simpl; rewrite ?app_nil_r; try done;
    destruct (Flow.getCondition flow) as [c|]; simpl; rewrite ?app_nil_r; try done;
    destruct (Flow.execute c (fromMessage args)); simpl; try done.
Qed.

Local Arguments noted : simpl never.
Local Arguments completed : simpl never.
Local Arguments evaluateFlow : simpl never.

(** The id of a flow of a [fresh] list names an own property. *)
Ltac own :=
  match goal with
  | H : fresh _ _ |- _ ≠ "__proto__" =>
      apply H;
      first [ done | by left | by (right; left) | by right
            | by eapply last_Some_elem_of
            | right; by eapply last_Some_elem_of ]
  end.

(** Induction along the rounds of an evaluation. *)
Lemma evaluateFlow_rounds (P : Flow.t → list Flow.t → Args → list Call → Run → Prop) :
  (∀ flow flows a log err,
     verdict a flow = inl err →
     P flow flows a log (completed self (Some err) a (log ++ conditionCalls flow))) →
  (∀ flow a log content,
     verdict a flow = inr content →
     P flow [] a log
       (completed self None (noted content a)
          ((log ++ conditionCalls flow) ++ [publication content]))) →
  (∀ flow nextFlow rest a log content,
     verdict a flow = inr content →
     discardRestAtTake (noted content a) && conditionMet (noted content a) = true →
     P flow (nextFlow :: rest) a log
       (completed self None (discardRest (nextFlow :: rest) (noted content a))
          ((log ++ conditionCalls flow) ++ [publication content]))) →
  (∀ flow nextFlow rest a log content,
     verdict a flow = inr content →
     discardRestAtTake (noted content a) && conditionMet (noted content a) = false →
     conditionMet (noted content a) && Flow.isDefault nextFlow = true →
     P flow (nextFlow :: rest) a log
       (completed self None
          (setResult (Flow.id nextFlow) (discardOf nextFlow) (noted content a))
          ((log ++ conditionCalls flow) ++ [publication content]))) →
  (∀ flow nextFlow rest a log content,
     verdict a flow = inr content →
     discardRestAtTake (noted content a) && conditionMet (noted content a) = false →
     conditionMet (noted content a) && Flow.isDefault nextFlow = false →
     let log' :=
       ((log ++ conditionCalls flow) ++ [publication content])
         ++ [ack (FlowAction.id content)] in
     P nextFlow rest (noted content a) log'
       (evaluateFlow self nextFlow rest (noted content a) log') →
     P flow (nextFlow :: rest) a log
       (evaluateFlow self nextFlow rest (noted content a) log')) →
  ∀ flow flows a log, P flow flows a log (evaluateFlow self flow flows a log).
Proof.
  intros Herr Hlast Hrest Hdefault Hnext flow flows.
  revert flow. induction flows as [|nextFlow rest IH]; intros flow a log;
    rewrite evaluateFlow_round.
  - destruct (verdict a flow) eqn:Hv; [by apply Herr | by apply Hlast].
  - destruct (verdict a flow) as [err|content] eqn:Hv; [by apply Herr|].
    cbv zeta.
    destruct (discardRestAtTake _ && conditionMet _) eqn:Hdr; [by apply Hrest|].
    destruct (conditionMet _ && Flow.isDefault nextFlow) eqn:Hdef; [by apply Hdefault|].
    apply Hnext; [done..|]. apply IH.
Qed.

Lemma completed_args err args calls : OutboundEvaluator.args (completed self err args calls) = args.
Proof. unfold completed. by repeat case_match. Qed.

Lemma noted_result content args :
  result (noted content args) = Js.Object.set (FlowAction.id content) content (result args).
Proof. unfold noted. by destruct (FlowAction.action content). Qed.

Lemma noted_fromMessage content args : fromMessage (noted content args) = fromMessage args.
Proof. unfold noted. by destruct (FlowAction.action content). Qed.

Lemma noted_evaluationId content args : evaluationId (noted content args) = evaluationId args.
Proof. unfold noted. by destruct (FlowAction.action content). Qed.

Lemma noted_discardRestAtTake content args :
  discardRestAtTake (noted content args) = discardRestAtTake args.
Proof. unfold noted. by destruct (FlowAction.action content). Qed.

Lemma noted_conditionMet content args :
  conditionMet (noted content args) =
    conditionMet args || bool_decide (FlowAction.action content = Action.take).
Proof.
  unfold noted. destruct (FlowAction.action content); simpl;
    by rewrite ?orb_true_r, ?orb_false_r.
Qed.

Lemma noted_takenCount content args :
  takenCount (noted content args) =
    takenCount args + (if bool_decide (FlowAction.action content = Action.take) then 1 else 0).
Proof. unfold noted. destruct (FlowAction.action content); simpl; lia. Qed.

Lemma verdict_stable args args' flow :
  fromMessage args' = fromMessage args → evaluationId args' = evaluationId args →
  verdict args' flow = verdict args flow.
Proof. unfold verdict. by intros -> ->. Qed.

Lemma discardRest_result flows args :
  result (discardRest flows args) =
    foldl (λ o f, Js.Object.set (Flow.id f) (discardOf f) o) (result args) flows.
Proof.
  revert args. induction flows as [|f flows IH]; intros args; [done|].
  simpl. by rewrite IH.
Qed.

Lemma discardRest_static flows args :
  fromMessage (discardRest flows args) = fromMessage args
  ∧ evaluationId (discardRest flows args) = evaluationId args
  ∧ discardRestAtTake (discardRest flows args) = discardRestAtTake args
  ∧ conditionMet (discardRest flows args) = conditionMet args
  ∧ takenCount (discardRest flows args) = takenCount args.
Proof.
  revert args. induction flows as [|f flows IH]; intros args; [done|]. simpl.
  by destruct (IH (setResult (Flow.id f)
                     (formatFlowAction f (FlowAction.just Action.discard)) args))
    as (-> & -> & -> & -> & ->).
Qed.

Lemma setResult_result k v args :
  result (setResult k v args) = Js.Object.set k v (result args).
Proof. done. Qed.

Lemma discardRest_other_keys flows args k :
  k ∉ Flow.id <$> flows →
  Js.Object.get k (result (discardRest flows args)) = Js.Object.get k (result args).
Proof.
  revert args. induction flows as [|f flows IH]; intros args Hk; [done|].
  rewrite fmap_cons, not_elem_of_cons in Hk. destruct Hk as [Hf Hk].
  simpl. rewrite IH by done. rewrite setResult_result.
  by apply object_get_set_ne.
Qed.

Lemma discardRest_fresh flows args :
  NoDup (Flow.id <$> flows) → fresh flows args →
  result (discardRest flows args) = result args ++ ((λ f, (Flow.id f, discardOf f)) <$> flows).
Proof.
  revert args. induction flows as [|f flows IH]; intros args Hnd Hfresh.
  - by rewrite app_nil_r.
  - rewrite fmap_cons, NoDup_cons in Hnd. destruct Hnd as [Hf Hnd].
    simpl. rewrite IH; [|done|].
    + rewrite setResult_result, object_set_fresh, <- app_assoc;
        [done | apply Hfresh; by left..].
    + intros g Hg. split; [apply Hfresh; by right|].
      rewrite setResult_result, object_get_set_ne.
      * apply Hfresh. by right.
      * intros Heq. apply Hf. rewrite Heq. by apply list_elem_of_fmap_2.
Qed.

(** The evaluation only writes the records of the flows it is given. *)
Lemma evaluateFlow_other_keys flow flows args calls k :
  k ∉ Flow.id <$> (flow :: flows) →
  Js.Object.get k (result (OutboundEvaluator.args (evaluateFlow self flow flows args calls)))
  = Js.Object.get k (result args).
Proof.
  revert k. pattern flow, flows, args, calls, (evaluateFlow self flow flows args calls).
  apply evaluateFlow_rounds; clear; intros *; intros Hv; intros;
    rewrite ?completed_args;
    repeat match goal with H : _ ∉ _ <$> (_ :: _) |- _ =>
      rewrite fmap_cons, not_elem_of_cons in H; destruct H end.
  - done.
  - rewrite noted_result, (verdict_id _ _ _ Hv). by apply object_get_set_ne.
  - rewrite discardRest_other_keys by (rewrite fmap_cons, not_elem_of_cons; done).
    rewrite noted_result, (verdict_id _ _ _ Hv). by apply object_get_set_ne.
  - rewrite setResult_result, object_get_set_ne by done.
    rewrite noted_result, (verdict_id _ _ _ Hv). by apply object_get_set_ne.
  - match goal with
    | IH : ∀ k, _ → _ |- _ => rewrite IH by (rewrite fmap_cons, not_elem_of_cons; done)
    end.
    rewrite noted_result, (verdict_id _ _ _ Hv). by apply object_get_set_ne.
Qed.

Lemma takes_app l1 l2 : takes (l1 ++ l2) = takes l1 + takes l2.
Proof. unfold takes. by rewrite filter_app, length_app. Qed.

Lemma takes_discards flows : takes ((λ f, (Flow.id f, discardOf f)) <$> flows).*2 = 0.
Proof.
  induction flows as [|f flows IH]; [done|]. rewrite !fmap_cons.
  unfold takes in *. simpl. rewrite filter_cons_False; done.
Qed.

Lemma takes_singleton r :
  takes [r] = if bool_decide (FlowAction.action r = Action.take) then 1 else 0.
Proof.
  unfold takes.
  case_bool_decide; [by rewrite filter_cons_True | by rewrite filter_cons_False].
Qed.

Lemma fresh_tail flow flows args content :
  NoDup (Flow.id <$> flow :: flows) → fresh (flow :: flows) args →
  verdict args flow = inr content → fresh flows (noted content args).
Proof.
  rewrite fmap_cons, NoDup_cons. intros [Hflow _] Hfresh Hv f Hf.
  split; [apply Hfresh; by right|].
  rewrite noted_result, (verdict_id _ _ _ Hv), object_get_set_ne.
  - apply Hfresh. by right.
  - intros Heq. apply Hflow. rewrite Heq. by apply list_elem_of_fmap_2.
Qed.

Lemma noted_fresh flow flows args content :
  fresh (flow :: flows) args → verdict args flow = inr content →
  result (noted content args) = result args ++ [(Flow.id flow, content)].
Proof.
  intros Hfresh Hv. rewrite noted_result, (verdict_id _ _ _ Hv).
  apply object_set_fresh; apply Hfresh; by left.
Qed.

Lemma noted_takes flow flows args content :
  fresh (flow :: flows) args → verdict args flow = inr content →
  takenCount args = takes (result args).*2 →
  takenCount (noted content args) = takes (result (noted content args)).*2.
Proof.
  intros Hfresh Hv Hcount.
  rewrite (noted_fresh _ _ _ _ Hfresh Hv), noted_takenCount, fmap_app, takes_app, Hcount.
  by rewrite fmap_cons, takes_singleton.
Qed.

(** [takenCount] is the number of recorded takes. *)
Lemma evaluateFlow_takenCount flow flows args calls :
  NoDup (Flow.id <$> flow :: flows) → fresh (flow :: flows) args →
  takenCount args = takes (result args).*2 →
  let r := evaluateFlow self flow flows args calls in
  takenCount (OutboundEvaluator.args r) = takes (result (OutboundEvaluator.args r)).*2.
Proof.
  cbv zeta. pattern flow, flows, args, calls, (evaluateFlow self flow flows args calls).
  apply evaluateFlow_rounds; clear; intros * Hv; intros; rewrite ?completed_args.
  - done.
  - by eapply noted_takes.
  - destruct (discardRest_static (nextFlow :: rest) (noted content a)) as (_ & _ & _ & _ & ->).
    rewrite discardRest_fresh; [| by eapply NoDup_cons_1_2 | by eapply fresh_tail].
    rewrite fmap_app, takes_app, takes_discards, Nat.add_0_r. by eapply noted_takes.
  - rewrite setResult_result, object_set_fresh, fmap_app, takes_app.
    + rewrite fmap_cons, takes_singleton. simpl.
      replace (takenCount (setResult _ _ _)) with (takenCount (noted content a)) by done.
      rewrite Nat.add_0_r. by eapply noted_takes.
    + match goal with H : fresh _ _ |- _ => apply H; right; by left end.
    + eapply fresh_tail; [done..|by left].
  - match goal with IH : _ → _ |- _ => apply IH end.
    + by eapply NoDup_cons_1_2.
    + by eapply fresh_tail.
    + by eapply noted_takes.
Qed.

(** With [discardRestAtTake], at most one flow is taken. *)
Lemma evaluateFlow_take_one flow flows args calls :
  discardRestAtTake args = true → conditionMet args = false → takenCount args = 0 →
  takenCount (OutboundEvaluator.args (evaluateFlow self flow flows args calls)) ≤ 1.
Proof.
  pattern flow, flows, args, calls, (evaluateFlow self flow flows args calls).
  apply evaluateFlow_rounds; clear; intros * Hv; intros; rewrite ?completed_args.
  - lia.
  - rewrite noted_takenCount. case_bool_decide; lia.
  - destruct (discardRest_static (nextFlow :: rest) (noted content a)) as (_ & _ & _ & _ & ->).
    rewrite noted_takenCount. case_bool_decide; lia.
  - replace (takenCount (setResult _ _ _)) with (takenCount (noted content a)) by done.
    rewrite noted_takenCount. case_bool_decide; lia.
  - match goal with
    | Hdr : discardRestAtTake (noted _ _) && _ = false, IH : _ → _ |- _ =>
        rewrite noted_discardRestAtTake, noted_conditionMet in Hdr;
        apply IH; rewrite ?noted_discardRestAtTake, ?noted_conditionMet, ?noted_takenCount
    end; try done.
    + destruct (discardRestAtTake a), (conditionMet a); simpl in *; congruence.
    + case_bool_decide; [|lia].
      destruct (discardRestAtTake a), (conditionMet a); simpl in *; congruence.
Qed.

Lemma completed_result args log res :
  outcome (completed self None args log) = callbackResult res →
  res = map (withMessage (Msg.message (Msg.content (fromMessage args))))
          (Js.Object.values (result args)).
Proof. unfold completed. case_match; simpl; intros [= <-]; done. Qed.

Lemma completed_failed err args log res :
  outcome (completed self (Some err) args log) ≠ callbackResult res.
Proof. done. Qed.

Lemma recordedFor_cons args met flow flows entry entries :
  recordedFor args met (flow :: flows) (entry :: entries)
  = (entry.1 = Flow.id flow
     ∧ (if met && (discardRestAtTake args || Flow.isDefault flow)
        then entry.2 = discardOf flow
        else verdict args flow = inr entry.2)
     ∧ recordedFor args (met || isTake entry.2) flows entries).
Proof. done. Qed.

Lemma recordedFor_stable args args' met flows entries :
  fromMessage args' = fromMessage args → evaluationId args' = evaluationId args →
  discardRestAtTake args' = discardRestAtTake args →
  recordedFor args' met flows entries → recordedFor args met flows entries.
Proof.
  intros Hm He Hd. revert met entries.
  induction flows as [|f flows IH]; intros met [|e entries]; try done.
  rewrite !recordedFor_cons, Hd, (verdict_stable _ _ _ Hm He).
  intros (? & ? & ?). repeat split; [done..|]. by apply IH.
Qed.

Lemma recordedFor_discards args flows :
  discardRestAtTake args = true →
  recordedFor args true flows ((λ f, (Flow.id f, discardOf f)) <$> flows).
Proof.
  intros Hd. induction flows as [|f flows IH]; [done|].
  rewrite fmap_cons, recordedFor_cons. cbn [fst snd]. rewrite Hd. done.
Qed.

Lemma defaultLast_cons flow nextFlow rest :
  defaultLast (flow :: nextFlow :: rest) →
  Flow.isDefault flow = false ∧ defaultLast (nextFlow :: rest).
Proof. unfold defaultLast. simpl. by rewrite Forall_cons. Qed.

Lemma defaultLast_default flow rest :
  defaultLast (flow :: rest) → Flow.isDefault flow = true → rest = [].
Proof.
  destruct rest as [|g rest]; [done|]. intros [H _]%defaultLast_cons. congruence.
Qed.

(** A successful evaluation appends one record per flow, in the order of
    the flows. *)
Lemma evaluateFlow_records flow flows args calls res :
  NoDup (Flow.id <$> flow :: flows) → fresh (flow :: flows) args →
  defaultLast (flow :: flows) →
  conditionMet args && (discardRestAtTake args || Flow.isDefault flow) = false →
  let r := evaluateFlow self flow flows args calls in
  outcome r = callbackResult res →
  ∃ entries,
    result (OutboundEvaluator.args r) = result args ++ entries
    ∧ recordedFor args (conditionMet args) (flow :: flows) entries.
Proof.
  cbv zeta. revert res.
  pattern flow, flows, args, calls, (evaluateFlow self flow flows args calls).
  apply evaluateFlow_rounds; clear.
  - intros * Hv * Hnd Hfresh Hlast Hfirst Hout. by edestruct completed_failed.
  - intros * Hv * Hnd Hfresh Hlast Hfirst Hout. rewrite completed_args.
    exists [(Flow.id flow, content)]. split; [by eapply noted_fresh|].
    rewrite recordedFor_cons. cbn [fst snd]. by rewrite Hfirst.
  - intros * Hv Hdr * Hnd Hfresh Hlast Hfirst Hout. rewrite completed_args.
    exists ((Flow.id flow, content) :: ((λ f, (Flow.id f, discardOf f)) <$> nextFlow :: rest)).
    split.
    + rewrite discardRest_fresh; [| by eapply NoDup_cons_1_2 | by eapply fresh_tail].
      erewrite noted_fresh by done. by rewrite <- app_assoc.
    + rewrite recordedFor_cons. cbn [fst snd]. rewrite Hfirst. split; [done|]. split; [done|].
      rewrite noted_discardRestAtTake, noted_conditionMet in Hdr.
      apply andb_true_iff in Hdr as [Hd Hmet]. unfold isTake.
      rewrite Hmet. by apply recordedFor_discards.
  - intros * Hv Hdr Hnext * Hnd Hfresh Hlast Hfirst Hout. rewrite completed_args.
    apply andb_true_iff in Hnext as [Hmet Hnext].
    apply defaultLast_cons in Hlast as [_ Hlast].
    apply defaultLast_default in Hlast; [subst rest | done].
    exists [(Flow.id flow, content); (Flow.id nextFlow, discardOf nextFlow)]. split.
    + rewrite setResult_result, object_set_fresh.
      * erewrite noted_fresh by done. by rewrite <- app_assoc.
      * by own.
      * eapply fresh_tail; [done..| by left].
    + rewrite recordedFor_cons. cbn [fst snd]. rewrite Hfirst. split; [done|]. split; [done|].
      rewrite noted_conditionMet in Hmet. unfold isTake.
      rewrite recordedFor_cons. cbn [fst snd].
      rewrite Hmet, Hnext, orb_true_r. repeat split.
  - intros * Hv Hdr Hnext log' IH * Hnd Hfresh Hlast Hfirst Hout.
    edestruct IH as (entries & Hres & Hall);
      [ by eapply NoDup_cons_1_2 | by eapply fresh_tail
      | by apply defaultLast_cons in Hlast as [_ ?]
      | | done | ].
    { destruct (discardRestAtTake _), (conditionMet _), (Flow.isDefault nextFlow);
        done. }
    exists ((Flow.id flow, content) :: entries). split.
    + rewrite Hres. erewrite noted_fresh by done. by rewrite <- app_assoc.
    + rewrite recordedFor_cons. cbn [fst snd]. rewrite Hfirst. split; [done|]. split; [done|].
      rewrite noted_conditionMet in Hall.
      eapply recordedFor_stable; [| | |done].
      * apply noted_fromMessage.
      * apply noted_evaluationId.
      * apply noted_discardRestAtTake.
Qed.

Lemma executions_app l1 l2 : executions (l1 ++ l2) = executions l1 ++ executions l2.
Proof. unfold executions. apply omap_app. Qed.

Lemma completed_calls err args log :
  executions (OutboundEvaluator.calls (completed self err args log)) = executions log.
Proof.
  unfold completed. repeat case_match; simpl; by rewrite executions_app, app_nil_r.
Qed.

Lemma executions_condition flow :
  executions (conditionCalls flow) = if conditional flow then [Flow.id flow] else [].
Proof. unfold conditionCalls. by destruct (conditional flow). Qed.

Lemma executions_round log flow content :
  executions ((log ++ conditionCalls flow) ++ [publication content])
  = executions log ++ (if conditional flow then [Flow.id flow] else []).
Proof. by rewrite !executions_app, executions_condition, app_nil_r. Qed.

Lemma executions_round_elem log flow flows content i :
  i ∈ executions ((log ++ conditionCalls flow) ++ [publication content]) →
  i ∈ executions log
  ∨ ∃ f, f ∈ flow :: flows ∧ Flow.id f = i ∧ conditional f = true.
Proof.
  rewrite executions_round, elem_of_app. intros [?|Hi]; [by left|right].
  destruct (conditional flow) eqn:Hc; [|by apply elem_of_nil in Hi].
  apply list_elem_of_singleton in Hi. exists flow. split; [by left | done].
Qed.

(** Only conditions of evaluated, conditional flows are executed. *)
Lemma evaluateFlow_executions flow flows args calls i :
  i ∈ executions (OutboundEvaluator.calls (evaluateFlow self flow flows args calls)) →
  i ∈ executions calls
  ∨ ∃ f, f ∈ flow :: flows ∧ Flow.id f = i ∧ conditional f = true.
Proof.
  pattern flow, flows, args, calls, (evaluateFlow self flow flows args calls).
  apply evaluateFlow_rounds; clear -i; intros * Hv; intros;
    rewrite ?completed_calls in *; try by eapply executions_round_elem.
  - match goal with H : _ ∈ _ |- _ =>
      rewrite executions_app, executions_condition, elem_of_app in H;
      destruct H as [?|Hi]; [by left|right] end.
    destruct (conditional flow) eqn:Hc; [|by apply elem_of_nil in Hi].
    apply list_elem_of_singleton in Hi. exists flow. split; [by left | done].
  - match goal with IH : _ → _, Hi : _ ∈ executions (OutboundEvaluator.calls _) |- _ =>
      apply IH in Hi as [Hi|(f & ? & ? & ?)]; clear IH;
      [ subst log'; rewrite executions_app, app_nil_r in Hi;
        by eapply executions_round_elem
      | right; exists f; split; [by right | done] ]
    end.
Qed.

Lemma discardRest_get flows args f :
  NoDup (Flow.id <$> flows) → f ∈ flows → Flow.id f ≠ "__proto__" →
  Js.Object.get (Flow.id f) (result (discardRest flows args)) = Some (discardOf f).
Proof.
  revert args. induction flows as [|g flows IH]; intros args Hnd Hf Hown.
  - by apply elem_of_nil in Hf.
  - rewrite fmap_cons, NoDup_cons in Hnd. destruct Hnd as [Hg Hnd].
    apply elem_of_cons in Hf as [->|Hf]; simpl.
    + rewrite discardRest_other_keys by done. by apply object_get_set_eq.
    + by apply IH.
Qed.

Lemma noted_get flow args content :
  verdict args flow = inr content → Flow.id flow ≠ "__proto__" →
  Js.Object.get (Flow.id flow) (result (noted content args)) = Some content.
Proof.
  intros Hv Hown. rewrite noted_result, (verdict_id _ _ _ Hv).
  by apply object_get_set_eq.
Qed.

(** The record object never has an own property [__proto__]. *)
Lemma discardRest_proto flows args :
  Js.Object.get "__proto__" (result (discardRest flows args))
  = Js.Object.get "__proto__" (result args).
Proof.
  revert args. induction flows as [|f flows IH]; intros args; [done|].
  simpl. rewrite IH, setResult_result. apply object_get_set_proto.
Qed.

Lemma evaluateFlow_proto flow flows args calls :
  Js.Object.get "__proto__"
    (result (OutboundEvaluator.args (evaluateFlow self flow flows args calls)))
  = Js.Object.get "__proto__" (result args).
Proof.
  pattern flow, flows, args, calls, (evaluateFlow self flow flows args calls).
  apply evaluateFlow_rounds; clear; intros *; intros Hv; intros;
    rewrite ?completed_args, ?discardRest_proto, ?setResult_result,
      ?object_get_set_proto;
    try match goal with IH : _ = _ |- _ => rewrite IH end;
    rewrite ?noted_result, ?object_get_set_proto; done.
Qed.

Lemma noted_get_other flow args content k :
  verdict args flow = inr content → k ≠ Flow.id flow →
  Js.Object.get k (result (noted content args)) = Js.Object.get k (result args).
Proof.
  intros Hv Hk. rewrite noted_result, (verdict_id _ _ _ Hv). by apply object_get_set_ne.
Qed.

Lemma NoDup_head_tail flow flows f :
  NoDup (Flow.id <$> flow :: flows) → f ∈ flows → Flow.id f ≠ Flow.id flow.
Proof.
  rewrite fmap_cons, NoDup_cons. intros [Hflow _] Hf Heq. apply Hflow.
  rewrite <- Heq. by apply list_elem_of_fmap_2.
Qed.

Lemma completed_none_taken args log :
  takenCount args = 0 → length (outboundFlows self) ≠ 0 →
  outcome (completed self None args log) = callbackError (nonTakenError self (fromMessage args)).
Proof.
  intros Hcount Hlen. unfold completed. rewrite Hcount.
  by destruct (length (outboundFlows self)).
Qed.

Lemma completed_some_taken args log :
  takenCount args ≠ 0 → ∃ res, outcome (completed self None args log) = callbackResult res.
Proof.
  intros Hcount. unfold completed. destruct (takenCount args); [done|]. simpl. eauto.
Qed.

(** When every flow ends with a discard, the callback receives the
    no-flow-taken error. *)
Lemma evaluateFlow_none_taken flow flows args calls :
  NoDup (Flow.id <$> flow :: flows) → fresh (flow :: flows) args →
  conditionMet args = false → takenCount args = 0 → length (outboundFlows self) ≠ 0 →
  let r := evaluateFlow self flow flows args calls in
  (∀ f, f ∈ flow :: flows →
     ∃ record, Js.Object.get (Flow.id f) (result (OutboundEvaluator.args r)) = Some record
               ∧ FlowAction.action record = Action.discard) →
  outcome r = callbackError (nonTakenError self (fromMessage args)).
Proof.
  cbv zeta.
  pattern flow, flows, args, calls, (evaluateFlow self flow flows args calls).
  apply evaluateFlow_rounds; clear; intros * Hv; intros.
  all: repeat match goal with
       | H : context [OutboundEvaluator.args (completed _ _ _ _)] |- _ =>
           rewrite completed_args in H
       end.
  all: match goal with
       | Hall : ∀ f, f ∈ ?flow :: _ → _ |- _ =>
           pose proof (Hall flow ltac:(by left)) as (record & Hget & Hdiscard)
       end.
  - match goal with Hf : fresh _ _ |- _ =>
      destruct (Hf flow ltac:(by left)) as [_ Hnone] end.
    congruence.
  - rewrite (noted_get _ _ _ Hv) in Hget by own. simplify_eq.
    rewrite <- (noted_fromMessage record a). apply completed_none_taken; [|done].
    rewrite noted_takenCount. case_bool_decide; [congruence | lia].
  - rewrite discardRest_other_keys in Hget; [rewrite (noted_get _ _ _ Hv) in Hget by own|].
    + simplify_eq.
      match goal with Hdr : _ && conditionMet (noted _ _) = true |- _ =>
        rewrite noted_conditionMet in Hdr; apply andb_true_iff in Hdr as [_ Hdr] end.
      case_bool_decide; [congruence|].
      match goal with Hm : conditionMet a = false |- _ => rewrite Hm in * end. done.
    + intros (f & Heq & Hf)%list_elem_of_fmap_1.
      by eapply NoDup_head_tail.
  - rewrite setResult_result, object_get_set_ne in Hget; [rewrite (noted_get _ _ _ Hv) in Hget by own|].
    + simplify_eq.
      match goal with Hdr : conditionMet (noted _ _) && _ = true |- _ =>
        rewrite noted_conditionMet in Hdr; apply andb_true_iff in Hdr as [Hdr _] end.
      case_bool_decide; [congruence|].
      match goal with Hm : conditionMet a = false |- _ => rewrite Hm in * end. done.
    + intros Heq. eapply NoDup_head_tail; [done| |done]. by left.
  - rewrite evaluateFlow_other_keys in Hget; [rewrite (noted_get _ _ _ Hv) in Hget by own|].
    + simplify_eq. rewrite <- (noted_fromMessage record a).
      match goal with IH : _ → _ |- _ => apply IH end.
      * by eapply NoDup_cons_1_2.
      * by eapply fresh_tail.
      * rewrite noted_conditionMet. case_bool_decide; [congruence|].
        by rewrite orb_false_r.
      * rewrite noted_takenCount. case_bool_decide; [congruence | lia].
      * done.
      * intros f Hf. match goal with Hall : ∀ f, _ → _ |- _ => apply Hall end. by right.
    + intros (f & Heq & Hf)%list_elem_of_fmap_1.
      by eapply NoDup_head_tail.
Qed.

Lemma existsb_takenIn_ext (o o' : Js.Object.t FlowAction.t) flows :
  (∀ f, f ∈ flows → Js.Object.get (Flow.id f) o' = Js.Object.get (Flow.id f) o) →
  existsb (takenIn o') flows = existsb (takenIn o) flows.
Proof.
  induction flows as [|f flows IH]; intros Hget; [done|]. simpl.
  rewrite IH by (intros; apply Hget; by right).
  unfold takenIn. rewrite Hget by (by left). done.
Qed.

Lemma verdict_default args d :
  Flow.isDefault d = true →
  verdict args d = inr (formatFlowAction d (FlowAction.just Action.take)).
Proof. unfold verdict. by intros ->. Qed.

Lemma NoDup_earlier earlier flow flows f :
  NoDup (Flow.id <$> earlier ++ flow :: flows) → f ∈ earlier →
  Flow.id f ∉ Flow.id <$> flow :: flows.
Proof.
  rewrite fmap_app, NoDup_app. intros (_ & Hdisj & _) Hf.
  apply Hdisj. by apply list_elem_of_fmap_2.
Qed.

Lemma existsb_taken_round earlier flow later args content
    (o' : Js.Object.t FlowAction.t) tail :
  NoDup (Flow.id <$> earlier ++ flow :: later) → verdict args flow = inr content →
  Flow.id flow ≠ "__proto__" →
  conditionMet args = existsb (takenIn (result args)) earlier →
  (∀ k, k ∉ Flow.id <$> later →
        Js.Object.get k o' = Js.Object.get k (result (noted content args))) →
  existsb (takenIn o') (earlier ++ flow :: tail)
  = conditionMet (noted content args) || existsb (takenIn o') tail.
Proof.
  intros Hnd Hv Hown Hmet Hsame.
  assert (NoDup (Flow.id <$> flow :: later)) as Hnd'.
  { rewrite fmap_app in Hnd. by apply NoDup_app in Hnd as (_ & _ & ?). }
  rewrite existsb_app. cbn [existsb]. rewrite orb_assoc. f_equal.
  rewrite noted_conditionMet, Hmet. f_equal.
  - apply existsb_takenIn_ext. intros f Hf.
    pose proof (NoDup_earlier _ _ _ _ Hnd Hf) as Hfn.
    rewrite fmap_cons, not_elem_of_cons in Hfn. destruct Hfn.
    rewrite Hsame by done. by apply (noted_get_other flow).
  - unfold takenIn. rewrite Hsame, (noted_get _ _ _ Hv); [done|done|].
    intros (f & Heq & Hf)%list_elem_of_fmap_1. by eapply NoDup_head_tail.
Qed.

(** The record of the default flow, the last one: a take unless a flow
    before it was taken. *)
Lemma evaluateFlow_default flow flows args calls d res :
  ∀ earlier,
  NoDup (Flow.id <$> earlier ++ flow :: flows) → fresh (flow :: flows) args →
  defaultLast (flow :: flows) → last (flow :: flows) = Some d →
  Flow.isDefault d = true →
  (Flow.isDefault flow = true → conditionMet args = false) →
  conditionMet args = existsb (takenIn (result args)) earlier →
  let r := evaluateFlow self flow flows args calls in
  outcome r = callbackResult res →
  Js.Object.get (Flow.id d) (result (OutboundEvaluator.args r))
  = Some (formatFlowAction d
            (FlowAction.just
               (if existsb (takenIn (result (OutboundEvaluator.args r)))
                     (earlier ++ removelast (flow :: flows))
                then Action.discard else Action.take))).
Proof.
  cbv zeta. revert d res.
  pattern flow, flows, args, calls, (evaluateFlow self flow flows args calls).
  apply evaluateFlow_rounds; clear.
  - intros * Hv * Hnd Hfresh Hlast Hd Hdef Hfirst Hmet Hout.
    by edestruct completed_failed.
  - intros * Hv * Hnd Hfresh Hlast Hd Hdef Hfirst Hmet Hout.
    rewrite completed_args.
    cbn [last] in Hd. simplify_eq. rewrite (verdict_default _ _ Hdef) in Hv. simplify_eq.
    rewrite noted_get by (by apply verdict_default || by own).
    cbn [removelast]. rewrite app_nil_r.
    rewrite (existsb_takenIn_ext (result a)).
    + by rewrite <- Hmet, Hfirst.
    + intros f Hf. apply (noted_get_other d); [by apply verdict_default|].
      intros Heq. eapply NoDup_earlier; [done..|]. rewrite Heq. by left.
  - intros * Hv Hdr * Hnd Hfresh Hlast Hd Hdef Hfirst Hmet Hout.
    rewrite completed_args.
    assert (NoDup (Flow.id <$> flow :: nextFlow :: rest)) as Hnd'.
    { rewrite fmap_app in Hnd. by apply NoDup_app in Hnd as (_ & _ & ?). }
    assert (d ∈ nextFlow :: rest) as Hin.
    { rewrite last_cons_cons in Hd. by apply last_Some_elem_of. }
    rewrite discardRest_get; [| by eapply NoDup_cons_1_2 | done | by own].
    change (removelast (flow :: nextFlow :: rest))
      with (flow :: removelast (nextFlow :: rest)).
    erewrite existsb_taken_round; [| done | done | by own | done |].
    + apply andb_true_iff in Hdr as [_ ->]. done.
    + intros k Hk. by apply discardRest_other_keys.
  - intros * Hv Hdr Hnext * Hnd Hfresh Hlast Hd Hdef Hfirst Hmet Hout.
    rewrite completed_args.
    apply andb_true_iff in Hnext as [Hnoted Hnext].
    apply defaultLast_cons in Hlast as [_ Hlast].
    apply defaultLast_default in Hlast; [subst rest | done].
    cbn [last] in Hd. simplify_eq.
    rewrite setResult_result, object_get_set_eq by own.
    change (removelast [flow; d]) with [flow].
    erewrite existsb_taken_round; [| done | done | by own | done |].
    + by rewrite Hnoted.
    + intros k Hk. apply object_get_set_ne.
      intros <-. apply Hk. by left.
  - intros * Hv Hdr Hnext log' IH * Hnd Hfresh Hlast Hd Hdef Hfirst Hmet Hout.
    assert (NoDup (Flow.id <$> flow :: nextFlow :: rest)) as Hnd'.
    { rewrite fmap_app in Hnd. by apply NoDup_app in Hnd as (_ & _ & ?). }
    change (removelast (flow :: nextFlow :: rest))
      with (flow :: removelast (nextFlow :: rest)).
    rewrite (IH d res (earlier ++ [flow])).
    + by rewrite <- app_assoc.
    + by rewrite <- app_assoc.
    + by eapply fresh_tail.
    + by apply defaultLast_cons in Hlast as [_ ?].
    + by rewrite last_cons_cons in Hd.
    + done.
    + intros Hd'. rewrite Hd' in Hnext. by apply andb_false_iff in Hnext as [?|?].
    + erewrite existsb_taken_round; [| done | done | by own | done | done].
      by rewrite orb_false_r.
    + done.
Qed.

Lemma noted_counted content a :
  (conditionMet a = true → takenCount a ≠ 0) →
  conditionMet (noted content a) = true → takenCount (noted content a) ≠ 0.
Proof.
  rewrite noted_conditionMet, noted_takenCount. intros Hcounted.
  case_bool_decide; [lia|]. rewrite orb_false_r. intros Hmet%Hcounted. lia.
Qed.

(** An evaluation that reaches the default flow, the last one, ends with a
    result. *)
Lemma evaluateFlow_default_reached flow flows args calls d record :
  NoDup (Flow.id <$> flow :: flows) → fresh (flow :: flows) args →
  defaultLast (flow :: flows) → last (flow :: flows) = Some d →
  Flow.isDefault d = true →
  (conditionMet args = true → takenCount args ≠ 0) →
  let r := evaluateFlow self flow flows args calls in
  Js.Object.get (Flow.id d) (result (OutboundEvaluator.args r)) = Some record →
  ∃ res, outcome r = callbackResult res.
Proof.
  cbv zeta. revert d record.
  pattern flow, flows, args, calls, (evaluateFlow self flow flows args calls).
  apply evaluateFlow_rounds; clear.
  - intros flow flows a log err Hv d record Hnd Hfresh Hlast Hd Hdef Hcounted Hget.
    rewrite completed_args in Hget.
    destruct (Hfresh d) as [_ Hnone]; [by apply last_Some_elem_of|]. congruence.
  - intros flow a log content Hv d record Hnd Hfresh Hlast Hd Hdef Hcounted Hget.
    apply completed_some_taken.
    cbn [last] in Hd. simplify_eq. rewrite (verdict_default _ _ Hdef) in Hv. simplify_eq.
    rewrite noted_takenCount. simpl. lia.
  - intros flow nextFlow rest a log content Hv Hdr d record Hnd Hfresh Hlast Hd Hdef
      Hcounted Hget.
    apply completed_some_taken.
    destruct (discardRest_static (nextFlow :: rest) (noted content a))
      as (_ & _ & _ & _ & ->).
    apply noted_counted; [done|]. by apply andb_true_iff in Hdr as [_ ?].
  - intros flow nextFlow rest a log content Hv Hdr Hnext d record Hnd Hfresh Hlast Hd Hdef
      Hcounted Hget.
    apply completed_some_taken.
    change (takenCount (setResult _ _ ?x)) with (takenCount x).
    apply noted_counted; [done|]. by apply andb_true_iff in Hnext as [? _].
  - intros flow nextFlow rest a log content Hv Hdr Hnext log' IH d record Hnd Hfresh Hlast
      Hd Hdef Hcounted Hget.
    apply (IH d record); [| by eapply fresh_tail | | | done | by apply noted_counted | done].
    + rewrite fmap_cons in Hnd. by apply NoDup_cons in Hnd as [_ ?].
    + by apply defaultLast_cons in Hlast as [_ ?].
    + by rewrite last_cons_cons in Hd.
Qed.
Lemma executions_round_other log flow flows content f :
  NoDup (Flow.id <$> flow :: flows) → f ∈ flows →
  Flow.id f ∈ executions ((log ++ conditionCalls flow) ++ [publication content]) →
  Flow.id f ∈ executions log.
Proof.
  intros Hnd Hf. rewrite executions_round, elem_of_app. intros [?|Hi]; [done|].
  destruct (conditional flow); [|by apply elem_of_nil in Hi].
  apply list_elem_of_singleton in Hi. by edestruct NoDup_head_tail.
Qed.

(** With [discardRestAtTake], the flows after a taken flow are marked
    discard without their conditions being executed, and the callback
    receives a result. *)
Lemma evaluateFlow_rest_discarded flow flows args calls x post record :
  ∀ pre,
  NoDup (Flow.id <$> flow :: flows) → fresh (flow :: flows) args →
  discardRestAtTake args = true → conditionMet args = false →
  flow :: flows = pre ++ x :: post →
  let r := evaluateFlow self flow flows args calls in
  Js.Object.get (Flow.id x) (result (OutboundEvaluator.args r)) = Some record →
  FlowAction.action record = Action.take →
  (∃ res, outcome r = callbackResult res)
  ∧ ∀ f, f ∈ post →
      Js.Object.get (Flow.id f) (result (OutboundEvaluator.args r)) = Some (discardOf f)
      ∧ (Flow.id f ∈ executions (OutboundEvaluator.calls r) → Flow.id f ∈ executions calls).
Proof.
  cbv zeta. revert x post record.
  pattern flow, flows, args, calls, (evaluateFlow self flow flows args calls).
  apply evaluateFlow_rounds; clear.
  - intros * Hv * Hnd Hfresh Hdr Hmet Hsplit Hget Htake.
    rewrite completed_args in Hget.
    destruct (Hfresh x) as [_ Hnone]; [|congruence].
    rewrite Hsplit. apply elem_of_app. right. by left.
  - intros * Hv * Hnd Hfresh Hdr Hmet Hsplit Hget Htake.
    rewrite completed_args in Hget.
    destruct pre as [|? [|? ?]]; cbn [app] in Hsplit; simplify_eq.
    rewrite (noted_get _ _ _ Hv) in Hget by own. simplify_eq. split.
    + apply completed_some_taken. rewrite noted_takenCount.
      rewrite bool_decide_eq_true_2 by done. lia.
    + intros f Hf. by apply elem_of_nil in Hf.
  - intros * Hv Hrest * Hnd Hfresh Hdr Hmet Hsplit Hget Htake.
    rewrite completed_args in Hget |- *. rewrite completed_calls.
    rewrite noted_conditionMet, Hmet in Hrest.
    apply andb_true_iff in Hrest as [_ Hrest]. apply bool_decide_eq_true_1 in Hrest.
    destruct pre as [|? pre]; cbn [app] in Hsplit; injection Hsplit as ? Hsplit; subst.
    + split.
      * apply completed_some_taken.
        destruct (discardRest_static (nextFlow :: rest) (noted content a)) as (_ & _ & _ & _ & ->).
        rewrite noted_takenCount, bool_decide_eq_true_2 by done. lia.
      * intros f Hf. split.
        -- apply discardRest_get; [by eapply NoDup_cons_1_2 | done | by own].
        -- by apply executions_round_other with (flows := nextFlow :: rest).
    + rewrite discardRest_get in Hget.
      * by simplify_eq.
      * by eapply NoDup_cons_1_2.
      * rewrite Hsplit. apply elem_of_app. right. by left.
      * apply Hfresh. right. rewrite Hsplit. apply elem_of_app. right. by left.
  - intros * Hv Hrest Hnext * Hnd Hfresh Hdr Hmet Hsplit Hget Htake.
    rewrite noted_discardRestAtTake, Hdr in Hrest.
    apply andb_true_iff in Hnext as [Hnext _]. by rewrite Hnext in Hrest.
  - intros * Hv Hrest Hnext log' IH * Hnd Hfresh Hdr Hmet Hsplit Hget Htake.
    rewrite noted_discardRestAtTake, Hdr in Hrest. cbn [andb] in Hrest.
    destruct pre as [|? pre]; cbn [app] in Hsplit; injection Hsplit as ? Hsplit; subst.
    + rewrite evaluateFlow_other_keys in Hget; [rewrite (noted_get _ _ _ Hv) in Hget by own|].
      * simplify_eq. rewrite noted_conditionMet, Hmet in Hrest.
        by rewrite bool_decide_eq_true_2 in Hrest.
      * intros (f & Heq & Hf)%list_elem_of_fmap_1. by eapply NoDup_head_tail.
    + edestruct (IH x post record pre) as [Hres Hpost]; try done.
      * by eapply NoDup_cons_1_2.
      * by eapply fresh_tail.
      * by rewrite noted_discardRestAtTake.
      * split; [done|]. intros f Hf. destruct (Hpost f Hf) as [Hf1 Hf2].
        split; [done|]. intros Hex. apply Hf2 in Hex. subst log'.
        rewrite executions_app, app_nil_r in Hex.
        apply executions_round_other with (flows := nextFlow :: rest) in Hex;
          [done | done |].
        rewrite Hsplit. apply elem_of_app. right. by right.
Qed.
End EvaluationRounds.

(** ** The working copy of the outbound flows *)

Section Constructor.
Import OutboundEvaluator.

Lemma findIndex_none {A} (p : A → bool) l :
  Forall (λ x, p x = false) l → Js.findIndex p l = (-1)%Z.
Proof.
  induction 1 as [|x l Hx _ IH]; [done|]. simpl. by rewrite Hx, IH.
Qed.

Lemma findIndex_nonneg {A} (p : A → bool) l : (-1 ≤ Js.findIndex p l)%Z.
Proof.
  induction l as [|x l IH]; simpl; [lia|].
  destruct (p x); [lia|]. destruct (Z.eqb_spec (Js.findIndex p l) (-1)); lia.
Qed.

Lemma findIndex_first {A} (p : A → bool) pre x post :
  Forall (λ y, p y = false) pre → p x = true →
  Js.findIndex p (pre ++ x :: post) = Z.of_nat (length pre).
Proof.
  intros Hpre Hx. induction Hpre as [|y pre Hy _ IH]; simpl.
  - by rewrite Hx.
  - rewrite Hy, IH. destruct (Z.eqb_spec (Z.of_nat (length pre)) (-1)); lia.
Qed.

Lemma splice1_middle {A} (pre : list A) x post :
  Js.splice1 (Z.of_nat (length pre)) (pre ++ x :: post) = ([x], pre ++ post).
Proof.
  unfold Js.splice1. cbv zeta. rewrite Nat2Z.id.
  rewrite drop_app_length, take_app_length.
  f_equal. f_equal.
  replace (S (length pre)) with (length pre + 1) by lia.
  rewrite <- drop_drop, drop_app_length. done.
Qed.

Lemma first_default flows :
  Forall (λ f, Flow.isDefault f = false) flows
  ∨ ∃ pre d post, flows = pre ++ d :: post
                  ∧ Forall (λ f, Flow.isDefault f = false) pre
                  ∧ Flow.isDefault d = true.
Proof.
  induction flows as [|f flows IH]; [by left|].
  destruct (Flow.isDefault f) eqn:Hf.
  - right. by exists [], f, flows.
  - destruct IH as [IH|(pre & d & post & -> & Hpre & Hd)].
    + left. by constructor.
    + right. exists (f :: pre), d, post. split; [done|]. split; [by constructor | done].
Qed.

Lemma new_outboundFlows_plain activityId flows :
  Forall (λ f, Flow.isDefault f = false) flows →
  outboundFlows (new activityId flows) = flows.
Proof. intros H. unfold new. cbn [outboundFlows]. by rewrite (findIndex_none _ _ H). Qed.

Lemma new_outboundFlows_default activityId pre d post :
  Forall (λ f, Flow.isDefault f = false) pre → Flow.isDefault d = true →
  outboundFlows (new activityId (pre ++ d :: post)) = pre ++ post ++ [d].
Proof.
  intros Hpre Hd. unfold new. cbn [outboundFlows].
  rewrite (findIndex_first _ _ _ _ Hpre Hd), splice1_middle.
  destruct (Z.gtb_spec (Z.of_nat (length pre)) (-1)); [|lia].
  by rewrite <- app_assoc.
Qed.

(** The working copy holds the declared flows. *)
Lemma new_outboundFlows_perm activityId flows :
  outboundFlows (new activityId flows) ≡ₚ flows.
Proof.
  destruct (first_default flows) as [H|(pre & d & post & -> & Hpre & Hd)].
  - by rewrite new_outboundFlows_plain.
  - rewrite new_outboundFlows_default by done.
    apply Permutation_app_head. by rewrite Permutation_app_comm.
Qed.

Lemma filter_none (flows : list Flow.t) :
  Forall (λ f, Flow.isDefault f = false) flows →
  filter (λ f, Flow.isDefault f = false) flows = flows
  ∧ filter (λ f, Flow.isDefault f = true) flows = [].
Proof.
  induction 1 as [|f flows Hf _ [IH1 IH2]]; [done|].
  rewrite filter_cons_True, filter_cons_False by congruence.
  by rewrite IH1, IH2.
Qed.

(** With at most one default flow, the working copy is the declaration
    order with the default flow moved to the end, and only its last flow
    may be a default flow. *)
Lemma new_outboundFlows_order activityId flows :
  atMostOneDefault flows →
  outboundFlows (new activityId flows) = defaultMovedLast flows
  ∧ defaultLast (defaultMovedLast flows).
Proof.
  unfold atMostOneDefault, defaultMovedLast, defaultLast. intros Hone.
  destruct (first_default flows) as [H|(pre & d & post & -> & Hpre & Hd)].
  - rewrite new_outboundFlows_plain by done.
    destruct (filter_none _ H) as [-> ->]. rewrite app_nil_r. split; [done|].
    clear Hone. induction H as [|f [|g flows] Hf Hflows IH]; simpl; auto.
  - rewrite new_outboundFlows_default by done.
    assert (Forall (λ f, Flow.isDefault f = false) post) as Hpost.
    { apply Forall_forall. intros f Hf. destruct (Flow.isDefault f) eqn:Hdf; [|done].
      rewrite filter_app, (filter_cons_True (λ f, Flow.isDefault f = true)), length_app
        in Hone by done.
      assert (f ∈ filter (λ f, Flow.isDefault f = true) post) as Hin
        by by apply list_elem_of_filter.
      destruct (filter _ post); [by apply elem_of_nil in Hin | simpl in Hone; lia]. }
    destruct (filter_none _ Hpre) as [Hp1 Hp2].
    destruct (filter_none _ Hpost) as [Hq1 Hq2].
    rewrite !filter_app.
    rewrite (filter_cons_False (λ f, Flow.isDefault f = false)) by congruence.
    rewrite (filter_cons_True (λ f, Flow.isDefault f = true)) by done.
    rewrite Hp1, Hp2, Hq1, Hq2. simpl.
    rewrite app_assoc. split; [done|].
    rewrite removelast_last. by apply Forall_app.
Qed.
End Constructor.

(** ** Whole evaluations *)

Section Evaluation.
Import OutboundEvaluator.
Local Arguments noted : simpl never.
Local Arguments completed : simpl never.
Local Arguments evaluateFlow : simpl never.

Lemma evaluate_start self fromMessage discardRestAtTake :
  evaluate self fromMessage discardRestAtTake =
    match outboundFlows self with
    | [] => completed self None (initialArgs fromMessage discardRestAtTake) []
    | flow :: flows =>
        evaluateFlow self flow flows (initialArgs fromMessage discardRestAtTake)
          [subscribeTmp "execution" "evaluate.flow.#"
             (consumerTag (initialArgs fromMessage discardRestAtTake))]
    end.
Proof. done. Qed.

Lemma fresh_initial flows fromMessage discardRestAtTake :
  "__proto__" ∉ Flow.id <$> flows →
  fresh flows (initialArgs fromMessage discardRestAtTake).
Proof.
  intros Hown f Hf. split; [|done].
  intros Heq. apply Hown. rewrite <- Heq. by apply list_elem_of_fmap_2.
Qed.

Lemma evaluate_proto self fromMessage discardRestAtTake :
  Js.Object.get "__proto__" (result (args (evaluate self fromMessage discardRestAtTake)))
  = None.
Proof.
  rewrite evaluate_start. destruct (outboundFlows self) as [|flow flows].
  - by rewrite completed_args.
  - by rewrite evaluateFlow_proto.
Qed.

Lemma outboundFlows_own activityId flows :
  "__proto__" ∉ Flow.id <$> flows →
  "__proto__" ∉ Flow.id <$> outboundFlows (new activityId flows).
Proof. intros H. by rewrite new_outboundFlows_perm. Qed.

Lemma evaluateFlow_fromMessage self flow flows args calls :
  fromMessage (OutboundEvaluator.args (evaluateFlow self flow flows args calls))
  = fromMessage args.
Proof.
  pattern flow, flows, args, calls, (evaluateFlow self flow flows args calls).
  apply evaluateFlow_rounds; clear; intros; rewrite ?completed_args.
  - done.
  - apply noted_fromMessage.
  - destruct (discardRest_static (nextFlow :: rest) (noted content a)) as (-> & _).
    apply noted_fromMessage.
  - apply noted_fromMessage.
  - etrans; [done|]. apply noted_fromMessage.
Qed.

(** What a successful evaluation delivers: the values of the result
    object, each with the message payload. *)
Lemma evaluateFlow_result self flow flows args calls res :
  outcome (evaluateFlow self flow flows args calls) = callbackResult res →
  res = map (withMessage (Msg.message (Msg.content (fromMessage args))))
          (Js.Object.values
             (result (OutboundEvaluator.args (evaluateFlow self flow flows args calls)))).
Proof.
  revert res.
  pattern flow, flows, args, calls, (evaluateFlow self flow flows args calls).
  apply evaluateFlow_rounds; clear.
  - intros flow flows a log err Hv res Hout. by apply completed_failed in Hout.
  - intros flow a log content Hv res Hout. apply completed_result in Hout.
    by rewrite completed_args, Hout, noted_fromMessage.
  - intros flow nextFlow rest a log content Hv Hrest res Hout.
    apply completed_result in Hout. rewrite completed_args, Hout.
    destruct (discardRest_static (nextFlow :: rest) (noted content a)) as (-> & _).
    by rewrite noted_fromMessage.
  - intros flow nextFlow rest a log content Hv Hrest Hnext res Hout.
    apply completed_result in Hout. rewrite completed_args, Hout.
    change (fromMessage (setResult _ _ (noted content a)))
      with (fromMessage (noted content a)).
    by rewrite noted_fromMessage.
  - intros flow nextFlow rest a log content Hv Hrest Hnext log' IH res Hout.
    rewrite <- (noted_fromMessage content a). by apply IH.
Qed.

Lemma outboundFlows_NoDup activityId flows :
  NoDup (Flow.id <$> flows) → NoDup (Flow.id <$> outboundFlows (new activityId flows)).
Proof. intros H. by rewrite new_outboundFlows_perm. Qed.

Lemma outboundFlows_elem activityId flows f :
  f ∈ outboundFlows (new activityId flows) ↔ f ∈ flows.
Proof. by rewrite new_outboundFlows_perm. Qed.

Lemma outboundFlows_nonempty activityId flows :
  flows ≠ [] → length (outboundFlows (new activityId flows)) ≠ 0.
Proof.
  intros H. rewrite new_outboundFlows_perm. by destruct flows.
Qed.

Lemma string_app_assoc (s1 s2 s3 : string) : (s1 +:+ s2) +:+ s3 = s1 +:+ s2 +:+ s3.
Proof.
  induction s1 as [|c s1 IH]; [done|].
  change (String c ((s1 +:+ s2) +:+ s3) = String c (s1 +:+ s2 +:+ s3)).
  by f_equal.
Qed.
End Evaluation.

(** ** Claims about the outbound evaluator *)

Section EvaluatorClaims.
Import OutboundEvaluator.
Local Arguments noted : simpl never.
Local Arguments completed : simpl never.
Local Arguments evaluateFlow : simpl never.

(** C2, as amended. In an evaluation of at least one outbound flow in which
    every flow ends up with an action and none of them is [take] (so that
    no condition failed), the completion callback receives an error: its
    message is the activity id in angle brackets followed by
    [no conditional flow taken], and its source is the message the
    evaluation started from. The callback receives no evaluation result. *)
Theorem no_conditional_flow_taken activityId flows fromMessage discardRestAtTake :
  flows ≠ [] →
  NoDup (Flow.id <$> flows) →
  let r := evaluate (new activityId flows) fromMessage discardRestAtTake in
  (∀ f, f ∈ flows →
     ∃ record, Js.Object.get (Flow.id f) (result (args r)) = Some record
               ∧ FlowAction.action record = Action.discard) →
  ∃ err,
    outcome r = callbackError err
    ∧ Msg.description err = "<" +:+ activityId +:+ "> no conditional flow taken"
    ∧ (∃ prefix, Msg.description err = prefix +:+ "no conditional flow taken")
    ∧ Msg.source err = Some fromMessage
    ∧ ∀ evaluationResult, outcome r ≠ callbackResult evaluationResult.
Proof.
  intros Hflows Hnd r Hnone. subst r.
  pose proof (outboundFlows_nonempty activityId _ Hflows) as Hlen.
  pose proof (outboundFlows_NoDup activityId _ Hnd) as Hnd'.
  assert ("__proto__" ∉ Flow.id <$> flows) as Hown.
  { intros (f & Heq & Hf)%list_elem_of_fmap_1.
    destruct (Hnone f Hf) as (record & Hget & _).
    rewrite <- Heq in Hget. by rewrite evaluate_proto in Hget. }
  apply (outboundFlows_own activityId) in Hown.
  rewrite evaluate_start in Hnone |- *.
  destruct (outboundFlows (new activityId flows)) as [|flow rest] eqn:Hout; [done|].
  rewrite <- Hout in Hlen.
  rewrite (evaluateFlow_none_taken (new activityId flows)); try done.
  - eexists. split; [done|]. split; [done|]. split; [|split; [done|done]].
    exists ("<" +:+ activityId +:+ "> "). by rewrite !string_app_assoc.
  - by apply fresh_initial.
  - intros f Hf. apply Hnone. apply (outboundFlows_elem activityId). by rewrite Hout.
Qed.

Lemma object_get_values {V} k (v : V) (o : Js.Object.t V) :
  Js.Object.get k o = Some v → v ∈ Js.Object.values o.
Proof.
  intros Hget. rewrite object_values_perm.
  induction o as [|[k' w] o IH]; [done|]. simpl in Hget.
  rewrite fmap_cons. destruct (String.eqb_spec k' k).
  - simplify_eq. by left.
  - right. by apply IH.
Qed.

Lemma takes_perm l1 l2 : l1 ≡ₚ l2 → takes l1 = takes l2.
Proof. unfold takes. by intros ->. Qed.

Lemma withMessage_action m r :
  FlowAction.action (withMessage m r) = FlowAction.action r.
Proof. unfold withMessage. by repeat case_match. Qed.

Lemma takes_withMessage m l : takes (map (withMessage m) l) = takes l.
Proof.
  unfold takes. induction l as [|r l IH]; [done|]. simpl.
  destruct (decide (FlowAction.action r = Action.take)) as [Hr|Hr].
  - rewrite !filter_cons_True by (by rewrite ?withMessage_action). simpl. by rewrite IH.
  - rewrite !filter_cons_False by (by rewrite ?withMessage_action). done.
Qed.

(** C5. When one outbound flow is the default flow (flow ids being distinct
    property names), it is the last flow of the evaluator's working copy and
    its condition is never executed. In a finished evaluation it has a
    record, marked [isDefault], without condition result or evaluation id,
    whose action is [take] when no flow before it was taken and [discard]
    when some flow before it was taken, and the delivered result holds that
    record. An evaluation that reaches the default flow, giving it a record,
    finishes with a result. *)
Theorem default_flow_is_evaluated_last activityId pre d post fromMessage
    discardRestAtTake evaluationResult :
  Flow.isDefault d = true →
  Forall (λ f, Flow.isDefault f = false) (pre ++ post) →
  NoDup (Flow.id <$> pre ++ d :: post) →
  "__proto__" ∉ Flow.id <$> pre ++ d :: post →
  let self := new activityId (pre ++ d :: post) in
  let r := evaluate self fromMessage discardRestAtTake in
  outboundFlows self = (pre ++ post) ++ [d]
  ∧ (Flow.id d ∉ executions (calls r))
  ∧ (outcome r = callbackResult evaluationResult →
       ∃ record,
         Js.Object.get (Flow.id d) (result (args r)) = Some record
         ∧ FlowAction.id record = Flow.id d
         ∧ FlowAction.isDefault record = true
         ∧ FlowAction.action record
           = (if existsb (takenIn (result (args r))) (pre ++ post)
              then Action.discard else Action.take)
         ∧ FlowAction.result record = None
         ∧ FlowAction.evaluationId record = None
         ∧ withMessage (Msg.message (Msg.content fromMessage)) record ∈ evaluationResult)
  ∧ (is_Some (Js.Object.get (Flow.id d) (result (args r))) →
       ∃ finished, outcome r = callbackResult finished).
Proof.
  intros Hd Hothers Hnd Hown self r.
  apply Forall_app in Hothers as [Hpre Hpost].
  assert (outboundFlows self = (pre ++ post) ++ [d]) as Hflows.
  { subst self. rewrite new_outboundFlows_default by done. by rewrite app_assoc. }
  assert (NoDup (Flow.id <$> (pre ++ post) ++ [d])) as Hnd'.
  { rewrite <- Hflows. by apply outboundFlows_NoDup. }
  assert ("__proto__" ∉ Flow.id <$> (pre ++ post) ++ [d]) as Hown'.
  { rewrite <- Hflows. by apply outboundFlows_own. }
  split; [done|].
  subst r. rewrite evaluate_start, Hflows.
  destruct ((pre ++ post) ++ [d]) as [|flow rest] eqn:Hsplit.
  { by destruct (pre ++ post). }
  assert (defaultLast (flow :: rest)) as Hlast.
  { rewrite <- Hsplit. unfold defaultLast. rewrite removelast_last.
    apply Forall_app. by split. }
  assert (last (flow :: rest) = Some d) as Hd'.
  { rewrite <- Hsplit. apply last_snoc. }
  assert (removelast (flow :: rest) = pre ++ post) as Hremove.
  { rewrite <- Hsplit. apply removelast_last. }
  pose proof (fresh_initial _ fromMessage discardRestAtTake Hown') as Hfresh.
  split.
  - intros [Hin|(f & Hf & Hid & Hcond)]%evaluateFlow_executions.
    + by apply elem_of_nil in Hin.
    + assert (f = d) as ->.
      { rewrite <- Hsplit in Hf. apply elem_of_app in Hf as [Hf|Hf].
        - exfalso. rewrite <- Hsplit, fmap_app in Hnd'.
          apply NoDup_app in Hnd' as (_ & Hdisj & _).
          apply (Hdisj (Flow.id f)); [by apply list_elem_of_fmap_2|].
          rewrite Hid. by left.
        - by apply list_elem_of_singleton in Hf. }
      unfold conditional in Hcond. by rewrite Hd in Hcond.
  - split.
    + intros Hout.
      pose proof (evaluateFlow_default self flow rest _ _ d evaluationResult []
                    Hnd' Hfresh Hlast Hd' Hd (λ _, eq_refl) eq_refl Hout)
        as Hget.
      rewrite Hremove in Hget. eexists. split; [exact Hget|].
      cbn [formatFlowAction FlowAction.id FlowAction.isDefault FlowAction.action
           FlowAction.result FlowAction.evaluationId FlowAction.just].
      rewrite Hd. repeat split.
      rewrite (evaluateFlow_result _ _ _ _ _ _ Hout).
      apply list_elem_of_fmap_2. by eapply object_get_values.
    + intros [reached Hget].
      by apply (evaluateFlow_default_reached self flow rest _ _ d reached
                  Hnd' Hfresh Hlast Hd' Hd).
Qed.

(** A delivered result counts at least one take when the activity has
    outbound flows. *)
Lemma evaluateFlow_result_taken self flow flows args calls res :
  length (outboundFlows self) ≠ 0 →
  outcome (evaluateFlow self flow flows args calls) = callbackResult res →
  takenCount (OutboundEvaluator.args (evaluateFlow self flow flows args calls)) ≠ 0.
Proof.
  intros Hlen. revert res.
  pattern flow, flows, args, calls, (evaluateFlow self flow flows args calls).
  apply evaluateFlow_rounds; clear -Hlen.
  - intros flow flows a log err Hv res Hout. by apply completed_failed in Hout.
  - intros flow a log content Hv res Hout Hzero. rewrite completed_args in Hzero.
    by rewrite (completed_none_taken _ _ _ Hzero Hlen) in Hout.
  - intros flow nextFlow rest a log content Hv Hrest res Hout Hzero.
    rewrite completed_args in Hzero.
    by rewrite (completed_none_taken _ _ _ Hzero Hlen) in Hout.
  - intros flow nextFlow rest a log content Hv Hrest Hnext res Hout Hzero.
    rewrite completed_args in Hzero.
    by rewrite (completed_none_taken _ _ _ Hzero Hlen) in Hout.
  - intros flow nextFlow rest a log content Hv Hrest Hnext log' IH res Hout.
    by eapply IH.
Qed.

(** C6, as amended. For an activity with at least one outbound flow (flow
    ids being distinct property names): with [discardRestAtTake] the
    delivered result holds exactly one [take], and every flow after a taken
    flow has a record with action [discard], without condition result, its
    condition not being executed, the callback receiving a result; without
    [discardRestAtTake] the delivered result holds at least one [take]. *)
Theorem discard_rest_at_take activityId flows fromMessage discardRestAtTake :
  flows ≠ [] →
  NoDup (Flow.id <$> flows) →
  "__proto__" ∉ Flow.id <$> flows →
  let self := new activityId flows in
  let r := evaluate self fromMessage discardRestAtTake in
  (∀ evaluationResult,
     outcome r = callbackResult evaluationResult →
     if discardRestAtTake then takes evaluationResult = 1
     else 1 ≤ takes evaluationResult)
  ∧ (discardRestAtTake = true →
     ∀ pre x post record,
       outboundFlows self = pre ++ x :: post →
       Js.Object.get (Flow.id x) (result (args r)) = Some record →
       FlowAction.action record = Action.take →
       (∃ evaluationResult, outcome r = callbackResult evaluationResult)
       ∧ ∀ f, f ∈ post →
           (∃ discarded,
              Js.Object.get (Flow.id f) (result (args r)) = Some discarded
              ∧ FlowAction.id discarded = Flow.id f
              ∧ FlowAction.action discarded = Action.discard
              ∧ FlowAction.result discarded = None
              ∧ FlowAction.evaluationId discarded = None)
           ∧ Flow.id f ∉ executions (calls r)).
Proof.
  intros Hflows Hnd Hown self r.
  pose proof (outboundFlows_nonempty activityId _ Hflows) as Hlen.
  pose proof (outboundFlows_NoDup activityId _ Hnd) as Hnd'.
  pose proof (outboundFlows_own activityId _ Hown) as Hown'.
  fold self in Hlen, Hnd', Hown'. subst r. rewrite evaluate_start.
  destruct (outboundFlows self) as [|flow rest] eqn:Hout; [done|].
  rewrite <- Hout in Hlen. split.
  - intros res Hres.
    rewrite (evaluateFlow_result _ _ _ _ _ _ Hres).
    rewrite takes_withMessage, (takes_perm _ _ (object_values_perm _)).
    rewrite <- (evaluateFlow_takenCount self) by (done || by apply fresh_initial).
    set (log := [subscribeTmp _ _ _]) in *.
    pose proof (evaluateFlow_result_taken _ _ _ _ _ _ Hlen Hres) as Hpos.
    destruct discardRestAtTake; [|lia].
    pose proof (evaluateFlow_take_one self flow rest
                  (initialArgs fromMessage true) log eq_refl eq_refl eq_refl). lia.
  - intros -> pre x post record Hsplit Hget Htake.
    destruct (evaluateFlow_rest_discarded self flow rest (initialArgs fromMessage true)
                [subscribeTmp "execution" "evaluate.flow.#"
                   (consumerTag (initialArgs fromMessage true))]
                x post record pre Hnd' (fresh_initial _ _ _ Hown') eq_refl eq_refl Hsplit
                Hget Htake) as [Hres Hpost].
    split; [done|]. intros f Hf. destruct (Hpost f Hf) as [Hf1 Hf2].
    split; [by exists (discardOf f)|].
    intros Hex. apply Hf2 in Hex. by apply elem_of_nil in Hex.
Qed.

Lemma isTake_withMessage m r : isTake (withMessage m r) = isTake r.
Proof. unfold isTake. by rewrite withMessage_action. Qed.

Lemma entry_resultRecord fromMessage discardRestAtTake met flow record :
  (if met && (discardRestAtTake || Flow.isDefault flow)
   then record = discardOf flow
   else verdict (initialArgs fromMessage discardRestAtTake) flow = inr record) →
  resultRecord fromMessage discardRestAtTake met flow
    (withMessage (Msg.message (Msg.content fromMessage)) record).
Proof.
  intros Hentry. unfold resultRecord, payload.
  assert (∀ m r,
    FlowAction.id (withMessage m r) = FlowAction.id r
    ∧ FlowAction.isDefault (withMessage m r) = FlowAction.isDefault r
    ∧ FlowAction.result (withMessage m r) = FlowAction.result r
    ∧ FlowAction.evaluationId (withMessage m r) = FlowAction.evaluationId r
    ∧ FlowAction.sequenceId (withMessage m r) = FlowAction.sequenceId r
    ∧ FlowAction.discardSequence (withMessage m r) = FlowAction.discardSequence r
    ∧ FlowAction.action (withMessage m r) = FlowAction.action r
    ∧ (FlowAction.message r = None →
       FlowAction.message (withMessage m r)
       = match m with None | Some Js.undefined => None | Some v => Some v end))
    as Hwith.
  { intros m r. unfold withMessage. by repeat case_match. }
  destruct (Hwith (Msg.message (Msg.content fromMessage)) record)
    as (-> & -> & -> & -> & -> & -> & -> & Hmessage).
  clear Hwith. destruct (met && _).
  - subst record. rewrite Hmessage by done. unfold discardOf. simpl.
    repeat split; try done. by destruct (Flow.isDefault flow).
  - unfold verdict in Hentry.
    destruct (Flow.isDefault flow) eqn:Hd; simplify_eq.
    { rewrite Hmessage by done. simpl. rewrite Hd. by repeat split. }
    destruct (Flow.getCondition flow) as [c|] eqn:Hc; simplify_eq.
    2: { rewrite Hmessage by done. simpl. rewrite Hd. by repeat split. }
    destruct (Flow.execute c _) as [|v] eqn:Hx; simplify_eq.
    rewrite Hmessage by done. simpl. rewrite Hd. repeat split; try done.
    by exists v.
Qed.

Lemma recordedFor_resultRecords fromMessage discardRestAtTake met flows entries :
  recordedFor (initialArgs fromMessage discardRestAtTake) met flows entries →
  resultRecords fromMessage discardRestAtTake met flows
    (withMessage (Msg.message (Msg.content fromMessage)) <$> entries.*2).
Proof.
  revert met entries.
  induction flows as [|flow flows IH]; intros met [|[key record] entries]; try done.
  rewrite recordedFor_cons. cbn [fst snd]. intros (_ & Hentry & Hrest).
  rewrite !fmap_cons. cbn [resultRecords snd]. split.
  - by apply entry_resultRecord.
  - rewrite isTake_withMessage. by apply IH.
Qed.

Lemma recordedFor_keys args met flows entries :
  recordedFor args met flows entries → entries.*1 = Flow.id <$> flows.
Proof.
  revert met entries.
  induction flows as [|flow flows IH]; intros met [|entry entries]; try done.
  rewrite recordedFor_cons. intros (Hkey & _ & Hrest).
  rewrite !fmap_cons, Hkey. f_equal. by eapply IH.
Qed.

(** C7, as amended. The result of a successful evaluation lists one record
    per outbound flow, in evaluation order: the declaration order with the
    default flow moved to the end. A record carries the flow's id,
    [isDefault] for the default flow, the source message's payload when it
    has one, and its action: [discard] without evaluation for the default
    flow (with [discardRestAtTake], for every flow) that follows a taken
    flow; otherwise [take] for the default flow and for a flow without
    condition, and for a conditional flow [take] or [discard] by the result
    of its condition, which the record carries together with the evaluation
    id only in that case. (Flow ids are distinct XML names and at most one
    flow is the default.) *)
Theorem evaluation_result_records activityId flows fromMessage discardRestAtTake
    evaluationResult :
  NoDup (Flow.id <$> flows) →
  Forall (λ f, Js.arrayIndex (Flow.id f) = None) flows →
  "__proto__" ∉ Flow.id <$> flows →
  atMostOneDefault flows →
  outcome (evaluate (new activityId flows) fromMessage discardRestAtTake)
  = callbackResult evaluationResult →
  outboundFlows (new activityId flows) = defaultMovedLast flows
  ∧ resultRecords fromMessage discardRestAtTake false (defaultMovedLast flows)
      evaluationResult.
Proof.
  intros Hnd Hnames Hown Hone Hout.
  destruct (new_outboundFlows_order activityId flows Hone) as [Horder Hlast].
  split; [done|].
  pose proof (outboundFlows_NoDup activityId _ Hnd) as Hnd'.
  pose proof (outboundFlows_own activityId _ Hown) as Hown'.
  assert (Forall (λ f, Js.arrayIndex (Flow.id f) = None) (defaultMovedLast flows))
    as Hnames'.
  { rewrite <- Horder. by rewrite new_outboundFlows_perm. }
  rewrite evaluate_start, Horder in Hout. rewrite Horder in Hnd', Hown'.
  destruct (defaultMovedLast flows) as [|flow rest].
  - apply completed_result in Hout. by subst.
  - destruct (evaluateFlow_records _ flow rest _ _ _ Hnd' (fresh_initial _ _ _ Hown')
                Hlast eq_refl Hout) as (entries & Hresult & Hentries).
    rewrite (evaluateFlow_result _ _ _ _ _ _ Hout), Hresult.
    change (result (initialArgs fromMessage discardRestAtTake) ++ entries) with entries.
    rewrite object_values_named.
    + by apply recordedFor_resultRecords in Hentries.
    + rewrite (recordedFor_keys _ _ _ _ Hentries). by apply Forall_fmap.
Qed.
End EvaluatorClaims.

(** ** Evaluations of the scenarios *)

Section EvaluationScenarios.
Import OutboundEvaluator.
Import Scenario.

Lemma no_conditional_flow_taken_witness :
  ∃ err,
    outcome (evaluate (new "gateway" [toA; toB]) leaving false) = callbackError err
    ∧ Msg.description err = "<gateway> no conditional flow taken"
    ∧ Msg.source err = Some leaving.
Proof.
  destruct (no_conditional_flow_taken "gateway" [toA; toB] leaving false)
    as (err & Hout & Hdescription & _ & Hsource & _).
  - discriminate.
  - by apply (bool_decide_unpack (NoDup _)).
  - intros f Hf. apply elem_of_cons in Hf as [->|Hf].
    + eexists. split; reflexivity.
    + apply list_elem_of_singleton in Hf as ->. eexists. split; reflexivity.
  - exists err. split; [exact Hout|]. split; [exact Hdescription | exact Hsource].
Defined.

(** A gateway whose only outbound flow has a failing condition: no flow ends
    up with action [take], and the callback receives the error of the
    condition as it is. *)
Lemma failed_condition_is_reported_as_it_is :
  let r := evaluate (new "gateway" [broken]) leaving false in
  outboundFlows (new "gateway" [broken]) = [broken]
  ∧ Js.Object.values (result (args r)) = []
  ∧ outcome r = callbackError (plainError "condition failed").
Proof. repeat split. Qed.

Lemma default_flow_is_evaluated_last_witness :
  (∃ record,
     Js.Object.get "toDefault"
       (result (args (evaluate (new "gateway" [toA; defaultFlow; toB]) leaving false)))
     = Some record
     ∧ FlowAction.action record = Action.take
     ∧ "toDefault" ∉
         executions (calls (evaluate (new "gateway" [toA; defaultFlow; toB]) leaving false)))
  ∧ (∃ record,
       Js.Object.get "toDefault"
         (result (args (evaluate (new "gateway" [defaultFlow; toC]) leaving false)))
       = Some record
       ∧ FlowAction.action record = Action.discard).
Proof.
  split.
  - destruct (default_flow_is_evaluated_last "gateway" [toA] defaultFlow [toB] leaving
                false
                (withMessage (Some (Js.text "order")) <$>
                   Js.Object.values
                     (result (args (evaluate (new "gateway" [toA; defaultFlow; toB])
                                      leaving false)))))
      as (_ & Hexecuted & Hrecord & _).
    + reflexivity.
    + repeat constructor.
    + by apply (bool_decide_unpack (NoDup _)).
    + by apply (bool_decide_unpack (_ ∉ _)).
    + destruct (Hrecord eq_refl) as (record & Hget & _ & _ & Haction & _).
      exists record. split; [exact Hget|]. split; [exact Haction | exact Hexecuted].
  - destruct (default_flow_is_evaluated_last "gateway" [] defaultFlow [toC] leaving
                false
                (withMessage (Some (Js.text "order")) <$>
                   Js.Object.values
                     (result (args (evaluate (new "gateway" [defaultFlow; toC])
                                      leaving false)))))
      as (_ & _ & Hrecord & _).
    + reflexivity.
    + repeat constructor.
    + by apply (bool_decide_unpack (NoDup _)).
    + by apply (bool_decide_unpack (_ ∉ _)).
    + destruct (Hrecord eq_refl) as (record & Hget & _ & _ & Haction & _).
      exists record. split; [exact Hget | exact Haction].
Defined.

Lemma discard_rest_at_take_witness :
  (∃ evaluationResult,
     outcome (evaluate (new "gateway" [toC; toD]) leaving true)
     = callbackResult evaluationResult
     ∧ takes evaluationResult = 1)
  ∧ (∃ discarded,
       Js.Object.get "toD" (result (args (evaluate (new "gateway" [toC; toD]) leaving true)))
       = Some discarded
       ∧ FlowAction.action discarded = Action.discard
       ∧ FlowAction.result discarded = None)
  ∧ "toD" ∉ executions (calls (evaluate (new "gateway" [toC; toD]) leaving true)).
Proof.
  destruct (discard_rest_at_take "gateway" [toC; toD] leaving true) as [Hone Hrest].
  - discriminate.
  - by apply (bool_decide_unpack (NoDup _)).
  - by apply (bool_decide_unpack (_ ∉ _)).
  - split.
    + eexists. split; [reflexivity|]. apply (Hone _ eq_refl).
    + destruct (Hrest eq_refl [] toC [toD]
                  (formatFlowAction toC
                     {| FlowAction.id := ""; FlowAction.action := Action.take;
                        FlowAction.isDefault := false;
                        FlowAction.result := Some (Js.boolean true);
                        FlowAction.evaluationId := Some "gateway_1";
                        FlowAction.message := None; FlowAction.sequenceId := None;
                        FlowAction.discardSequence := None |})
                  eq_refl eq_refl eq_refl) as [_ Hpost].
      destruct (Hpost toD) as [(discarded & Hget & _ & Haction & Hresult & _) Hexecuted].
      * by left.
      * split; [|exact Hexecuted]. exists discarded.
        split; [exact Hget|]. split; [exact Haction | exact Hresult].
Defined.

(** An evaluator without outbound flows delivers an empty result, with or
    without [discardRestAtTake]: a result that holds no [take]. *)
Lemma evaluation_without_flows_delivers_no_take :
  outboundFlows (new "task" []) = []
  ∧ outcome (evaluate (new "task" []) leaving false) = callbackResult []
  ∧ outcome (evaluate (new "task" []) leaving true) = callbackResult []
  ∧ takes [] = 0.
Proof. repeat split. Qed.

Lemma evaluation_result_records_witness :
  resultRecords leaving false false [toA; toC; defaultFlow]
    [withMessage (Some (Js.text "order"))
       (formatFlowAction toA
          {| FlowAction.id := ""; FlowAction.action := Action.discard;
             FlowAction.isDefault := false;
             FlowAction.result := Some (Js.boolean false);
             FlowAction.evaluationId := Some "gateway_1";
             FlowAction.message := None; FlowAction.sequenceId := None;
             FlowAction.discardSequence := None |});
     withMessage (Some (Js.text "order"))
       (formatFlowAction toC
          {| FlowAction.id := ""; FlowAction.action := Action.take;
             FlowAction.isDefault := false;
             FlowAction.result := Some (Js.boolean true);
             FlowAction.evaluationId := Some "gateway_1";
             FlowAction.message := None; FlowAction.sequenceId := None;
             FlowAction.discardSequence := None |});
     withMessage (Some (Js.text "order")) (discardOf defaultFlow)].
Proof.
  apply (evaluation_result_records "gateway" [toA; defaultFlow; toC] leaving false).
  - by apply (bool_decide_unpack (NoDup _)).
  - repeat constructor.
  - by apply (bool_decide_unpack (_ ∉ _)).
  - unfold atMostOneDefault. vm_compute. lia.
  - reflexivity.
Defined.

(** A default flow that is declared first is listed last, and the records of
    flows whose condition was not executed carry no evaluation id, although
    the source message has an execution id. *)
Lemma default_flow_is_listed_last :
  let r := evaluate (new "gateway" [defaultFlow; unconditional]) leaving false in
  Msg.executionId (Msg.content leaving) = Some "gateway_1"
  ∧ ∃ evaluationResult,
      outcome r = callbackResult evaluationResult
      ∧ FlowAction.id <$> evaluationResult = ["toNext"; "toDefault"]
      ∧ FlowAction.evaluationId <$> evaluationResult = [None; None].
Proof. split; [done|]. eexists. repeat split. Qed.
End EvaluationScenarios.

(** ** Sequencing *)

Section Sequencing.
Import Activity.
Local Open Scope activity_scope.

Lemma bind_ret {A B} (a : A) (k : A → M B) st : bind (ret a) k st = after [] (k a st).
Proof. done. Qed.

Lemma bind_get {B} (k : State → M B) st : bind get k st = after [] (k st st).
Proof. done. Qed.

Lemma bind_modify {B} f (k : unit → M B) st : bind (modify f) k st = after [] (k () (f st)).
Proof. done. Qed.

Lemma bind_call {B} c (k : unit → M B) st : bind (call c) k st = after [c] (k () st).
Proof. done. Qed.

Lemma forEach_calls {A} (l : list A) (f : A → Call) st :
  forEach l (λ x, call (f x)) st
  = {| completion := returned (); state := st; calls := f <$> l |}.
Proof.
  induction l as [|x l IH]; [done|]. simpl. rewrite bind_call. by rewrite IH.
Qed.

Lemma bind_forEach_calls {A B} (l : list A) (f : A → Call) (k : unit → M B) st :
  bind (forEach l (λ x, call (f x))) k st = after (f <$> l) (k () st).
Proof. unfold bind. by rewrite forEach_calls. Qed.

Lemma bind_returned {A C} (m : M A) (k : A → M C) st a st' first :
  m st = {| completion := returned a; state := st'; calls := first |} →
  bind m k st = after first (k a st').
Proof. unfold bind. by intros ->. Qed.

Lemma bind_thrown {A C} (m : M A) (k : A → M C) st err st' first :
  m st = {| completion := thrown err; state := st'; calls := first |} →
  bind m k st = {| completion := thrown err; state := st'; calls := first |}.
Proof. unfold bind. by intros ->. Qed.

Lemma bind_bind {A C D} (m : M A) (k : A → M C) (h : C → M D) st :
  bind (bind m k) h st = bind m (λ a, bind (k a) h) st.
Proof.
  unfold bind. destruct (m st) as [[a|err] st1 first]; [|done]. unfold after.
  destruct (k a st1) as [[c|err] st2 second]; simpl; [|done].
  destruct (h c st2) as [completion3 st3 third]. simpl. by rewrite app_assoc.
Qed.

Lemma after_after {A} l1 l2 (r : Result A) : after l1 (after l2 r) = after (l1 ++ l2) r.
Proof. unfold after. simpl. by rewrite app_assoc. Qed.

Lemma after_nil {A} (r : Result A) : after [] r = r.
Proof. by destruct r. Qed.

End Sequencing.

Ltac steps :=
  repeat first
    [ rewrite bind_bind | rewrite bind_get | rewrite bind_ret | rewrite bind_modify
    | rewrite bind_call | rewrite after_nil | rewrite after_after ].

(** ** Starting a run *)

Section Starting.
Import Activity.
Local Open Scope activity_scope.
Local Arguments Js.nonEmpty : simpl never.

Lemma nonEmpty_idemp a s : Js.nonEmpty a = Some s → Js.nonEmpty (Some s) = Some s.
Proof.
  unfold Js.nonEmpty. destruct a as [s'|]; [|done].
  destruct (String.eqb_spec s' ""); [done|]. intros [= ->].
  by destruct (String.eqb_spec s "").
Qed.

Lemma announcedId_nonEmpty self st :
  Js.nonEmpty (Some (announcedId self st)) = Some (announcedId self st).
Proof.
  unfold announcedId, nextUniqueId.
  destruct (Js.nonEmpty (Exec.initExecutionId (exec st))) as [e|] eqn:He.
  - by eapply nonEmpty_idemp.
  - unfold Js.nonEmpty. by destruct (id self).
Qed.

Lemma initExecutionIdOrUnique_run self st :
  ∃ st', initExecutionIdOrUnique self st
         = {| completion := returned (announcedId self st); state := st'; calls := [] |}
         ∧ status st' = status st ∧ consuming st' = consuming st
         ∧ stopped st' = stopped st ∧ counters st' = counters st
         ∧ inboundJoinFlows st' = inboundJoinFlows st.
Proof.
  unfold initExecutionIdOrUnique, announcedId, nextUniqueId, getUniqueId.
  rewrite bind_get, after_nil.
  destruct (Js.nonEmpty _); [by eexists|].
  rewrite bind_get, bind_modify, !after_nil. by eexists.
Qed.

Lemma run_running self runContent st :
  isRunning st = true →
  run self runContent st
  = {| completion :=
         thrown (plainError ("activity <" +:+ id self +:+ "> is already running"));
       state := st; calls := [] |}.
Proof. intros Hrunning. unfold run. by rewrite bind_get, after_nil, Hrunning. Qed.

(** [run] of an idle activity publishes [run.enter] and [run.start], with
    the run content under the execution id, and nothing else on the run
    exchange. *)
Lemma run_started self runContent st :
  isRunning st = false →
  let r := run self runContent st in
  completion r = returned ()
  ∧ consuming (state r) = true
  ∧ Exec.executionId (exec (state r)) = Some (announcedId self st)
  ∧ inboundJoinFlows (state r) = inboundJoinFlows st
  ∧ published "run" "run.discard" (calls r) = []
  ∧ ∃ entered,
      published "run" "run.enter" (calls r) = [entered]
      ∧ published "run" "run.start" (calls r) = [entered]
      ∧ Msg.executionId entered = Some (announcedId self st)
      ∧ Msg.inbound entered = Msg.inbound runContent
      ∧ Msg.message entered = Msg.message runContent
      ∧ Msg.discardSequence entered = Msg.discardSequence runContent.
Proof.
  intros Hidle r. subst r. unfold run. rewrite bind_get, after_nil, Hidle.
  destruct (initExecutionIdOrUnique_run self st)
    as (st' & Hdrawn & Hstatus & Hconsuming & _ & _ & Hbuffer).
  erewrite bind_returned by apply Hdrawn. rewrite !bind_modify, !after_nil.
  unfold consumeApi, consumeRunQ, createMessage. steps.
  cbn [exec setExec setExecutionId setInitExecutionId Exec.executionId].
  rewrite announcedId_nonEmpty. steps. cbn [consuming setExec].
  destruct (consuming st') eqn:Hc; steps; unfold after, call, ret;
    cbn [completion state calls app consuming setConsuming exec setExec Exec.executionId
           setInitExecutionId setExecutionId inboundJoinFlows];
    (repeat split; try done); eexists; (repeat split; try reflexivity).
Qed.

(** [_runDiscard] publishes [run.discard], with the discard content under
    the execution id, and nothing else on the run exchange. *)
Lemma runDiscard_started self discardContent st :
  let r := runDiscard self discardContent st in
  completion r = returned ()
  ∧ consuming (state r) = true
  ∧ Exec.executionId (exec (state r)) = Some (announcedId self st)
  ∧ inboundJoinFlows (state r) = inboundJoinFlows st
  ∧ published "run" "run.enter" (calls r) = []
  ∧ published "run" "run.start" (calls r) = []
  ∧ ∃ discarded,
      published "run" "run.discard" (calls r) = [discarded]
      ∧ Msg.executionId discarded = Some (announcedId self st)
      ∧ Msg.inbound discarded = Msg.inbound discardContent
      ∧ Msg.discardSequence discarded = Msg.discardSequence discardContent.
Proof.
  intros r. subst r. unfold runDiscard.
  destruct (initExecutionIdOrUnique_run self st)
    as (st' & Hdrawn & Hstatus & Hconsuming & _ & _ & Hbuffer).
  erewrite bind_returned by apply Hdrawn. rewrite !bind_modify, !after_nil.
  unfold consumeApi, consumeRunQ, createMessage. steps.
  cbn [exec setExec setExecutionId setInitExecutionId Exec.executionId].
  rewrite announcedId_nonEmpty. steps. cbn [consuming setExec].
  destruct (consuming st') eqn:Hc; steps; unfold after, call, ret;
    cbn [completion state calls app consuming setConsuming exec setExec Exec.executionId
           setInitExecutionId setExecutionId inboundJoinFlows];
    (repeat split; try done); eexists; (repeat split; try reflexivity).
Qed.
End Starting.

(** ** The parallel join *)

Section Join.
Import Activity.
Local Open Scope activity_scope.

Lemma findIndex_absent (message : Inbound.Message) buffer :
  newSource message buffer →
  Js.findIndex
    (λ msg, String.eqb (Inbound.id (Inbound.content msg))
              (Inbound.id (Inbound.content message))) buffer = (-1)%Z.
Proof.
  unfold newSource, sources. intros Hnew. apply findIndex_none, Forall_forall.
  intros im Him. destruct (String.eqb_spec (Inbound.id (Inbound.content im))
                             (Inbound.id (Inbound.content message))) as [Heq|]; [|done].
  destruct Hnew. rewrite <- Heq.
  by apply (list_elem_of_fmap_2 (λ im, Inbound.id (Inbound.content im))).
Qed.








End Join.

Section JoinScenarios.
Import Activity.
Import Scenario.
Local Open Scope activity_scope.


(** C3. At a join of three inbound flows, a second arrival for the first
    flow is not ignored: it is buffered besides the first one, so that the
    buffer holds two messages of one source flow, and the arrival for the
    second flow then completes the wave. The join runs with three inbound
    messages of two distinct source flows while its third flow has not
    arrived. *)
Theorem duplicate_arrival_completes_the_wave :
  let first := onJoinInbound join "flow.take" (flowMessage "flow.take" "f1" None) initial in
  let second :=
    onJoinInbound join "flow.take" (flowMessage "flow.take" "f1" None) (state first) in
  let third :=
    onJoinInbound join "flow.take" (flowMessage "flow.take" "f2" None) (state second) in
  inboundTriggers join = ["f1"; "f2"; "f3"]
  ∧ sources (inboundJoinFlows (state first)) = ["f1"]
  ∧ sources (inboundJoinFlows (state second)) = ["f1"; "f1"]
  ∧ calls first = [] ∧ calls second = []
  ∧ omap Msg.inbound (published "run" "run.enter" (calls third))
    = [Inbound.content <$> arrivals]
  ∧ inboundJoinFlows (state third) = [].
Proof. repeat split. Qed.

(** An arrival for a source flow that is not buffered yet, while fewer
    source flows than inbound triggers have arrived with it, is buffered: the
    join makes no call, acknowledges nothing and does not dispatch. *)
Theorem join_waits self routingKey message st :
  newSource message (inboundJoinFlows st) →
  S (length (inboundJoinFlows st)) < length (inboundTriggers self) →
  let r := onJoinInbound self routingKey message st in
  completion r = returned ()
  ∧ calls r = []
  ∧ state r = setInboundJoinFlows (inboundJoinFlows st ++ [message]) st.
Proof.
  intros Hnew Hfew r. subst r. unfold onJoinInbound.
  rewrite bind_get, (findIndex_absent _ _ Hnew), bind_modify.
  change (-1 >? -1)%Z with false. cbv iota. rewrite bind_get.
  cbn [setInboundJoinFlows inboundJoinFlows].
  rewrite length_app. cbn [length].
  destruct (Nat.leb_spec (length (inboundTriggers self)) (length (inboundJoinFlows st) + 1));
    [lia|].
  done.
Qed.

Lemma join_waits_witness :
  let message := flowMessage "flow.take" "f1" None in
  let r := onJoinInbound join "flow.take" message initial in
  calls r = [] ∧ inboundJoinFlows (state r) = [message].
Proof.
  intros message r.
  destruct (join_waits join "flow.take" message initial) as (_ & Hcalls & Hstate).
  - apply (bool_decide_unpack (newSource _ _)). vm_compute. exact I.
  - simpl. lia.
  - split; [exact Hcalls|]. unfold r. rewrite Hstate. reflexivity.
Defined.
End JoinScenarios.

(** ** Programmer errors and execution ids *)

Section Lifecycle.
Import Activity.
Import Scenario.
Local Arguments Js.nonEmpty : simpl never.

(** C9. [run] and [recover] on a running activity and [resume] on a
    consuming activity throw: they return no value, leave the state as it is
    and make no call on the broker, so nothing is published. *)
Theorem programmer_errors_are_thrown self st runContent snapshot :
  (isRunning st = true →
   run self runContent st
   = {| completion := thrown (plainError ("activity <" +:+ id self +:+ "> is already running"));
        state := st; calls := [] |})
  ∧ (isRunning st = true →
     recover self snapshot st
     = {| completion :=
            thrown (plainError ("cannot recover running activity <" +:+ id self +:+ ">"));
          state := st; calls := [] |})
  ∧ (consuming st = true →
     resume self st
     = {| completion :=
            thrown (plainError ("cannot resume running activity <" +:+ id self +:+ ">"));
          state := st; calls := [] |}).
Proof.
  repeat split; intros H.
  - unfold run, bind, get, throw. simpl. by rewrite H.
  - unfold recover, bind, get, throw. simpl. by rewrite H.
  - unfold resume, bind, get, throw. simpl. by rewrite H.
Qed.

Lemma programmer_errors_are_thrown_witness :
  isRunning executingState = true
  ∧ consuming executingState = true
  ∧ completion (run (task [] false) emptyContent executingState)
    = thrown (plainError "activity <task> is already running")
  ∧ completion (recover (task [] false) None executingState)
    = thrown (plainError "cannot recover running activity <task>")
  ∧ completion (resume (task [] false) executingState)
    = thrown (plainError "cannot resume running activity <task>")
  ∧ calls (run (task [] false) emptyContent executingState) = []
  ∧ calls (recover (task [] false) None executingState) = []
  ∧ calls (resume (task [] false) executingState) = [].
Proof.
  destruct (programmer_errors_are_thrown (task [] false) executingState emptyContent None)
    as (Hrun & Hrecover & Hresume).
  rewrite Hrun, Hrecover, Hresume by reflexivity.
  repeat split; reflexivity.
Defined.

Lemma unique_nonempty prefix part :
  Js.nonEmpty (Some (prefix +:+ "_" +:+ part)) = Some (prefix +:+ "_" +:+ part).
Proof. unfold Js.nonEmpty. by destruct prefix. Qed.

Lemma letters_length n : String.length (letters n) = n.
Proof.
  induction n as [|n IH]; [done|].
  change (String.length (letters (S n))) with (S (String.length (letters n))).
  by rewrite IH.
Qed.

Lemma letters_inj : Inj (=) (=) letters.
Proof. intros n m H. by rewrite <- (letters_length n), <- (letters_length m), H. Qed.

(** C10. [init] announces an execution id in its [activity.init] event and
    stores it; a [run] or [_runDiscard] that follows takes that id as its
    execution id, publishes it in [run.enter] (or [run.discard]) and clears
    the stored id. A later [run] that finds no stored id draws a new id,
    which differs from every id drawn before for this activity. *)
Theorem init_execution_id_is_used_once self st initContent runContent :
  isRunning st = false →
  Inj (=) (=) (generateId self) →
  let executionId := announcedId self st in
  let announced := init self initContent st in
  let ran := run self runContent (state announced) in
  let discarded := runDiscard self runContent (state announced) in
  (∃ content properties,
     calls announced = [publish "event" "activity.init" content properties]
     ∧ Msg.executionId content = Some executionId)
  ∧ Exec.initExecutionId (exec (state announced)) = Some executionId
  ∧ Exec.executionId (exec (state ran)) = Some executionId
  ∧ Exec.initExecutionId (exec (state ran)) = None
  ∧ (∃ content, publish "run" "run.enter" content noProperties ∈ calls ran
                ∧ Msg.executionId content = Some executionId)
  ∧ Exec.executionId (exec (state discarded)) = Some executionId
  ∧ Exec.initExecutionId (exec (state discarded)) = None
  ∧ (∃ content, publish "run" "run.discard" content noProperties ∈ calls discarded
                ∧ Msg.executionId content = Some executionId)
  ∧ ∀ later laterContent,
      Exec.initExecutionId (exec later) = None →
      isRunning later = false →
      let again := run self laterContent later in
      Exec.executionId (exec (state again)) = Some (nextUniqueId self later)
      ∧ generated (state again) = S (generated later)
      ∧ ∀ st', generated st' < generated later →
               nextUniqueId self st' ≠ nextUniqueId self later.
Proof.
  intros Hidle Hinj executionId announced ran discarded.
  assert (Js.nonEmpty (Some executionId) = Some executionId) as Hid.
  { subst executionId. unfold announcedId.
    destruct (Js.nonEmpty (Exec.initExecutionId (exec st))) as [e|] eqn:He.
    - unfold Js.nonEmpty in *. destruct (Exec.initExecutionId (exec st)) as [e'|]; [|done].
      destruct (String.eqb_spec e' ""); simplify_eq. by destruct (String.eqb_spec e "").
    - apply unique_nonempty. }
  assert (isRunning (state announced) = false) as Hidle'.
  { subst announced. unfold init, initExecutionIdOrUnique, getUniqueId, createMessage,
      publishEvent, bind, get, modify, call, ret. simpl.
    destruct (Js.nonEmpty (Exec.initExecutionId (exec st))); simpl; exact Hidle. }
  assert (Exec.initExecutionId (exec (state announced)) = Some executionId) as Hstored.
  { subst announced executionId. unfold announcedId, nextUniqueId, init,
      initExecutionIdOrUnique, getUniqueId, createMessage, publishEvent, bind, get, modify,
      call, ret. simpl.
    by destruct (Js.nonEmpty (Exec.initExecutionId (exec st))). }
  split; [|split; [done|]].
  { subst announced executionId. unfold announcedId, nextUniqueId, init,
      initExecutionIdOrUnique, getUniqueId, createMessage, publishEvent, bind, get, modify,
      call, ret. simpl.
    destruct (Js.nonEmpty (Exec.initExecutionId (exec st))); simpl; eauto. }
  assert (∀ later laterContent,
            Js.nonEmpty (Exec.initExecutionId (exec later)) = Some executionId →
            isRunning later = false →
            Exec.executionId (exec (state (run self laterContent later))) = Some executionId
            ∧ Exec.initExecutionId (exec (state (run self laterContent later))) = None
            ∧ ∃ content,
                publish "run" "run.enter" content noProperties
                  ∈ calls (run self laterContent later)
                ∧ Msg.executionId content = Some executionId) as Hrun.
  { intros later laterContent Hlater Hlidle.
    unfold run, initExecutionIdOrUnique, consumeApi, consumeRunQ, createMessage, bind, get,
      modify, call, ret, throw. simpl. rewrite Hlidle, Hlater. simpl. rewrite Hid. simpl.
    destruct (consuming later); simpl; (split; [done|split; [done|]]);
      eexists; (split; [do 2 apply list_elem_of_further; apply list_elem_of_here | reflexivity]). }
  assert (∀ later laterContent,
            Js.nonEmpty (Exec.initExecutionId (exec later)) = Some executionId →
            Exec.executionId (exec (state (runDiscard self laterContent later)))
            = Some executionId
            ∧ Exec.initExecutionId (exec (state (runDiscard self laterContent later))) = None
            ∧ ∃ content,
                publish "run" "run.discard" content noProperties
                  ∈ calls (runDiscard self laterContent later)
                ∧ Msg.executionId content = Some executionId) as Hdiscard.
  { intros later laterContent Hlater.
    unfold runDiscard, initExecutionIdOrUnique, consumeApi, consumeRunQ, createMessage, bind,
      get, modify, call, ret, throw. simpl. rewrite Hlater. simpl. rewrite Hid. simpl.
    destruct (consuming later); simpl; (split; [done|split; [done|]]);
      eexists; (split; [do 2 apply list_elem_of_further; apply list_elem_of_here | reflexivity]). }
  destruct (Hrun (state announced) runContent) as (? & ? & ?); [by rewrite Hstored|done|].
  destruct (Hdiscard (state announced) runContent) as (? & ? & ?); [by rewrite Hstored|].
  repeat (split; [done|]).
  intros later laterContent Hnone Hlidle again. subst again.
  unfold run, initExecutionIdOrUnique, getUniqueId, consumeApi, consumeRunQ, createMessage,
    bind, get, modify, call, ret, throw. simpl. rewrite Hlidle, Hnone. simpl.
  rewrite unique_nonempty. simpl.
  split; [by destruct (consuming later)|]. split; [by destruct (consuming later)|].
  intros st' Hlt Heq. unfold nextUniqueId in Heq.
  apply String.app_inj, String.app_inj, Hinj in Heq. lia.
Qed.

Lemma init_execution_id_is_used_once_witness :
  isRunning initial = false
  ∧ Exec.executionId
      (exec (state (run (task [] false) emptyContent
                      (state (init (task [] false) emptyContent initial)))))
    = Some "task_"
  ∧ Exec.initExecutionId
      (exec (state (run (task [] false) emptyContent
                      (state (init (task [] false) emptyContent initial)))))
    = None.
Proof.
  split; [reflexivity|].
  destruct (init_execution_id_is_used_once (task [] false) initial emptyContent
              emptyContent eq_refl letters_inj) as (_ & _ & Hrun & Hcleared & _).
  split; [exact Hrun | exact Hcleared].
Defined.
End Lifecycle.

(** ** Redelivered run messages *)

Section RunQueue.
Import Activity.
Import Scenario.

(** C8, as amended. A redelivered run message other than [run.error] makes
    [_continueRunMessage] perform the status transition of its routing key
    and publish nothing on the event exchange, provided the formatter does
    not fail when the extensions of a redelivered [run.execute] are resumed.
    A redelivered [run.error] publishes [activity.error] once more, as a
    mandatory event whose [error] is what [makeErrorFromMessage] returns for
    the message (nothing, for a message without an error), and leaves the
    status as it is. *)
Theorem redelivered_run_messages self routingKey message st :
  redelivered (Msg.fields message) = true →
  let r := continueRunMessage self routingKey message st in
  (runKey routingKey ≠ run_error →
   (∀ err, formatter self message ≠ formatFailed err) →
   events (calls r) = []
   ∧ status (state r) = transition (runKey routingKey) (status st))
  ∧ (runKey routingKey = run_error →
     events (calls r)
     = [publish "event" "activity.error"
          (withState "error"
             (withError (makeErrorFromMessage self message) (Msg.content message)))
          {| correlationId := correlationId (Msg.properties message);
             type := Some "error"; mandatory := Some true; persistent := Some true |}]
     ∧ Msg.error <$> published "event" "activity.error" (calls r)
       = [makeErrorFromMessage self message]
     ∧ status (state r) = status st).
Proof.
  intros Hagain r. subst r. unfold continueRunMessage. rewrite Hagain.
  split.
  - intros Hkey Hformat.
    destruct (runKey routingKey); try done;
      unfold runExecute, runOutbound, resumeExtensions, consumeInbound, ackUnlessStep,
        publishEvent, emitFatal, publishOnEvent, createMessage, when, bind, get, modify,
        call, ret, throw;
      simpl; rewrite ?Hagain; simpl;
      repeat match goal with
      | |- context [formatter self message] =>
          let H := fresh in
          destruct (formatter self message) eqn:H; [exfalso; by eapply Hformat| |]; simpl
      | |- context [if ?b then _ else _] => destruct b eqn:?; simpl
      | |- context [match ?x with _ => _ end] => destruct x eqn:?; simpl
      end; try done;
      (split; [done | by eapply bool_decide_eq_true_1]).
  - intros Hkey. rewrite Hkey.
    unfold ackUnlessStep, publishEvent, publishOnEvent, when, bind, get, modify, call,
      ret, throw, cloneContent.
    simpl. rewrite ?Hagain. by destruct (errorConsumer self), (step self).
Qed.

Lemma redelivered_run_messages_witness :
  let message := delivered "run.enter" true firstRun in
  let r := continueRunMessage (task [] false) "run.enter" message initial in
  redelivered (Msg.fields message) = true
  ∧ events (calls r) = []
  ∧ status (state r) = Some Status.entered.
Proof.
  intros message r. split; [reflexivity|].
  destruct (redelivered_run_messages (task [] false) "run.enter" message initial eq_refl)
    as [Hquiet _].
  apply Hquiet; [discriminate | intros err; discriminate].
Defined.

(** A redelivered [run.error] message publishes the [activity.error] event
    once more: with the error of the message when it carries one, and
    without an error when it carries none. *)
Lemma redelivered_error_is_published_again :
  let failed := withError (Some (plainError "failed")) firstRun in
  let message := delivered "run.error" true failed in
  let r := continueRunMessage (task [] false) "run.error" message initial in
  let bare := delivered "run.error" true firstRun in
  let r' := continueRunMessage (task [] false) "run.error" bare initial in
  redelivered (Msg.fields message) = true
  ∧ published "event" "activity.error" (calls r) = [withState "error" failed]
  ∧ Msg.error <$> published "event" "activity.error" (calls r)
    = [Some (plainError "failed")]
  ∧ redelivered (Msg.fields bare) = true
  ∧ Msg.error <$> published "event" "activity.error" (calls r') = [None].
Proof. repeat split. Qed.
End RunQueue.

(** ** The counters *)

Section Counting.
Import Activity.
Import Scenario.
Local Open Scope activity_scope.


Lemma keeps_ret {A} (a : A) : keepsCounters (ret a).
Proof. done. Qed.

Lemma keeps_throw {A} err : keepsCounters (@throw A err).
Proof. done. Qed.

Lemma keeps_get : keepsCounters get.
Proof. done. Qed.

Lemma keeps_call c : keepsCounters (call c).
Proof. done. Qed.

Lemma keeps_modify f : (∀ st, counters (f st) = counters st) → keepsCounters (modify f).
Proof. intros Hf st. apply Hf. Qed.

Lemma keeps_bind {A B} (m : M A) (k : A → M B) :
  keepsCounters m → (∀ a, keepsCounters (k a)) → keepsCounters (bind m k).
Proof.
  intros Hm Hk st. unfold bind. specialize (Hm st).
  destruct (m st) as [[a|err] st' first]; simpl in *; [|done].
  by rewrite Hk.
Qed.

Lemma keeps_when b m : keepsCounters m → keepsCounters (when b m).
Proof. destruct b; [done | intros _; apply keeps_ret]. Qed.

Lemma keeps_forEach {A} (l : list A) body :
  (∀ x, keepsCounters (body x)) → keepsCounters (forEach l body).
Proof.
  intros Hbody. induction l as [|x l IH]; [apply keeps_ret|].
  apply keeps_bind; [apply Hbody | intros _; apply IH].
Qed.

Create HintDb counting.

Ltac keeps :=
  repeat first
    [ assumption
    | simple apply keeps_ret | simple apply keeps_throw | simple apply keeps_get
    | simple apply keeps_call
    | simple apply keeps_modify; intros ?; reflexivity
    | simple apply keeps_when
    | simple apply keeps_forEach; intros ?
    | simple apply keeps_bind; [|intros ?]
    | progress cbv zeta
    | solve [auto with counting]
    | match goal with
      | H : ∀ _ _, keepsCounters _ |- _ => simple apply H
      | |- keepsCounters (match ?x with _ => _ end) => destruct x
      | |- keepsCounters (if ?b then _ else _) => destruct b
      end ].

Lemma keeps_getUniqueId self prefix : keepsCounters (getUniqueId self prefix).
Proof. unfold getUniqueId. keeps. Qed.

Lemma keeps_createMessage self override : keepsCounters (createMessage self override).
Proof. unfold createMessage. keeps. Qed.

Lemma keeps_publishOnEvent self routingKey content options :
  keepsCounters (publishOnEvent self routingKey content options).
Proof. unfold publishOnEvent. keeps. Qed.

Lemma keeps_emitFatal self err content : keepsCounters (emitFatal self err content).
Proof. apply keeps_publishOnEvent. Qed.

Hint Resolve keeps_getUniqueId keeps_createMessage keeps_publishOnEvent
  keeps_emitFatal : counting.

Lemma keeps_publishEvent self state content properties :
  keepsCounters (publishEvent self state content properties).
Proof. unfold publishEvent. keeps; auto with counting. Qed.

Lemma keeps_ackUnlessStep self message : keepsCounters (ackUnlessStep self message).
Proof. unfold ackUnlessStep. keeps. Qed.

Lemma keeps_consumeInbound self : keepsCounters (consumeInbound self).
Proof. unfold consumeInbound. keeps. Qed.

Lemma keeps_doRunOutbound self outboundList content discardSequence :
  keepsCounters (doRunOutbound self outboundList content discardSequence).
Proof. unfold doRunOutbound. keeps; auto with counting. Qed.

Lemma keeps_adoptOutbound flows outbound : keepsCounters (adoptOutbound flows outbound).
Proof. induction flows as [|flow flows IH]; simpl; keeps; auto. Qed.

Hint Resolve keeps_publishEvent keeps_ackUnlessStep keeps_consumeInbound
  keeps_doRunOutbound keeps_adoptOutbound : counting.

Lemma keeps_doOutbound self fromMessage isDiscarded callback :
  (∀ err outbound, keepsCounters (callback err outbound)) →
  keepsCounters (doOutbound self fromMessage isDiscarded callback).
Proof. intros Hcallback. unfold doOutbound. keeps; auto with counting. Qed.

Lemma keeps_doRunLeave self message isDiscarded onOutbound :
  keepsCounters onOutbound → keepsCounters (doRunLeave self message isDiscarded onOutbound).
Proof.
  intros Hnext. unfold doRunLeave. keeps.
  apply keeps_doOutbound. intros err outbound. keeps.
Qed.

Lemma keeps_resumeExtensions self message callback :
  (∀ err content, keepsCounters (callback err content)) →
  keepsCounters (resumeExtensions self message callback).
Proof. intros Hcallback. unfold resumeExtensions. keeps; auto with counting. Qed.

Lemma keeps_runExecute self message : keepsCounters (runExecute self message).
Proof.
  unfold runExecute, emitFatal. keeps.
  - apply keeps_modify. intros st. by destruct (Exec.execution (exec st)).
  - apply keeps_resumeExtensions. intros err content. keeps.
Qed.

Lemma keeps_runOutbound self message deliver : keepsCounters (runOutbound self message deliver).
Proof. unfold runOutbound. keeps. Qed.

Hint Resolve keeps_doRunLeave keeps_runExecute keeps_runOutbound : counting.

Ltac kept :=
  match goal with
  | |- counters (state (?m ?s)) = counters ?s => refine ((_ : keepsCounters m) s)
  end.

(** A run message moves the counters by its routing key alone: [run.end]
    adds one to [taken] unless the status is [end] already, [run.discarded]
    adds one to [discarded], and every other message leaves both counters as
    they are. No counter ever decreases. *)
Theorem run_message_counts self routingKey message st :
  let r := continueRunMessage self routingKey message st in
  counters (state r) = counted (runKey routingKey) (status st) (counters st)
  ∧ taken (counters st) ≤ taken (counters (state r))
  ∧ discarded (counters st) ≤ discarded (counters (state r)).
Proof.
  intros r.
  assert (counters (state r) = counted (runKey routingKey) (status st) (counters st)) as ->.
  { subst r. unfold continueRunMessage. cbv zeta.
    rewrite bind_modify. unfold after. cbn [state].
    set (st1 := setStateMessage (Some message) st).
    change (counters st) with (counters st1). change (status st) with (status st1).
    clearbody st1.
    destruct (runKey routingKey); cbn [counted]; try (kept; keeps).
    - rewrite bind_get. unfold after. cbn [state].
      case_bool_decide; [kept; keeps|].
      rewrite !bind_modify. unfold after. cbn [state].
      match goal with |- counters (state (_ ?s)) = _ =>
        transitivity (counters s); [|reflexivity] end.
      kept; keeps. apply keeps_doRunLeave. keeps.
    - rewrite !bind_modify. unfold after. cbn [state].
      match goal with |- counters (state (_ ?s)) = _ =>
        transitivity (counters s); [|reflexivity] end.
      kept; keeps. }
  split; [done|].
  destruct (runKey routingKey); cbn [counted]; try case_bool_decide; simpl; lia.
Qed.

(** C1. One discarded run of a task in step mode, stopped and resumed
    before its [run.discarded] message is acknowledged: [run.discard],
    [run.discarded] and [run.leave] are published once each, the run is
    one run, and [counters.discarded] is two, the redelivered
    [run.discarded] message being counted again. *)
Theorem redelivered_discarded_is_counted_again :
  let r := stoppedAtDiscarded initial in
  completion r = returned ()
  ∧ published "run" "run.discard" (calls r) = [firstRun]
  ∧ published "run" "run.discarded" (calls r) = [firstRun]
  ∧ published "run" "run.leave" (calls r) = [firstRun]
  ∧ counters (state r) = {| taken := 0; discarded := 2 |}.
Proof. repeat split. Qed.
End Counting.

(** ** What an operation leaves alone *)

Section Frames.
Import Activity.
Local Open Scope activity_scope.
Context {B : Type} (part : State → B).

Lemma preserves_ret {A} (a : A) : preserves part (ret a).
Proof. done. Qed.

Lemma preserves_throw {A} err : preserves part (@throw A err).
Proof. done. Qed.

Lemma preserves_get : preserves part get.
Proof. done. Qed.

Lemma preserves_call c : preserves part (call c).
Proof. done. Qed.

Lemma preserves_modify f : (∀ st, part (f st) = part st) → preserves part (modify f).
Proof. intros Hf st. apply Hf. Qed.

Lemma preserves_bind {A C} (m : M A) (k : A → M C) :
  preserves part m → (∀ a, preserves part (k a)) → preserves part (bind m k).
Proof.
  intros Hm Hk st. unfold bind. specialize (Hm st).
  destruct (m st) as [[a|err] st' first]; simpl in *; [|done].
  by rewrite Hk.
Qed.

Lemma preserves_when b m : preserves part m → preserves part (when b m).
Proof. destruct b; [done | intros _; apply preserves_ret]. Qed.

Lemma preserves_forEach {A} (l : list A) body :
  (∀ x, preserves part (body x)) → preserves part (forEach l body).
Proof.
  intros Hbody. induction l as [|x l IH]; [apply preserves_ret|].
  apply preserves_bind; [apply Hbody | intros _; apply IH].
Qed.

Lemma preserves_adoptOutbound flows outbound : preserves part (adoptOutbound flows outbound).
Proof.
  induction flows as [|flow flows IH]; [apply preserves_ret|]. simpl.
  destruct (last _); [|apply preserves_throw].
  apply preserves_bind; [apply IH | intros ?; apply preserves_ret].
Qed.
End Frames.

Section Silence.
Import Activity.
Local Open Scope activity_scope.
Context {X : Type} (selection : Call → option X).

Lemma silent_ret {A} (a : A) : silent selection (ret a).
Proof. done. Qed.

Lemma silent_throw {A} err : silent selection (@throw A err).
Proof. done. Qed.

Lemma silent_get : silent selection get.
Proof. done. Qed.

Lemma silent_modify f : silent selection (modify f).
Proof. done. Qed.

Lemma silent_call c : selection c = None → silent selection (call c).
Proof. intros Hc st. simpl. by rewrite Hc. Qed.

Lemma silent_bind {A C} (m : M A) (k : A → M C) :
  silent selection m → (∀ a, silent selection (k a)) → silent selection (bind m k).
Proof.
  intros Hm Hk st. unfold bind. specialize (Hm st).
  destruct (m st) as [[a|err] st' first]; simpl in *; [|done].
  by rewrite omap_app, Hm, Hk.
Qed.

Lemma silent_when b m : silent selection m → silent selection (when b m).
Proof. destruct b; [done | intros _; apply silent_ret]. Qed.

Lemma silent_forEach {A} (l : list A) body :
  (∀ x, silent selection (body x)) → silent selection (forEach l body).
Proof.
  intros Hbody. induction l as [|x l IH]; [apply silent_ret|].
  apply silent_bind; [apply Hbody | intros _; apply IH].
Qed.

Lemma silent_adoptOutbound flows outbound : silent selection (adoptOutbound flows outbound).
Proof.
  induction flows as [|flow flows IH]; [apply silent_ret|]. simpl.
  destruct (last _); [|apply silent_throw].
  apply silent_bind; [apply IH | intros ?; apply silent_ret].
Qed.
End Silence.

Ltac frame_step :=
  first
    [ assumption
    | simple apply preserves_ret | simple apply preserves_throw
    | simple apply preserves_get | simple apply preserves_call
    | simple apply preserves_modify; intros ?; reflexivity
    | simple apply preserves_when
    | simple apply preserves_forEach; intros ?
    | simple apply preserves_adoptOutbound
    | simple apply preserves_bind; [|intros ?]
    | simple apply silent_ret | simple apply silent_throw
    | simple apply silent_get | simple apply silent_modify
    | simple apply silent_call; reflexivity
    | simple apply silent_when
    | simple apply silent_forEach; intros ?
    | simple apply silent_adoptOutbound
    | simple apply silent_bind; [|intros ?]
    | progress cbv zeta
    | match goal with
      | H : ∀ _ _, preserves _ _ |- _ => simple apply H
      | H : ∀ _ _, silent _ _ |- _ => simple apply H
      | |- preserves _ (match ?x with _ => _ end) => destruct x
      | |- preserves _ (if ?b then _ else _) => destruct b
      | |- silent _ (match ?x with _ => _ end) => destruct x
      | |- silent _ (if ?b then _ else _) => destruct b
      end ].

Ltac frame :=
  repeat first
    [ frame_step
    | progress unfold Activity.getUniqueId, Activity.createMessage, Activity.publishEvent,
        Activity.emitFatal, Activity.publishOnEvent, Activity.ackUnlessStep,
        Activity.consumeInbound,
        Activity.consumeApi, Activity.consumeRunQ, Activity.deactivateRunConsumers,
        Activity.initExecutionIdOrUnique, Activity.stateMessageContent,
        Activity.activate, Activity.deactivate, Activity.doRunOutbound,
        Activity.doOutbound, Activity.doRunLeave, Activity.resumeExtensions,
        Activity.runExecute, Activity.runOutbound, Activity.ackRunExecuteMessage ].

(** ** Saving and recovering *)

Section Snapshots.
Import Activity.
Import Scenario.
Local Open Scope activity_scope.

Lemma option_eta {A} (o : option A) : match o with Some a => Some a | None => None end = o.
Proof. by destruct o. Qed.

(** What [getState] returns is enough for [recover]. [getState] changes
    nothing; it asks the broker and, when there is one, the execution for
    their state, and returns the status, execution id, stopped flag and
    counters of the activity. An idle activity that recovers the returned
    object has that status, stopped flag, counters and execution id;
    [recover] recovers the execution, when one was saved, and then the
    broker. A [getState] that follows returns the same message keys,
    execution id, stopped flag and counters again, whatever the behaviour
    and the broker state are by then. *)
Theorem recover_getState {Behaviour BrokerState} self (behaviour behaviour' : Behaviour)
    (brokerState brokerState' : BrokerState) st target :
  isRunning target = false →
  let saving := getState self behaviour brokerState st in
  state saving = st
  ∧ calls saving
    = brokerGetState
        :: match Exec.execution (exec st) with
           | Some _ => [executionGetState]
           | None => []
           end
  ∧ ∃ saved,
      completion saving = returned saved
      ∧ Msg.status (savedMessage saved) = status st
      ∧ savedExecutionId saved = Exec.executionId (exec st)
      ∧ savedStopped saved = stopped st
      ∧ savedCounters saved = counters st
      ∧ let r := recover self (Some (asSnapshot saved)) target in
        completion r = returned ()
        ∧ calls r
          = match Exec.execution (exec st) with
            | Some _ => [executionRecover; brokerRecover]
            | None => [brokerRecover]
            end
        ∧ status (state r) = status st
        ∧ stopped (state r) = stopped st
        ∧ counters (state r) = counters st
        ∧ Exec.executionId (exec (state r)) = Exec.executionId (exec st)
        ∧ ∃ again,
            completion (getState self behaviour' brokerState' (state r)) = returned again
            ∧ savedMessage again = savedMessage saved
            ∧ savedExecutionId again = savedExecutionId saved
            ∧ savedStopped again = savedStopped saved
            ∧ savedCounters again = savedCounters saved.
Proof.
  intros Hidle saving. subst saving.
  unfold recover, getState, createMessage.
  rewrite !bind_bind, !bind_get, !bind_ret, !bind_get, !bind_call.
  destruct st as [status0 stopped0 consuming0 [taken0 discarded0] [initId execId execution0]
                    stateMessage0 executeMessage0 buffer0 generated0].
  cbn [status stopped counters exec Exec.executionId Exec.execution taken discarded].
  destruct execution0 as [execution|];
    (split; [reflexivity|]); (split; [reflexivity|]);
    eexists; (split; [reflexivity|]);
    cbn [asSnapshot savedStopped savedMessage savedExecutionId savedCounters savedExecution
           Snapshot.stopped Snapshot.status Snapshot.executionId Snapshot.counters
           Snapshot.execution Msg.status];
    rewrite ?option_eta; (do 4 (split; [reflexivity|]));
    rewrite bind_get, Hidle; cbv iota;
    rewrite !bind_modify, ?bind_bind, ?bind_call, ?bind_modify, ?bind_ret;
    cbn; rewrite ?option_eta; (do 6 (split; [reflexivity|]));
    destruct (Exec.execution (exec target)); eexists; repeat split.
Qed.

Lemma recover_getState_witness :
  isRunning initial = false
  ∧ ∃ saved : Saved () (),
      completion (getState (task [] false) () () executingState) = returned saved
      ∧ savedCounters saved = counters executingState
      ∧ let r := recover (task [] false) (Some (asSnapshot saved)) initial in
        status (state r) = Some Status.executing ∧ calls r = [brokerRecover].
Proof.
  split; [reflexivity|].
  destruct (recover_getState (task [] false) () () () () executingState initial eq_refl)
    as (_ & _ & saved & Hsaved & _ & _ & _ & Hcounters & _ & Hcalls & Hstatus & _).
  exists saved. split; [exact Hsaved|]. split; [exact Hcounters|].
  split; [exact Hstatus | exact Hcalls].
Defined.
End Snapshots.

(** ** Outbound flows *)

Section Outbound.
Import Activity.
Local Open Scope activity_scope.

Lemma drawn_S n st : drawn n (setGenerated (S (generated st)) st) = drawn (S n) st.
Proof.
  destruct n as [|n]; simpl.
  - unfold setGenerated. simpl. by rewrite Nat.add_1_r.
  - unfold setGenerated. simpl. do 2 f_equal. lia.
Qed.

Lemma doRunOutbound_run self outboundList content discardSequence st :
  doRunOutbound self outboundList content discardSequence st
  = {| completion := returned outboundList;
       state := drawn (length outboundList) st;
       calls := imap (λ i, outboundMessage self content discardSequence (generated st + i))
                  outboundList |}.
Proof.
  unfold doRunOutbound.
  assert (∀ st,
    forEach outboundList (λ outboundFlow,
      bind (getUniqueId self
              (FlowAction.id outboundFlow +:+ "_"
                 +:+ Action.name (FlowAction.action outboundFlow)))
        (λ sequenceId,
           call (publish "run"
                   ("run.outbound." +:+ Action.name (FlowAction.action outboundFlow))
                   (withFlow (outboundFlowContent outboundFlow sequenceId discardSequence)
                      (cloneContent content))
                   noProperties))) st
    = {| completion := returned ();
         state := drawn (length outboundList) st;
         calls := imap (λ i, outboundMessage self content discardSequence (generated st + i))
                    outboundList |}) as Hloop.
  { clear st. induction outboundList as [|f l IH]; intros st; [done|].
    cbn [forEach length imap].
    rewrite (bind_returned _ _ st ()
               (setGenerated (S (generated st)) st)
               [outboundMessage self content discardSequence (generated st) f])
      by reflexivity.
    rewrite IH. cbn [after completion state calls app].
    rewrite drawn_S. unfold after. cbn [completion state calls app generated setGenerated].
    rewrite Nat.add_0_r. do 2 f_equal. apply imap_ext. intros i x _. simpl.
    by rewrite Nat.add_succ_r. }
  cbv zeta. unfold bind. rewrite Hloop. unfold after, ret.
  cbn [completion state calls]. by rewrite app_nil_r.
Qed.

(** An activity without outbound flows hands an empty list on. *)
Lemma doOutbound_end self fromMessage isDiscarded callback st :
  outboundSequenceFlows self = [] →
  doOutbound self fromMessage isDiscarded callback st = callback None [] st.
Proof. unfold doOutbound. by intros ->. Qed.

(** A discarded activity discards every outbound flow. *)
Lemma doOutbound_discarded self fromMessage callback st :
  outboundSequenceFlows self ≠ [] →
  let discards :=
    (λ flow, formatFlowAction flow (FlowAction.just Action.discard))
      <$> outboundSequenceFlows self in
  let discardSequence := outboundDiscardSequence self (Msg.content fromMessage) true in
  doOutbound self fromMessage true callback st
  = after (imap (λ i, outboundMessage self (Msg.content fromMessage) discardSequence
                        (generated st + i)) discards)
      (callback None discards (drawn (length discards) st)).
Proof.
  intros Hflows discards discardSequence. unfold doOutbound.
  destruct (outboundSequenceFlows self) as [|flow flows] eqn:Hout; [done|].
  cbn [length Nat.eqb]. cbv zeta. rewrite bind_ret, after_nil.
  erewrite bind_returned by apply doRunOutbound_run. done.
Qed.

(** Without outbound records in the content, a taken activity evaluates
    its outbound flows. *)
Lemma doOutbound_evaluated self fromMessage callback st :
  outboundSequenceFlows self ≠ [] →
  Msg.outbound (Msg.content fromMessage) = None
  ∨ Msg.outbound (Msg.content fromMessage) = Some [] →
  let content := Msg.content fromMessage in
  let discardSequence := outboundDiscardSequence self content false in
  let evaluation' :=
    OutboundEvaluator.evaluate (outboundEvaluator self) fromMessage
      (Msg.outboundTakeOne content) in
  doOutbound self fromMessage false callback st
  = after (evaluation <$> OutboundEvaluator.calls evaluation')
      match OutboundEvaluator.outcome evaluation' with
      | OutboundEvaluator.callbackError err =>
          callback (Some (ActivityError (Msg.description err) fromMessage (Some err))) [] st
      | OutboundEvaluator.callbackResult evaluatedOutbound =>
          after (imap (λ i, outboundMessage self content discardSequence (generated st + i))
                   evaluatedOutbound)
            (callback None evaluatedOutbound (drawn (length evaluatedOutbound) st))
      end.
Proof.
  intros Hflows Hnone content discardSequence evaluation'. unfold doOutbound.
  destruct (outboundSequenceFlows self) as [|flow flows] eqn:Hout; [done|].
  cbn [length Nat.eqb]. cbv zeta.
  assert (∀ k : option (list FlowAction.t) → M (),
            bind match Msg.outbound (Msg.content fromMessage) with
                 | Some ((_ :: _) as outbound) =>
                     bind (adoptOutbound (flow :: flows) outbound) (λ adopted, ret (Some adopted))
                 | _ => ret None
                 end k st = k None st) as ->.
  { intros k. destruct Hnone as [->| ->]; by rewrite bind_ret, after_nil. }
  rewrite bind_forEach_calls. f_equal. subst evaluation' content discardSequence.
  destruct (OutboundEvaluator.outcome _) as [err|res]; [done|].
  erewrite bind_returned by apply doRunOutbound_run. done.
Qed.

(** With outbound records in the content, every outbound flow takes the
    last record of its id; no condition is evaluated. *)
Lemma doOutbound_adopted self fromMessage callback st first rest adopted :
  outboundSequenceFlows self ≠ [] →
  Msg.outbound (Msg.content fromMessage) = Some (first :: rest) →
  completion (adoptOutbound (outboundSequenceFlows self) (first :: rest) st)
  = returned adopted →
  let content := Msg.content fromMessage in
  let discardSequence := outboundDiscardSequence self content false in
  doOutbound self fromMessage false callback st
  = after (imap (λ i, outboundMessage self content discardSequence (generated st + i))
             adopted)
      (callback None adopted (drawn (length adopted) st)).
Proof.
  intros Hflows Houtbound Hadopted content discardSequence. unfold doOutbound.
  destruct (outboundSequenceFlows self) as [|flow flows] eqn:Hout; [done|].
  cbn [length Nat.eqb]. cbv zeta. fold content in Houtbound |- *. rewrite Houtbound.
  rewrite bind_bind.
  pose proof (preserves_adoptOutbound (λ st, st) (flow :: flows) (first :: rest) st) as Hstate.
  pose proof (silent_adoptOutbound Some (flow :: flows) (first :: rest) st) as Hcalls.
  destruct (adoptOutbound (flow :: flows) (first :: rest) st) as [c st' l] eqn:Hrun.
  simpl in Hstate, Hcalls, Hadopted. subst.
  assert (l = []) as -> by (by destruct l).
  rewrite (bind_returned _ _ _ _ _ _ Hrun), after_nil, bind_ret, after_nil.
  erewrite bind_returned by apply doRunOutbound_run. done.
Qed.
End Outbound.

Section Leave.
Import Activity.
Import Scenario.
Local Open Scope activity_scope.

Lemma ackUnlessStep_run self message st :
  ackUnlessStep self message st
  = {| completion := returned (); state := st;
       calls := if step self then [] else [ack message] |}.
Proof. unfold ackUnlessStep. by destruct (step self). Qed.

Lemma publishEvent_any self name content properties st :
  publishEvent self name (Some content) properties st
  = {| completion :=
         if unrouted self name then thrown (unhandled self (withState name content))
         else returned ();
       state := st; calls := [event name content properties] |}.
Proof.
  unfold publishEvent, publishOnEvent, unrouted, event.
  rewrite bind_ret, bind_call, after_nil. cbn [mandatory].
  by destruct (String.eqb name "error"), (errorConsumer self).
Qed.

Lemma publishEvent_run self name content properties st :
  String.eqb name "error" = false →
  publishEvent self name (Some content) properties st
  = {| completion := returned (); state := st; calls := [event name content properties] |}.
Proof. intros Hname. rewrite publishEvent_any. unfold unrouted. by rewrite Hname. Qed.

Lemma publishEvent_error self content properties st :
  publishEvent self "error" (Some content) properties st
  = {| completion :=
         if errorConsumer self then returned ()
         else thrown (unhandled self (withState "error" content));
       state := st; calls := [event "error" content properties] |}.
Proof. rewrite publishEvent_any. unfold unrouted. by destruct (errorConsumer self). Qed.

Lemma emitFatal_run self err content st :
  emitFatal self err content st
  = {| completion :=
         if errorConsumer self then returned ()
         else thrown (unhandled self (withError (Some err) content));
       state := st;
       calls := [publish "event" "activity.error" (withError (Some err) content)
                   {| correlationId := None; type := Some "error";
                      mandatory := Some true; persistent := None |}] |}.
Proof.
  unfold emitFatal, publishOnEvent. rewrite bind_call. cbn [mandatory].
  by destruct (errorConsumer self).
Qed.

(** A [run.discarded] message that is not redelivered publishes one
    [run.outbound.discard] message for every outbound flow, in declaration
    order and each with a sequence id drawn for it, then [run.leave], and is
    acknowledged last unless the activity runs in step mode; no condition is
    evaluated. The content of [run.leave] is the content of the message,
    with the discarded flows as [outbound] when it has no [outbound] list of
    its own: a list that the content brings is kept as it is. With
    [ignoreOutbound] only [run.leave] is published. The status becomes
    [discarded] and [counters.discarded] grows by one. (The discarded flows
    are one record per outbound flow, with the flow's id and the action
    [discard].) *)
Theorem discarded_run_discards_every_outbound_flow self routingKey message st :
  runKey routingKey = run_discarded →
  redelivered (Msg.fields message) = false →
  let content := Msg.content message in
  let discards :=
    (λ flow, formatFlowAction flow (FlowAction.just Action.discard))
      <$> outboundSequenceFlows self in
  let discardSequence := outboundDiscardSequence self content true in
  let r := continueRunMessage self routingKey message st in
  FlowAction.id <$> discards = Flow.id <$> outboundSequenceFlows self
  ∧ Forall (λ record, FlowAction.action record = Action.discard) discards
  ∧ completion r = returned ()
  ∧ calls r
    = (if Msg.ignoreOutbound content then []
       else imap (λ i, outboundMessage self content discardSequence (generated st + i))
              discards)
      ++ publish "run" "run.leave"
           (if Msg.ignoreOutbound content || (length discards =? 0) then content
            else match Msg.outbound content with
                 | Some _ => content
                 | None => withOutbound discards content
                 end)
           (correlated (correlationId (Msg.properties message)))
         :: (if step self then [] else [ack message])
  ∧ status (state r) = Some Status.discarded
  ∧ counters (state r) = addDiscarded (counters st)
  ∧ stateMessage (state r) = Some message.
Proof.
  intros Hkey Hfresh content discards discardSequence r.
  split; [subst discards; by rewrite <- list_fmap_compose|].
  split; [subst discards; by apply Forall_fmap, Forall_true|].
  subst r.
  unfold continueRunMessage. cbv zeta. rewrite Hkey, Hfresh. cbn [negb].
  rewrite !bind_modify, !after_nil.
  set (st' := setStatus _ _).
  unfold doRunLeave. cbv zeta.
  unfold cloneContentOutbound, cloneContent, cloneMessage. fold content.
  destruct (Msg.ignoreOutbound content) eqn:Hignore.
  - rewrite bind_call, ackUnlessStep_run. done.
  - destruct (decide (outboundSequenceFlows self = [])) as [Hnone|Hsome].
    + rewrite doOutbound_end by done. rewrite bind_call, ackUnlessStep_run.
      subst discards. rewrite Hnone. done.
    + rewrite doOutbound_discarded by done. fold content discards discardSequence.
      rewrite bind_call, ackUnlessStep_run.
      assert ((length discards =? 0) = false) as ->.
      { subst discards. rewrite length_fmap.
        destruct (outboundSequenceFlows self); [done|]. done. }
      unfold after. cbn [completion state calls orb].
      split; [done|]. split; [done|].
      destruct (length discards); done.
Qed.

Lemma discarded_run_discards_every_outbound_flow_witness :
  let message := delivered "run.discarded" false firstRun in
  let r := continueRunMessage forking "run.discarded" message initial in
  runKey "run.discarded" = run_discarded
  ∧ redelivered (Msg.fields message) = false
  ∧ completion r = returned ()
  ∧ status (state r) = Some Status.discarded
  ∧ counters (state r) = {| taken := 0; discarded := 1 |}
  ∧ published "run" "run.outbound.take" (calls r) = []
  ∧ Msg.outbound <$> published "run" "run.leave" (calls r)
    = [Some [discardOf toC; discardOf defaultFlow]].
Proof.
  intros message r. split; [reflexivity|]. split; [reflexivity|].
  destruct (discarded_run_discards_every_outbound_flow forking "run.discarded" message
              initial eq_refl eq_refl)
    as (_ & _ & Hcompletion & Hcalls & Hstatus & Hcounters & _).
  split; [exact Hcompletion|]. split; [exact Hstatus|]. split; [exact Hcounters|].
  subst r. rewrite Hcalls. split; reflexivity.
Defined.

Lemma adoptOutbound_run flows outbound st :
  adoptOutbound flows outbound st
  = match mapM (λ flow,
                  last (List.filter (λ f, String.eqb (FlowAction.id f) (Flow.id flow))
                          outbound)) flows with
    | Some options =>
        {| completion := returned (zip_with formatFlowAction flows options);
           state := st; calls := [] |}
    | None =>
        {| completion :=
             thrown (typeError "Cannot read properties of undefined (reading 'action')");
           state := st; calls := [] |}
    end.
Proof.
  induction flows as [|flow flows IH]; [done|]. cbn [adoptOutbound mapM].
  destruct (last _) as [options|]; [|done]. simpl.
  unfold bind. rewrite IH. by destruct (mapM _ flows).
Qed.

(** A [run.end] message that is not redelivered, of an activity with
    outbound flows and no outbound records in the content, evaluates the
    outbound flows. When the evaluation fails, the activity publishes an
    [activity.error] event that carries an [ActivityError] around the
    failure, and neither [run.leave] nor the [activity.end] event; the
    message is not acknowledged, and the publication throws when no
    consumer is bound for the event. Otherwise it publishes one
    [run.outbound.*] message per evaluated flow, then [run.leave], then the
    [activity.end] event, and acknowledges the message; [run.leave] carries
    the evaluation result as [outbound] when the content has no [outbound]
    list, and the content as it is when it has an empty one. In both cases
    the status is [end] and [counters.taken] has grown by one. *)
Theorem taken_run_evaluates_outbound_flows self routingKey message st :
  runKey routingKey = run_end →
  redelivered (Msg.fields message) = false →
  status st ≠ Some Status.end_ →
  let content := Msg.content message in
  Msg.ignoreOutbound content = false →
  outboundSequenceFlows self ≠ [] →
  Msg.outbound content = None ∨ Msg.outbound content = Some [] →
  let properties := correlated (correlationId (Msg.properties message)) in
  let discardSequence := outboundDiscardSequence self content false in
  let evaluation' :=
    OutboundEvaluator.evaluate (outboundEvaluator self) message
      (Msg.outboundTakeOne content) in
  let r := continueRunMessage self routingKey message st in
  status (state r) = Some Status.end_
  ∧ counters (state r) = addTaken (counters st)
  ∧ match OutboundEvaluator.outcome evaluation' with
    | OutboundEvaluator.callbackError err =>
        let failure :=
          withError (Some (ActivityError (Msg.description err) message (Some err)))
            content in
        calls r
        = (evaluation <$> OutboundEvaluator.calls evaluation')
          ++ [event "error" failure properties]
        ∧ completion r
          = if errorConsumer self then returned ()
            else thrown (unhandled self (withState "error" failure))
    | OutboundEvaluator.callbackResult evaluatedOutbound =>
        calls r
        = (evaluation <$> OutboundEvaluator.calls evaluation')
          ++ imap (λ i, outboundMessage self content discardSequence (generated st + i))
               evaluatedOutbound
          ++ publish "run" "run.leave"
               (if length evaluatedOutbound =? 0 then content
                else match Msg.outbound content with
                     | Some _ => content
                     | None => withOutbound evaluatedOutbound content
                     end)
               properties
             :: event "end" content properties
             :: (if step self then [] else [ack message])
        ∧ completion r = returned ()
    end.
Proof.
  intros Hkey Hfresh Hstatus content Hignore Hflows Houtbound properties discardSequence
    evaluation' r. subst r.
  unfold continueRunMessage. cbv zeta. rewrite Hkey, Hfresh.
  rewrite bind_modify, bind_get, !after_nil.
  cbn [status setStateMessage]. rewrite bool_decide_eq_false_2 by done.
  rewrite !bind_modify, !after_nil.
  set (st' := setStatus _ _).
  unfold doRunLeave. cbv zeta.
  unfold cloneContentOutbound, cloneContent, cloneMessage. fold content.
  rewrite Hignore. rewrite doOutbound_evaluated by done.
  fold content discardSequence evaluation' properties.
  destruct (OutboundEvaluator.outcome evaluation') as [err|res].
  - rewrite publishEvent_error. unfold after. cbn [completion state calls].
    by destruct (errorConsumer self).
  - rewrite bind_call. erewrite bind_returned by by apply publishEvent_run.
    rewrite ackUnlessStep_run. unfold after. cbn [completion state calls].
    split; [by destruct (length res)|]. split; [by destruct (length res)|].
    done.
Qed.

Lemma taken_run_evaluates_outbound_flows_witness :
  let message := delivered "run.end" false firstRun in
  let r := continueRunMessage forking "run.end" message initial in
  runKey "run.end" = run_end
  ∧ status initial ≠ Some Status.end_
  ∧ outboundSequenceFlows forking ≠ []
  ∧ completion r = returned ()
  ∧ status (state r) = Some Status.end_
  ∧ counters (state r) = {| taken := 1; discarded := 0 |}.
Proof.
  intros message r. split; [reflexivity|]. split; [discriminate|]. split; [discriminate|].
  destruct (taken_run_evaluates_outbound_flows forking "run.end" message initial eq_refl
              eq_refl ltac:(discriminate) eq_refl ltac:(discriminate) (or_introl eq_refl))
    as (Hstatus & Hcounters & Hresult).
  hnf in Hresult. destruct Hresult as [_ Hcompletion].
  split; [exact Hcompletion|]. split; [exact Hstatus | exact Hcounters].
Defined.
End Leave.

(** ** Acknowledgements *)

Section Within.
Import Activity.
Local Open Scope activity_scope.
Context {X : Type} (selection : Call → option X) (l : list X).

Lemma within_silent {A} (m : M A) : silent selection m → within selection l m.
Proof. intros Hm st. by left. Qed.

Lemma within_bind {A C} (m : M A) (k : A → M C) :
  silent selection m → (∀ a, within selection l (k a)) → within selection l (bind m k).
Proof.
  intros Hm Hk st. unfold bind. specialize (Hm st).
  destruct (m st) as [[a|err] st' first]; simpl in *; [|by left].
  rewrite omap_app, Hm. apply Hk.
Qed.

Lemma within_bind_first {A C} (m : M A) (k : A → M C) :
  within selection l m → (∀ a, silent selection (k a)) → within selection l (bind m k).
Proof.
  intros Hm Hk st. unfold bind. specialize (Hm st).
  destruct (m st) as [[a|err] st' first]; simpl in *; [|done].
  by rewrite omap_app, Hk, app_nil_r.
Qed.

Lemma within_call c : selection c = None ∨ option_list (selection c) = l →
  within selection l (call c).
Proof.
  intros [Hc|Hc] st; simpl.
  - left. by rewrite Hc.
  - right. rewrite <- Hc. by destruct (selection c).
Qed.
End Within.

Ltac silence := solve [frame].

Section Acknowledgements.
Import Activity.
Import Scenario.
Local Open Scope activity_scope.

Lemma within_ackUnlessStep self message :
  within acknowledged [message] (ackUnlessStep self message).
Proof. intros st. rewrite ackUnlessStep_run. destruct (step self); [by left | by right]. Qed.

Lemma within_doOutbound self fromMessage isDiscarded callback (l : list Message) :
  (∀ err outbound, within acknowledged l (callback err outbound)) →
  within acknowledged l (doOutbound self fromMessage isDiscarded callback).
Proof.
  intros Hcallback. unfold doOutbound. cbv zeta.
  destruct (length _ =? 0); [done|].
  apply within_bind; [silence|]. intros [outboundFlows|].
  - apply within_bind; [silence | done].
  - apply within_bind; [silence|]. intros _.
    destruct (OutboundEvaluator.outcome _); [done|].
    apply within_bind; [silence | done].
Qed.

Lemma within_doRunLeave self message isDiscarded onOutbound (l : list Message) :
  within acknowledged l onOutbound →
  within acknowledged l (doRunLeave self message isDiscarded onOutbound).
Proof.
  intros Hnext. unfold doRunLeave. cbv zeta. destruct (Msg.ignoreOutbound _).
  - apply within_bind; [silence | done].
  - apply within_doOutbound. intros [err|] outbound.
    + apply within_silent. silence.
    + apply within_bind; [silence | done].
Qed.

Lemma continueRunMessage_within self routingKey message :
  within acknowledged [message] (continueRunMessage self routingKey message).
Proof.
  unfold continueRunMessage. cbv zeta.
  apply within_bind; [silence|]. intros _.
  pose proof (within_ackUnlessStep self message) as Hack.
  destruct (runKey routingKey);
    repeat first
      [ assumption
      | apply within_silent; silence
      | apply within_doRunLeave
      | apply within_bind; [silence | intros ?]
      | match goal with
        | |- within _ _ (if ?b then _ else _) => destruct b
        | |- within _ _ (match ?x with _ => _ end) => destruct x
        end ].
  all: unfold runOutbound; destruct (Msg.flow _); [|apply within_silent; silence].
  all: apply within_bind_first; [apply within_call; by right | intros _; silence].
Qed.

Lemma doRunLeave_discarded self message onOutbound st :
  let content := Msg.content message in
  let discards :=
    (λ flow, formatFlowAction flow (FlowAction.just Action.discard))
      <$> outboundSequenceFlows self in
  let discardSequence := outboundDiscardSequence self content true in
  doRunLeave self message true onOutbound st
  = after
      ((if Msg.ignoreOutbound content then []
        else imap (λ i, outboundMessage self content discardSequence (generated st + i))
               discards)
       ++ [publish "run" "run.leave"
             (if Msg.ignoreOutbound content || (length discards =? 0) then content
              else match Msg.outbound content with
                   | Some _ => content
                   | None => withOutbound discards content
                   end)
             (correlated (correlationId (Msg.properties message)))])
      (onOutbound
         (if Msg.ignoreOutbound content then st else drawn (length discards) st)).
Proof.
  intros content discards discardSequence.
  unfold doRunLeave. cbv zeta.
  unfold cloneContentOutbound, cloneContent, cloneMessage. fold content.
  destruct (Msg.ignoreOutbound content) eqn:Hignore.
  - by rewrite bind_call.
  - destruct (decide (outboundSequenceFlows self = [])) as [Hnone|Hsome].
    + rewrite doOutbound_end by done. rewrite bind_call.
      subst discards. rewrite Hnone. done.
    + rewrite doOutbound_discarded by done. fold content discards discardSequence.
      rewrite bind_call, after_after.
      assert ((length discards =? 0) = false) as ->; [|done].
      subst discards. rewrite length_fmap.
      by destruct (outboundSequenceFlows self).
Qed.

Lemma quietly_ret {A} (a : A) : quietly (ret a).
Proof. intros st. split; [by exists a | done]. Qed.

Lemma quietly_get : quietly get.
Proof. intros st. split; [by exists st | done]. Qed.

Lemma quietly_modify f : quietly (modify f).
Proof. intros st. split; [by exists () | done]. Qed.

Lemma quietly_call c : acknowledged c = None → quietly (call c).
Proof. intros Hc st. split; [by exists ()|]. simpl. by rewrite Hc. Qed.

Lemma quietly_bind {A C} (m : M A) (k : A → M C) :
  quietly m → (∀ a, quietly (k a)) → quietly (bind m k).
Proof.
  intros Hm Hk st. unfold bind. destruct (Hm st) as [[a Ha] Hquiet].
  destruct (m st) as [c st' first]. simpl in *. subst c.
  destruct (Hk a st') as [[b Hb] Hquiet']. unfold after. simpl.
  split; [by exists b|]. by rewrite omap_app, Hquiet, Hquiet'.
Qed.

Lemma quietly_when b m : quietly m → quietly (when b m).
Proof. destruct b; [done | intros _; apply quietly_ret]. Qed.

Lemma acknowledges_bind {A} message (m : M A) (k : A → M unit) :
  quietly m → (∀ a, acknowledges message (k a)) → acknowledges message (bind m k).
Proof.
  intros Hm Hk st. unfold bind. destruct (Hm st) as [[a Ha] Hquiet].
  destruct (m st) as [c st' first]. simpl in *. subst c.
  destruct (Hk a st') as (Hreturned & earlier & Hcalls & Hearlier). unfold after. simpl.
  split; [done|]. exists (first ++ earlier).
  split; [by rewrite Hcalls, app_assoc | by rewrite omap_app, Hquiet, Hearlier].
Qed.

Lemma acknowledges_ackUnlessStep self message :
  step self = false → acknowledges message (ackUnlessStep self message).
Proof. intros Hstep st. rewrite ackUnlessStep_run, Hstep. split; [done|]. by exists []. Qed.

Lemma omap_imap_none {X Y Z} (selection : Y → option Z) (f : nat → X → Y) l :
  (∀ i x, selection (f i x) = None) → omap selection (imap f l) = [].
Proof.
  revert f. induction l as [|x l IH]; intros f Hf; [done|].
  cbn [imap]. change (omap selection (?a :: ?b)) with
    (match selection a with Some z => z :: omap selection b | None => omap selection b end).
  rewrite Hf. apply IH. intros i y. apply Hf.
Qed.

Lemma acknowledges_doRunLeave_discarded self message onOutbound :
  acknowledges message onOutbound →
  acknowledges message (doRunLeave self message true onOutbound).
Proof.
  intros Hnext st. rewrite doRunLeave_discarded. cbv zeta.
  set (st' := if Msg.ignoreOutbound _ then st else _).
  destruct (Hnext st') as (Hreturned & earlier & Hcalls & Hearlier).
  unfold after. cbn [completion calls]. split; [done|].
  eexists. rewrite Hcalls, app_assoc. split; [done|].
  rewrite !omap_app, Hearlier, app_nil_r. cbn [omap acknowledged]. rewrite app_nil_r.
  destruct (Msg.ignoreOutbound (Msg.content message)); [done|].
  by apply omap_imap_none.
Qed.

Lemma quietly_publishEvent self name content properties :
  String.eqb name "error" = false →
  quietly (publishEvent self name (Some content) properties).
Proof. intros Hname st. rewrite publishEvent_run by done. split; [by exists ()|done]. Qed.

Ltac quiet :=
  repeat first
    [ assumption
    | simple apply quietly_ret | simple apply quietly_get | simple apply quietly_modify
    | simple apply quietly_call; reflexivity
    | simple apply quietly_publishEvent; reflexivity
    | simple apply quietly_when
    | simple apply quietly_bind; [|intros ?]
    | progress cbv zeta
    | progress unfold Activity.createMessage, Activity.consumeInbound
    | match goal with
      | |- quietly (match ?x with _ => _ end) => destruct x
      | |- quietly (if ?b then _ else _) => destruct b
      end ].

Lemma continueRunMessage_step self routingKey message :
  step self = true →
  runKey routingKey ≠ run_outbound_take →
  runKey routingKey ≠ run_outbound_discard →
  silent acknowledged (continueRunMessage self routingKey message).
Proof.
  intros Hstep Htake Hdiscard.
  unfold continueRunMessage, ackUnlessStep. cbv zeta. rewrite Hstep. cbn [negb when].
  destruct (runKey routingKey); try done; frame.
Qed.

(** [_continueRunMessage] acknowledges no message but the one it handles,
    and that one at most once. In step mode it acknowledges nothing unless
    the message is a [run.outbound.*] message.
    Outside step mode the messages [run.enter], [run.discard],
    [run.start], [run.discarded], [run.leave], [run.next], [run.resume] and
    those with an unknown routing key are handled without an exception and
    acknowledged as the last thing the handler does; so is [run.error] when
    a consumer is bound for the [error] event, and when none is the
    publication of the event throws and the message is not acknowledged. *)
Theorem run_messages_are_acknowledged_at_most_once self routingKey message st :
  let r := continueRunMessage self routingKey message st in
  let acks := omap acknowledged (calls r) in
  (acks = [] ∨ acks = [message])
  ∧ (step self = true →
     runKey routingKey ≠ run_outbound_take →
     runKey routingKey ≠ run_outbound_discard →
     acks = [])
  ∧ (step self = false →
     (runKey routingKey
        ∈ [run_enter; run_discard; run_start; run_discarded; run_leave;
           run_next; run_resume; run_other]
      ∨ (runKey routingKey = run_error ∧ errorConsumer self = true)) →
     completion r = returned ()
     ∧ ∃ earlier, calls r = earlier ++ [ack message]
                  ∧ omap acknowledged earlier = [])
  ∧ (runKey routingKey = run_error →
     errorConsumer self = false →
     (∃ err, completion r = thrown err) ∧ acks = []).
Proof.
  intros r acks. split; [apply continueRunMessage_within|]. split.
  - intros Hstep Htake Hdiscard. by apply continueRunMessage_step.
  - split; cycle 1.
    { intros Hkey Hnone. subst acks r. unfold continueRunMessage. cbv zeta.
      rewrite Hkey, bind_modify, after_nil.
      erewrite bind_thrown by (rewrite publishEvent_error, Hnone; reflexivity).
      split; [by eexists | done]. }
    intros Hstep Hkey. subst acks r. revert st.
    assert (runKey routingKey
              ∈ [run_enter; run_discard; run_start; run_discarded; run_leave;
                 run_next; run_resume; run_other]
            ∨ runKey routingKey = run_error ∧ errorConsumer self = true) as Hkey'
      by done.
    clear Hkey. destruct Hkey' as [Hkey|[Hkey Hconsumer]]; cycle 1.
    { intros st. unfold continueRunMessage. cbv zeta.
      rewrite Hkey, bind_modify, after_nil.
      erewrite bind_returned by (rewrite publishEvent_error, Hconsumer; reflexivity).
      rewrite ackUnlessStep_run, Hstep. split; [done|]. eexists. split; [done|done]. }
    change (acknowledges message (continueRunMessage self routingKey message)).
    pose proof (acknowledges_ackUnlessStep self message Hstep) as Hack.
    unfold continueRunMessage. cbv zeta.
    apply acknowledges_bind; [quiet|]. intros _.
    repeat (apply elem_of_cons in Hkey as [->|Hkey]); [..| by apply elem_of_nil in Hkey].
    all: repeat first
           [ assumption
           | apply acknowledges_doRunLeave_discarded
           | apply acknowledges_bind; [quiet | intros ?]
           | match goal with
             | |- acknowledges _ (if ?b then _ else _) => destruct b
             end ].
Qed.

Lemma run_messages_are_acknowledged_at_most_once_witness :
  let message := delivered "run.error" false firstRun in
  let r := continueRunMessage (task [] false) "run.error" message initial in
  step (task [] false) = false
  ∧ runKey "run.error" = run_error
  ∧ errorConsumer (task [] false) = true
  ∧ completion r = returned ()
  ∧ ∃ earlier, calls r = earlier ++ [ack message] ∧ omap acknowledged earlier = [].
Proof.
  intros message r. do 3 (split; [reflexivity|]).
  destruct (run_messages_are_acknowledged_at_most_once (task [] false) "run.error" message
              initial) as (_ & _ & Hlast & _).
  apply Hlast; [reflexivity|]. right. split; reflexivity.
Defined.
End Acknowledgements.

(** ** Step mode *)

Section Step.
Import Activity.
Import Scenario.
Local Open Scope activity_scope.

Lemma preserves_new_execution {B} (part : State → B) :
  (∀ v st, part (setExec v st) = part st) →
  preserves part
    (modify (λ st, match Exec.execution (exec st) with
                   | Some _ => st
                   | None => setExec (setExecution (Some {| completed := false |}) (exec st)) st
                   end)).
Proof. intros Hpart st. simpl. by destruct (Exec.execution (exec st)). Qed.

Lemma continueRunMessage_stateMessage self routingKey message st :
  stateMessage (state (continueRunMessage self routingKey message st)) = Some message.
Proof.
  unfold continueRunMessage. cbv zeta. rewrite bind_modify, after_nil.
  set (st' := setStateMessage _ _).
  change (Some message) with (stateMessage st').
  match goal with |- stateMessage (state (?m st')) = _ =>
    refine ((_ : preserves stateMessage m) st') end.
  destruct (runKey routingKey); frame; by apply preserves_new_execution.
Qed.

Lemma continueRunMessage_status self routingKey message st :
  runKey routingKey
    ∈ [run_enter; run_discard; run_start; run_end; run_discarded; run_leave] →
  status (state (continueRunMessage self routingKey message st))
  = transition (runKey routingKey) (status st).
Proof.
  intros Hkey. unfold continueRunMessage. cbv zeta. rewrite bind_modify, after_nil.
  set (st' := setStateMessage _ _). change (status st) with (status st'). clearbody st'.
  repeat (apply elem_of_cons in Hkey as [->|Hkey]); [..| by apply elem_of_nil in Hkey];
    cbn [transition]; rewrite ?bind_get, ?bind_modify, ?after_nil.
  all: try case_bool_decide; rewrite ?bind_modify, ?after_nil.
  all: try match goal with
           | |- status (state (?m ?s)) = Some ?v =>
               transitivity (status s); [|done];
               refine ((_ : preserves status m) s); frame
           | |- status (state (?m ?s)) = None =>
               transitivity (status s); [|done];
               refine ((_ : preserves status m) s); frame
           end.
Qed.

Lemma runExecute_status self message st :
  status (state (runExecute self message st)) = Some Status.executing
  ∨ status (state (runExecute self message st)) = Some Status.formatting.
Proof.
  unfold runExecute, resumeExtensions, when.
  rewrite !bind_modify, bind_call, bind_modify, !after_nil.
  set (st' := match Exec.execution _ with Some _ => _ | None => _ end).
  assert (status st' = Some Status.executing) as Hst'.
  { subst st'. cbn. by destruct (Exec.execution (exec st)). }
  clearbody st'.
  destruct (redelivered _); [|by left].
  destruct (negb (extensions self) && negb (bpmnIo self)).
  { rewrite bind_modify. by left. }
  destruct (extensions self), (bpmnIo self), (formatter self message);
    rewrite ?bind_ret, ?bind_call, ?bind_modify, ?after_nil; cbn; auto;
    destruct (errorConsumer self); auto.
Qed.

(** In step mode a run message is left unacknowledged by its handler and
    kept as the state message: after [run.enter], [run.discard],
    [run.start], [run.end], [run.discarded] or [run.leave], a call of
    [next] acknowledges exactly that message and returns it. After
    [run.execute] the status is [executing] or [formatting], and [next]
    acknowledges nothing. *)
Theorem next_acknowledges_the_run_message self routingKey message st :
  step self = true →
  let r := continueRunMessage self routingKey message st in
  (runKey routingKey
     ∈ [run_enter; run_discard; run_start; run_end; run_discarded; run_leave] →
   omap acknowledged (calls r) = []
   ∧ next self (state r)
     = {| completion := returned (Some message); state := state r;
          calls := [ack message] |})
  ∧ (runKey routingKey = run_execute →
     omap acknowledged (calls r) = []
     ∧ next self (state r)
       = {| completion := returned None; state := state r; calls := [] |}).
Proof.
  intros Hstep r.
  assert (∀ current s,
            stateMessage (state r) = Some current →
            status (state r) = s →
            s ≠ Some Status.executing → s ≠ Some Status.formatting →
            next self (state r)
            = {| completion := returned (Some current); state := state r;
                 calls := [ack current] |}) as Hnext.
  { intros current s Hcurrent Hs Hexecuting Hformatting.
    unfold next. rewrite bind_get, after_nil, Hstep, Hcurrent, Hs. cbn [negb].
    destruct s as [[]|]; done. }
  split.
  - intros Hkey. split.
    + apply continueRunMessage_step; [done|..]; intros Heq; rewrite Heq in Hkey;
        repeat (apply elem_of_cons in Hkey as [?|Hkey]); try done;
        by apply elem_of_nil in Hkey.
    + eapply Hnext; [apply continueRunMessage_stateMessage
                    | by apply continueRunMessage_status |..];
        repeat (apply elem_of_cons in Hkey as [->|Hkey]); try done;
        by apply elem_of_nil in Hkey.
  - intros Hkey. split.
    + apply continueRunMessage_step; [done|..]; by rewrite Hkey.
    + unfold next. rewrite bind_get, after_nil, Hstep. cbn [negb].
      subst r. rewrite continueRunMessage_stateMessage.
      destruct (runExecute_status self message (setStateMessage (Some message) st))
        as [Hs|Hs]; revert Hs; unfold continueRunMessage; cbv zeta;
        rewrite Hkey, bind_modify, after_nil; by intros ->.
Qed.

Lemma next_acknowledges_the_run_message_witness :
  let message := delivered "run.enter" false firstRun in
  let r := continueRunMessage stepTask "run.enter" message initial in
  step stepTask = true
  ∧ omap acknowledged (calls r) = []
  ∧ completion (next stepTask (state r)) = returned (Some message)
  ∧ calls (next stepTask (state r)) = [ack message].
Proof.
  intros message r. split; [reflexivity|].
  destruct (next_acknowledges_the_run_message stepTask "run.enter" message initial eq_refl)
    as [Hsimple _].
  destruct Hsimple as [Hsilent Hnext]; [apply list_elem_of_here|].
  split; [exact Hsilent|]. subst r. rewrite Hnext. split; reflexivity.
Defined.
End Step.

Section Adopt.
Import Activity.
Import Scenario.
Local Open Scope activity_scope.

Lemma adoptOutbound_records flows outbound st :
  adoptOutbound flows outbound st
  = match mapM (adoptedRecord outbound) flows with
    | Some options =>
        {| completion := returned (zip_with formatFlowAction flows options);
           state := st; calls := [] |}
    | None =>
        {| completion :=
             thrown (typeError "Cannot read properties of undefined (reading 'action')");
           state := st; calls := [] |}
    end.
Proof. apply adoptOutbound_run. Qed.

Lemma doOutbound_unadopted self fromMessage callback st first rest :
  outboundSequenceFlows self ≠ [] →
  Msg.outbound (Msg.content fromMessage) = Some (first :: rest) →
  mapM (adoptedRecord (first :: rest)) (outboundSequenceFlows self) = None →
  doOutbound self fromMessage false callback st
  = {| completion :=
         thrown (typeError "Cannot read properties of undefined (reading 'action')");
       state := st; calls := [] |}.
Proof.
  intros Hflows Houtbound Hnone. unfold doOutbound.
  destruct (outboundSequenceFlows self) as [|flow flows] eqn:Hout; [done|].
  cbn [length Nat.eqb]. cbv zeta. rewrite Houtbound, bind_bind.
  erewrite bind_thrown; [done|]. by rewrite adoptOutbound_records, Hnone.
Qed.

(** A [run.end] message whose content lists outbound records makes the
    activity adopt, for every outbound flow, the last record of the flow's
    id: it publishes the adopted records as [run.outbound.*] messages, then
    [run.leave], whose content is the content of the message with the
    outbound records as they came, then the [activity.end] event, and
    acknowledges the message. When some outbound flow has no record, a
    [TypeError] is thrown before anything is published or acknowledged. In
    both cases the status is [end] already and [counters.taken] has grown
    by one. *)
Theorem taken_run_adopts_outbound_records self routingKey message st first rest :
  runKey routingKey = run_end →
  redelivered (Msg.fields message) = false →
  status st ≠ Some Status.end_ →
  let content := Msg.content message in
  Msg.ignoreOutbound content = false →
  outboundSequenceFlows self ≠ [] →
  Msg.outbound content = Some (first :: rest) →
  let properties := correlated (correlationId (Msg.properties message)) in
  let discardSequence := outboundDiscardSequence self content false in
  let r := continueRunMessage self routingKey message st in
  status (state r) = Some Status.end_
  ∧ counters (state r) = addTaken (counters st)
  ∧ match mapM (adoptedRecord (first :: rest)) (outboundSequenceFlows self) with
    | Some records =>
        let adopted := zip_with formatFlowAction (outboundSequenceFlows self) records in
        completion r = returned ()
        ∧ calls r
          = imap (λ i, outboundMessage self content discardSequence (generated st + i))
              adopted
            ++ publish "run" "run.leave" content properties
               :: event "end" content properties
               :: (if step self then [] else [ack message])
        ∧ Msg.outbound <$> published "run" "run.leave" (calls r)
          = [Some (first :: rest)]
    | None =>
        completion r
        = thrown (typeError "Cannot read properties of undefined (reading 'action')")
        ∧ calls r = []
    end.
Proof.
  intros Hkey Hfresh Hstatus content Hignore Hflows Houtbound properties discardSequence r.
  subst r. unfold continueRunMessage. cbv zeta. rewrite Hkey, Hfresh.
  rewrite bind_modify, bind_get, !after_nil.
  cbn [status setStateMessage]. rewrite bool_decide_eq_false_2 by done.
  rewrite !bind_modify, !after_nil.
  set (st' := setStatus _ _).
  unfold doRunLeave. cbv zeta.
  unfold cloneContentOutbound, cloneContent, cloneMessage. fold content.
  rewrite Hignore, Houtbound.
  destruct (mapM _ _) as [records|] eqn:Hrecords.
  - erewrite doOutbound_adopted; [|done..|by rewrite adoptOutbound_records, Hrecords].
    fold content discardSequence properties.
    set (adopted := zip_with _ _ _).
    assert ((length adopted =? 0) = false) as ->.
    { subst adopted. apply length_mapM in Hrecords.
      rewrite length_zip_with, <- Hrecords, Nat.min_id.
      by destruct (outboundSequenceFlows self). }
    rewrite bind_call. erewrite bind_returned by by apply publishEvent_run.
    rewrite ackUnlessStep_run. unfold after. cbn [completion state calls].
    split; [by destruct (length adopted)|]. split; [by destruct (length adopted)|].
    split; [done|]. split; [done|].
    unfold published. rewrite omap_app, omap_imap_none.
    + destruct (step self); cbn; by rewrite Houtbound.
    + intros i x. unfold outboundMessage. cbv zeta.
      by destruct (FlowAction.action x).
  - erewrite doOutbound_unadopted by done. done.
Qed.

Lemma taken_run_adopts_outbound_records_witness :
  let record := formatFlowAction toC (FlowAction.just Action.discard) in
  let message := delivered "run.end" false (withOutbound [record] firstRun) in
  let r := continueRunMessage (task [toC] false) "run.end" message initial in
  runKey "run.end" = run_end
  ∧ status initial ≠ Some Status.end_
  ∧ Msg.outbound (Msg.content message) = Some [record]
  ∧ status (state r) = Some Status.end_
  ∧ counters (state r) = {| taken := 1; discarded := 0 |}.
Proof.
  intros record message r. split; [reflexivity|]. split; [discriminate|].
  split; [reflexivity|].
  destruct (taken_run_adopts_outbound_records (task [toC] false) "run.end" message initial
              record [] eq_refl eq_refl ltac:(discriminate) eq_refl ltac:(discriminate)
              eq_refl)
    as (Hstatus & Hcounters & _).
  split; [exact Hstatus | exact Hcounters].
Defined.
(** A [run.end] message that is not redelivered, of an activity without
    outbound flows or with [ignoreOutbound] in the content, publishes
    [run.leave] with the content as it is and the [activity.end] event,
    and is acknowledged unless the activity runs in step mode; nothing is
    evaluated and no [run.outbound.*] message is published. *)
Theorem taken_run_without_outbound_flows self routingKey message st :
  runKey routingKey = run_end →
  redelivered (Msg.fields message) = false →
  status st ≠ Some Status.end_ →
  let content := Msg.content message in
  Msg.ignoreOutbound content = true ∨ outboundSequenceFlows self = [] →
  let properties := correlated (correlationId (Msg.properties message)) in
  continueRunMessage self routingKey message st
  = {| completion := returned ();
       state :=
         setStatus (Some Status.end_)
           (setCounters (addTaken (counters st)) (setStateMessage (Some message) st));
       calls :=
         publish "run" "run.leave" content properties
         :: event "end" content properties
         :: (if step self then [] else [ack message]) |}.
Proof.
  intros Hkey Hfresh Hstatus content Hnone properties.
  unfold continueRunMessage. cbv zeta. rewrite Hkey, Hfresh.
  rewrite bind_modify, bind_get, !after_nil.
  cbn [status setStateMessage]. rewrite bool_decide_eq_false_2 by done.
  rewrite !bind_modify, !after_nil.
  unfold doRunLeave. cbv zeta. unfold cloneContent, cloneMessage. fold content properties.
  assert (∀ st',
    bind (call (publish "run" "run.leave" content properties))
      (λ _, bind (publishEvent self "end" (Some content) properties)
              (λ _, ackUnlessStep self message)) st'
    = {| completion := returned (); state := st';
         calls := publish "run" "run.leave" content properties
                  :: event "end" content properties
                  :: (if step self then [] else [ack message]) |}) as Hleave.
  { intros st'. rewrite bind_call. erewrite bind_returned by by apply publishEvent_run.
    by rewrite ackUnlessStep_run. }
  destruct (Msg.ignoreOutbound content) eqn:Hignore.
  - by rewrite Hleave.
  - destruct Hnone as [?|Hnone]; [done|]. rewrite doOutbound_end by done.
    cbn [length Nat.eqb]. by rewrite Hleave.
Qed.

Lemma taken_run_without_outbound_flows_witness :
  let message := delivered "run.end" false firstRun in
  runKey "run.end" = run_end
  ∧ status initial ≠ Some Status.end_
  ∧ outboundSequenceFlows (task [] false) = []
  ∧ calls (continueRunMessage (task [] false) "run.end" message initial)
    = [publish "run" "run.leave" firstRun noProperties;
       event "end" firstRun noProperties;
       ack message].
Proof.
  intros message. split; [reflexivity|]. split; [discriminate|]. split; [reflexivity|].
  rewrite (taken_run_without_outbound_flows (task [] false) "run.end" message initial
             eq_refl eq_refl ltac:(discriminate) (or_intror eq_refl)).
  reflexivity.
Defined.
End Adopt.

Section Delivery.
Import Activity.
Import Scenario.
Local Open Scope activity_scope.

Lemma getOutboundSequenceFlowById_elem self flow :
  flow ∈ outboundSequenceFlows self →
  ∃ found, getOutboundSequenceFlowById self (Flow.id flow) = Some found
           ∧ found ∈ outboundSequenceFlows self
           ∧ Flow.id found = Flow.id flow.
Proof.
  unfold getOutboundSequenceFlowById.
  induction (outboundSequenceFlows self) as [|f l IH]; intros Hflow.
  - by apply elem_of_nil in Hflow.
  - simpl. destruct (String.eqb_spec (Flow.id f) (Flow.id flow)) as [Heq|Hne].
    + exists f. split; [done|]. split; [by left | done].
    + apply elem_of_cons in Hflow as [->|Hflow]; [done|].
      destruct (IH Hflow) as (found & Hfound & Hin & Hid).
      exists found. split; [done|]. split; [by right | done].
Qed.

(** A [run.outbound.*] message that [_doRunOutbound] publishes for the
    record of an outbound flow comes back to that flow: when the run
    consumer handles a message of that routing key and content, it
    acknowledges the message and then takes, or discards, the flow of the
    record's id, handing it the record with its sequence id and discard
    sequence. *)
Theorem outbound_message_reaches_its_flow self content discardSequence generated flow options
    fields properties st :
  flow ∈ outboundSequenceFlows self →
  let record := formatFlowAction flow options in
  let action := FlowAction.action options in
  let routingKey := "run.outbound." +:+ Action.name action in
  let sequenceId :=
    (Flow.id flow +:+ "_" +:+ Action.name action) +:+ "_" +:+ generateId self generated in
  let flowContent := outboundFlowContent record sequenceId discardSequence in
  let message :=
    {| Msg.fields := fields; Msg.content := withFlow flowContent content;
       Msg.properties := properties |} in
  outboundMessage self content discardSequence generated record
  = publish "run" routingKey (Msg.content message) noProperties
  ∧ onRunMessage self routingKey message st
    = {| completion := returned ();
         state := setStateMessage (Some message) st;
         calls := [ack message;
                   match action with
                   | Action.take => flowTake (Flow.id flow) flowContent
                   | Action.discard => flowDiscard (Flow.id flow) flowContent
                   end] |}.
Proof.
  intros Hflow record action routingKey sequenceId flowContent message.
  split; [done|].
  destruct (getOutboundSequenceFlowById_elem self flow Hflow) as (found & Hfound & _ & Hid).
  subst routingKey. unfold onRunMessage, continueRunMessage, runOutbound.
  destruct action eqn:Haction; cbn [Action.name]; cbv zeta;
    change (runKey ("run.outbound." +:+ "take")) with run_outbound_take;
    change (runKey ("run.outbound." +:+ "discard")) with run_outbound_discard;
    cbv iota; rewrite bind_modify, after_nil;
    cbn [Msg.content message Msg.flow withFlow cloneContent FlowAction.id flowContent
           outboundFlowContent record formatFlowAction];
    rewrite bind_call, Hfound, Hid; reflexivity.
Qed.

Lemma outbound_message_reaches_its_flow_witness :
  let flowContent :=
    outboundFlowContent (formatFlowAction toC (FlowAction.just Action.take))
      "toC_take_" None in
  let message := delivered "run.outbound.take" false (withFlow flowContent firstRun) in
  toC ∈ outboundSequenceFlows forking
  ∧ calls (onRunMessage forking "run.outbound.take" message initial)
    = [ack message; flowTake "toC" flowContent].
Proof.
  intros flowContent message. split; [apply list_elem_of_here|].
  destruct (outbound_message_reaches_its_flow forking firstRun None 0 toC
              (FlowAction.just Action.take) (Msg.fields message) noProperties initial
              (list_elem_of_here _ _)) as [_ Hhandled].
  exact (f_equal calls Hhandled).
Defined.
End Delivery.

(** ** Stopping and resuming *)

Section Stop.
Import Activity.
Import Scenario.
Local Open Scope activity_scope.

Lemma createMessage_own self st :
  createMessage self emptyContent st
  = {| completion := returned (ownContent self st); state := st; calls := [] |}.
Proof.
  unfold createMessage, ownContent. rewrite bind_get, after_nil. unfold ret. do 2 f_equal.
  f_equal; [by destruct (Js.nonEmpty (name self)) | by destruct (status st)].
Qed.

Lemma publishEvent_own self name properties st :
  String.eqb name "error" = false →
  publishEvent self name None properties st
  = {| completion := returned (); state := st;
       calls := [event name (ownContent self st) properties] |}.
Proof.
  intros Hname. unfold publishEvent. cbv iota.
  rewrite (bind_returned _ _ _ _ _ _ (createMessage_own self st)).
  unfold publishOnEvent.
  rewrite bind_call, after_nil. cbn [mandatory]. unfold event. rewrite Hname.
  reflexivity.
Qed.

Lemma consumeApi_run self st :
  consumeApi self st
  = {| completion := returned (); state := st; calls := apiSubscription st |}.
Proof.
  unfold consumeApi, apiSubscription. rewrite bind_get, after_nil.
  by destruct (Js.nonEmpty _).
Qed.

(** [stop] and [resume] of a running activity that has a state message
    and an execution id, and no execution in flight, while its api consumer
    is bound: [stop] cancels the five
    consumers, deactivates the extensions with the [stop] message of the
    api, publishes one [activity.stop] event, which is not persistent, and
    leaves an activity that is stopped and not running; it purges nothing.
    [resume] then subscribes to the api
    again, publishes [run.resume], not persistent, and consumes the run
    queue; the state is the one before [stop], with the stopped flag
    cleared. *)
Theorem stop_then_resume self st running current executionId :
  apiConsumer self = true →
  consuming st = true →
  status st = Some running →
  executionInFlight st = false →
  stateMessage st = Some current →
  Js.nonEmpty (Exec.executionId (exec st)) = Some executionId →
  let halted := stop self st in
  let resumed := resume self (state halted) in
  completion halted = returned ()
  ∧ calls halted
    = [cancel "_activity-run"; cancel "_activity-api"; cancel "_activity-execution";
       cancel "_run-on-inbound"; cancel "_format-consumer"]
      ++ (if extensions self
          then [extensionsDeactivate (Some (inl (stopMessage self (Some current))))]
          else [])
      ++ [event "stop" (ownContent self st) noProperties]
  ∧ state halted = setConsuming false (setStopped true st)
  ∧ isRunning (state halted) = false
  ∧ completion resumed = returned ()
  ∧ calls resumed
    = [cancel "_activity-api";
       subscribeTmp "api" ("activity.*." +:+ executionId) "_activity-api";
       publish "run" "run.resume" (ownContent self st) transient;
       assertConsumer "run-q" "_activity-run"]
  ∧ state resumed = setStopped false st.
Proof.
  intros Hapi Hconsuming Hstatus _ Hcurrent HexecutionId halted resumed.
  assert (halted
          = {| completion := returned ();
               state := setConsuming false (setStopped true st);
               calls :=
                 [cancel "_activity-run"; cancel "_activity-api";
                  cancel "_activity-execution"; cancel "_run-on-inbound";
                  cancel "_format-consumer"]
                 ++ (if extensions self
                     then [extensionsDeactivate
                             (Some (inl (stopMessage self (Some current))))]
                     else [])
                 ++ [event "stop" (ownContent self st) noProperties] |}) as Hhalted.
  { subst halted. unfold stop, apiStop, onStop.
    rewrite bind_get, Hconsuming, after_nil. cbn [negb].
    rewrite bind_get, after_nil, Hapi.
    rewrite !bind_get, !after_nil, Hconsuming, Hcurrent. cbv zeta.
    rewrite !bind_modify, !bind_call, !after_nil, !after_after.
    unfold when.
    destruct (extensions self);
      rewrite ?bind_bind, ?bind_call, ?bind_ret, ?after_nil;
      rewrite publishEvent_own by done; reflexivity. }
  subst resumed. rewrite Hhalted. cbn [completion state calls].
  repeat (split; [done|]).
  unfold resume. rewrite bind_get, after_nil. cbn [consuming setConsuming].
  cbn [status setConsuming setStopped]. rewrite Hstatus.
  rewrite bind_modify, after_nil.
  erewrite bind_returned by apply consumeApi_run.
  erewrite bind_returned by apply createMessage_own.
  rewrite bind_call. unfold consumeRunQ. rewrite bind_get. cbn [consuming setStopped setConsuming].
  rewrite bind_modify. unfold after, call. cbn [completion state calls app].
  unfold apiSubscription. cbn [exec setStopped setConsuming]. rewrite HexecutionId.
  repeat split. destruct st. cbn in *. by subst.
Qed.

Lemma stop_then_resume_witness :
  let halted := stop (task [] false) enteredState in
  let resumed := resume (task [] false) (state halted) in
  apiConsumer (task [] false) = true
  ∧ consuming enteredState = true
  ∧ status enteredState = Some Status.entered
  ∧ executionInFlight enteredState = false
  ∧ stateMessage enteredState = Some (delivered "run.enter" false firstRun)
  ∧ Exec.executionId (exec enteredState) = Some "task_"
  ∧ stopped (state halted) = true
  ∧ isRunning (state halted) = false
  ∧ published "event" "activity.stop" (calls halted)
    = [withState "stop" (ownContent (task [] false) enteredState)]
  ∧ published "run" "run.resume" (calls resumed)
    = [ownContent (task [] false) enteredState]
  ∧ state resumed = setStopped false enteredState.
Proof.
  intros halted resumed. do 6 (split; [reflexivity|]).
  destruct (stop_then_resume (task [] false) enteredState Status.entered
              (delivered "run.enter" false firstRun) "task_" eq_refl eq_refl eq_refl eq_refl
              eq_refl eq_refl)
    as (_ & Hstopped & Hhalted & Hidle & _ & Hcalls & Hresumed).
  subst resumed halted.
  split; [by rewrite Hhalted|]. split; [exact Hidle|].
  split; [by rewrite Hstopped|].
  split; [by rewrite Hcalls | exact Hresumed].
Defined.
End Stop.

Section Resume.
Import Activity.
Import Scenario.
Local Open Scope activity_scope.

(** After a run message was handled, the [run.resume] message that
    follows is acknowledged (in step mode, too) and changes nothing; it
    publishes the handled message once more, with its routing key, content
    and properties, exactly when that message was redelivered and is one of
    [run.enter], [run.start], [run.discarded], [run.end] and
    [run.leave]. *)
Theorem resume_replays_the_redelivered_run_message self key message resumeMessage st :
  routingKey (Msg.fields message) = key →
  let r := continueRunMessage self key message st in
  let replay := onResumeMessage self resumeMessage (state r) in
  completion replay = returned ()
  ∧ state replay = state r
  ∧ calls replay
    = ack resumeMessage
      :: (if redelivered (Msg.fields message) && replayed (runKey key)
          then [publish "run" key (Msg.content message) (Msg.properties message)]
          else []).
Proof.
  intros Hkey r replay. subst replay. unfold onResumeMessage.
  rewrite bind_call, bind_get. subst r. rewrite continueRunMessage_stateMessage.
  cbv zeta. rewrite Hkey.
  destruct (runKey key), (redelivered (Msg.fields message)); done.
Qed.

Lemma resume_replays_the_redelivered_run_message_witness :
  let message := delivered "run.discarded" true firstRun in
  let resumeMessage := delivered "run.resume" false firstRun in
  let r := continueRunMessage stepTask "run.discarded" message initial in
  routingKey (Msg.fields message) = "run.discarded"
  ∧ calls (onResumeMessage stepTask resumeMessage (state r))
    = [ack resumeMessage; publish "run" "run.discarded" firstRun noProperties].
Proof.
  intros message resumeMessage r. split; [reflexivity|].
  destruct (resume_replays_the_redelivered_run_message stepTask "run.discarded" message
              resumeMessage initial eq_refl) as (_ & _ & Hcalls).
  exact Hcalls.
Defined.
End Resume.

(** ** The execution queue *)

Section Execution.
Import Activity.
Import Scenario.
Local Open Scope activity_scope.

(** A message of the execution queue other than [execution.outbound.take]
    completes the execute message: the activity publishes the
    [activity.<routing key>] event, then [run.end] ([run.error] and
    [run.discarded] for [execution.error], [run.discarded] for
    [execution.discard]), all with the content of the execute message
    overlaid with the message's content under the execution id of the
    execute message, and acknowledges the message and then, outside step
    mode, the execute message, which it forgets. The counters stay as they
    are. Outside step mode a further execution message then throws a
    [TypeError] before anything is published. (A message whose routing key
    is the bare word [error] would make the event a mandatory one: with no
    consumer bound for it the publication of the event throws, and that is
    all that happens.) *)
Theorem execution_message_completes_the_run self routingKey message executing st :
  executeMessage st = Some executing →
  executionKey routingKey ≠ execution_outbound_take →
  let content := executionContent executing message in
  let properties := correlated (correlationId (Msg.properties message)) in
  let r := onExecutionMessage self routingKey message st in
  if unrouted self routingKey
  then
    completion r = thrown (unhandled self (withState routingKey content))
    ∧ calls r = [event routingKey content (Msg.properties message)]
    ∧ state r = st
  else
    completion r = returned ()
    ∧ calls r
      = event routingKey content (Msg.properties message)
        :: ((λ key, publish "run" key content properties)
              <$> completionKeys (executionKey routingKey))
        ++ ack message :: (if step self then [] else [ack executing])
    ∧ status (state r) = Some (completionStatus (executionKey routingKey))
    ∧ executeMessage (state r) = (if step self then Some executing else None)
    ∧ counters (state r) = counters st
    ∧ (step self = false →
       ∀ routingKey' message',
         let again := onExecutionMessage self routingKey' message' (state r) in
         (∃ description, completion again = thrown (typeError description))
         ∧ calls again = []).
Proof.
  intros Hexecuting Hkey content properties r. subst r.
  unfold onExecutionMessage. rewrite bind_get, after_nil, Hexecuting. cbv zeta.
  unfold cloneContent. fold (executionContent executing message). fold content properties.
  destruct (unrouted self routingKey) eqn:Hrouted.
  { erewrite bind_thrown by (rewrite publishEvent_any, Hrouted; reflexivity). done. }
  erewrite bind_returned by (rewrite publishEvent_any, Hrouted; reflexivity).
  unfold ackRunExecuteMessage.
  destruct (executionKey routingKey) eqn:Hk; [done|..];
    rewrite ?bind_bind, ?bind_modify, ?bind_call, ?after_nil, ?after_after;
    destruct (step self);
    rewrite ?bind_ret, ?bind_get, ?bind_modify, ?after_nil; unfold after, call, ret; cbn;
    rewrite ?Hexecuting; cbn;
    (repeat split; try done);
    unfold onExecutionMessage; rewrite ?bind_get; cbn; eauto.
Qed.

Lemma execution_message_completes_the_run_witness :
  let executing := delivered "run.execute" false firstRun in
  let message := delivered "execution.completed" false emptyContent in
  let r := onExecutionMessage (task [] false) "execution.completed" message executed in
  executeMessage executed = Some executing
  ∧ executionKey "execution.completed" ≠ execution_outbound_take
  ∧ status (state r) = Some Status.executed
  ∧ published "run" "run.end" (calls r) = [firstRun]
  ∧ omap acknowledged (calls r) = [message; executing].
Proof.
  intros executing message r. split; [reflexivity|]. split; [discriminate|].
  pose proof (execution_message_completes_the_run (task [] false) "execution.completed"
                message executing executed eq_refl ltac:(discriminate))
    as (_ & Hcalls & Hstatus & _).
  split; [exact Hstatus|]. subst r. rewrite Hcalls. split; reflexivity.
Defined.

(** [execution.outbound.take] evaluates the outbound flows in the middle of
    an execution. When the evaluation fails, the message is acknowledged, a
    fatal [activity.error] event is published, whose publication throws
    when no consumer is bound for it, and the execute message is kept,
    unacknowledged. Otherwise the evaluated flows are published as
    [run.outbound.*] messages, the message is acknowledged,
    [run.execute.passthrough] is published, and the execute message is
    acknowledged and forgotten unless the activity runs in step mode. The
    content of [run.execute.passthrough] is the overlaid content of the
    execute message, with the evaluated flows as [outbound] when it has no
    [outbound] list of its own: a list that the execute message or the
    message brings is kept. The status stays as it is. *)
Theorem execution_outbound_take_passes_through self routingKey message executing st :
  executeMessage st = Some executing →
  executionKey routingKey = execution_outbound_take →
  outboundSequenceFlows self ≠ [] →
  Msg.outbound (Msg.content message) = None ∨ Msg.outbound (Msg.content message) = Some [] →
  let content := executionContent executing message in
  let discardSequence := outboundDiscardSequence self (Msg.content message) false in
  let evaluation' :=
    OutboundEvaluator.evaluate (outboundEvaluator self) message
      (Msg.outboundTakeOne (Msg.content message)) in
  let r := onExecutionMessage self routingKey message st in
  status (state r) = status st
  ∧ match OutboundEvaluator.outcome evaluation' with
    | OutboundEvaluator.callbackError err =>
        let failure :=
          withError (Some (ActivityError (Msg.description err) message (Some err)))
            content in
        calls r
        = event routingKey content (Msg.properties message)
          :: (evaluation <$> OutboundEvaluator.calls evaluation')
          ++ [ack message;
              publish "event" "activity.error" failure
                {| correlationId := None; type := Some "error";
                   mandatory := Some true; persistent := None |}]
        ∧ executeMessage (state r) = Some executing
        ∧ completion r
          = if errorConsumer self then returned () else thrown (unhandled self failure)
    | OutboundEvaluator.callbackResult evaluatedOutbound =>
        calls r
        = event routingKey content (Msg.properties message)
          :: (evaluation <$> OutboundEvaluator.calls evaluation')
          ++ imap (λ i, outboundMessage self (Msg.content message) discardSequence
                          (generated st + i))
               evaluatedOutbound
          ++ ack message
             :: publish "run" "run.execute.passthrough"
                  match Msg.outbound content with
                  | Some _ => content
                  | None => withOutbound evaluatedOutbound content
                  end
                  noProperties
             :: (if step self then [] else [ack executing])
        ∧ executeMessage (state r) = (if step self then Some executing else None)
        ∧ completion r = returned ()
    end.
Proof.
  intros Hexecuting Hkey Hflows Hnone content discardSequence evaluation' r. subst r.
  assert (String.eqb routingKey "error" = false) as Hname.
  { revert Hkey. unfold executionKey.
    destruct (String.eqb_spec routingKey "execution.outbound.take") as [->|]; [done|].
    by repeat case_match. }
  unfold onExecutionMessage. rewrite bind_get, after_nil, Hexecuting. cbv zeta.
  unfold cloneContentOutbound, cloneContent.
  fold (executionContent executing message). fold content.
  erewrite bind_returned by by apply publishEvent_run. rewrite Hkey.
  rewrite doOutbound_evaluated by done. fold discardSequence evaluation'.
  unfold ackRunExecuteMessage.
  destruct (OutboundEvaluator.outcome evaluation') as [err|evaluatedOutbound].
  - rewrite !bind_call, emitFatal_run. unfold after, call. cbn.
    by destruct (errorConsumer self).
  - rewrite !bind_call. destruct (step self).
    + unfold after, ret. cbn. repeat split; try done. by destruct (length evaluatedOutbound).
      by destruct (length evaluatedOutbound).
    + rewrite bind_get, bind_modify.
      assert (executeMessage (drawn (length evaluatedOutbound) st) = Some executing) as ->.
      { by destruct (length evaluatedOutbound). }
      unfold after, call. cbn. repeat split; try done; by destruct (length evaluatedOutbound).
Qed.

Lemma execution_outbound_take_passes_through_witness :
  let executing := delivered "run.execute" false firstRun in
  let message := delivered "execution.outbound.take" false emptyContent in
  let r := onExecutionMessage forking "execution.outbound.take" message executed in
  executeMessage executed = Some executing
  ∧ executionKey "execution.outbound.take" = execution_outbound_take
  ∧ completion r = returned ()
  ∧ status (state r) = Some Status.executing.
Proof.
  intros executing message r. split; [reflexivity|]. split; [reflexivity|].
  destruct (execution_outbound_take_passes_through forking "execution.outbound.take"
              message executing executed eq_refl eq_refl ltac:(discriminate)
              (or_introl eq_refl))
    as (Hstatus & Hresult).
  hnf in Hresult. destruct Hresult as (_ & _ & Hcompletion).
  split; [exact Hcompletion | exact Hstatus].
Defined.
End Execution.

(** ** The inbound queue *)

Section InboundConsumer.
Import Activity.
Local Open Scope activity_scope.
Local Arguments Js.nonEmpty : simpl never.

(** [_onInbound] acknowledges the inbound message and cancels the inbound
    consumer first, whatever the routing key. [association.take],
    [flow.take] and [activity.enter] then start a run: [run.enter] and
    [run.start] carry the inbound content as [inbound], its message and the
    execution id that [init] announced or a new one; when the activity is
    running already, the exception of [run] is thrown and nothing is
    published. [flow.discard] and [activity.discard] publish [run.discard]
    with the discard sequence of the inbound content.
    [association.complete] cancels the inbound consumer once more and
    publishes the [activity.compensation.end] event, whose execution id is
    made of the activity id and the sequence id of the inbound content; it
    changes nothing, and when the inbound content has no sequence id, it
    throws a [TypeError] instead of publishing. Any other routing key does
    nothing more. *)
Theorem inbound_message_starts_a_run brokerSafeId self routingKey message st :
  let content := Inbound.content message in
  let r := onInbound brokerSafeId self routingKey message st in
  let rest := drop 2 (calls r) in
  take 2 (calls r) = [ackInbound message; cancel "_run-on-inbound"]
  ∧ match inboundKey routingKey with
    | inbound_take =>
        if isRunning st
        then completion r
             = thrown (plainError ("activity <" +:+ id self +:+ "> is already running"))
             ∧ rest = [] ∧ state r = st
        else completion r = returned ()
             ∧ consuming (state r) = true
             ∧ Exec.executionId (exec (state r)) = Some (announcedId self st)
             ∧ published "run" "run.discard" rest = []
             ∧ ∃ entered,
                 published "run" "run.enter" rest = [entered]
                 ∧ published "run" "run.start" rest = [entered]
                 ∧ Msg.executionId entered = Some (announcedId self st)
                 ∧ Msg.inbound entered = Some [content]
                 ∧ Msg.message entered = Some (default Js.undefined (Inbound.message content))
                 ∧ Msg.discardSequence entered = None
    | inbound_discard =>
        completion r = returned ()
        ∧ consuming (state r) = true
        ∧ Exec.executionId (exec (state r)) = Some (announcedId self st)
        ∧ published "run" "run.enter" rest = []
        ∧ published "run" "run.start" rest = []
        ∧ ∃ discarded,
            published "run" "run.discard" rest = [discarded]
            ∧ Msg.executionId discarded = Some (announcedId self st)
            ∧ Msg.inbound discarded = Some [content]
            ∧ Msg.discardSequence discarded = Inbound.discardSequence content
    | association_complete =>
        state r = st
        ∧ match Inbound.sequenceId content with
          | Some sequenceId =>
              completion r = returned ()
              ∧ rest
                = [cancel "_run-on-inbound";
                   event "compensation.end"
                     (withExecutionId
                        (Some (brokerSafeId (id self) +:+ "_"
                                 +:+ brokerSafeId sequenceId))
                        (ownContent self st))
                     noProperties]
          | None =>
              (∃ description, completion r = thrown (typeError description))
              ∧ rest = [cancel "_run-on-inbound"]
          end
    | inbound_other => completion r = returned () ∧ state r = st ∧ rest = []
    end.
Proof.
  intros content r rest. subst rest r.
  unfold onInbound. rewrite !bind_call, after_after. cbv zeta. fold content.
  unfold after at 1 2. cbn [calls app take drop]. split; [done|].
  unfold after. cbn [completion state].
  destruct (inboundKey routingKey).
  - destruct (isRunning st) eqn:Hidle; [by rewrite run_running|].
    destruct (run_started self (triggeredContent (Inbound.message content) [content]) st
                Hidle)
      as (Hreturned & Hconsuming & Hid & _ & Hnone & entered & Henter & Hstart & Hentered
          & Hinbound & Hmessage & Hsequence).
    repeat (split; [done|]). by exists entered.
  - destruct (runDiscard_started self
                (inboundContent [content] (Inbound.discardSequence content)) st)
      as (Hreturned & Hconsuming & Hid & _ & Henter & Hstart & discarded & Hdiscard
          & Hdiscarded & Hinbound & Hsequence).
    repeat (split; [done|]). by exists discarded.
  - rewrite bind_call. destruct (Inbound.sequenceId content) as [sequenceId|].
    + unfold createMessage. steps.
      rewrite publishEvent_run by done. unfold after. cbn [completion state calls app].
      repeat split. unfold ownContent, withExecutionId. cbn. rewrite !option_eta. done.
    + unfold after, throw. cbn [completion state calls app]. split; [done|].
      split; [by eexists | done].
  - done.
Qed.

(** An [association.complete] message announces the end of a compensation
    under the id of the activity and of the association's sequence. *)
Lemma inbound_message_starts_a_run_witness :
  let content :=
    {| Inbound.id := "association"; Inbound.sequenceId := Some "association_1";
       Inbound.message := None; Inbound.discardSequence := None |} in
  let message :=
    {| Inbound.fields := {| routingKey := "association.complete"; redelivered := false |};
       Inbound.content := content; Inbound.properties := noProperties |} in
  let r := onInbound (λ s, s) (Scenario.task [] false) "association.complete" message
             initial in
  completion r = returned ()
  ∧ Msg.executionId <$> published "event" "activity.compensation.end" (calls r)
    = [Some "task_association_1"].
Proof.
  intros content message r.
  pose proof (inbound_message_starts_a_run (λ s, s) (Scenario.task [] false)
                "association.complete" message initial) as [_ (_ & Hreturned & Hrest)].
  split; [exact Hreturned|].
  change (calls r) with (take 2 (calls r) ++ drop 2 (calls r)).
  unfold published. rewrite omap_app. fold r in Hrest. rewrite Hrest. reflexivity.
Defined.
End InboundConsumer.

(** ** Discarding *)

Section Discard.
Import Activity.
Import Scenario.
Local Open Scope activity_scope.

(** [discard] of an activity with a status: while its execution is not
    completed, the execution is discarded and nothing else happens.
    Otherwise the run consumers are cancelled, the run queue is purged,
    [run.discard] is published with the content of the state message,
    and the run queue is consumed again; the content given to [discard] is
    not used. Without a state message, as after [recover], a [TypeError] is
    thrown once the consumers are cancelled and the queue is purged. *)
Theorem discard_restarts_from_the_state_message self discardContent st running :
  status st = Some running →
  let r := discard self discardContent st in
  let halt :=
    [cancel "_activity-api"; cancel "_activity-run"; cancel "_activity-execution";
     purge "run-q"] in
  if executionInFlight st
  then r = {| completion := returned (); state := st; calls := [executionDiscard] |}
  else
    match stateMessage st with
    | Some message =>
        r = {| completion := returned ();
               state := setConsuming true st;
               calls := halt ++ [publish "run" "run.discard" (Msg.content message) noProperties;
                                 assertConsumer "run-q" "_activity-run"] |}
    | None =>
        r = {| completion :=
                 thrown (typeError "Cannot read properties of undefined (reading 'content')");
               state := setConsuming false st;
               calls := halt |}
    end.
Proof.
  intros Hstatus r halt. subst r halt. unfold discard. rewrite bind_get, after_nil, Hstatus.
  destruct (executionInFlight st); [done|].
  unfold deactivateRunConsumers, stateMessageContent, consumeRunQ. steps.
  cbn [stateMessage setConsuming].
  destruct (stateMessage st) as [message|]; steps; [|done].
  cbn [consuming setConsuming]. steps. done.
Qed.

Lemma discard_restarts_from_the_state_message_witness :
  let recovered := state (recover (task [] false) (Some enteredSnapshot) initial) in
  status recovered = Some Status.entered
  ∧ stateMessage recovered = None
  ∧ discard (task [] false) emptyContent recovered
    = {| completion :=
           thrown (typeError "Cannot read properties of undefined (reading 'content')");
         state := recovered;
         calls := [cancel "_activity-api"; cancel "_activity-run";
                   cancel "_activity-execution"; purge "run-q"] |}.
Proof.
  intros recovered. split; [reflexivity|]. split; [reflexivity|].
  exact (discard_restarts_from_the_state_message (task [] false) emptyContent recovered
           Status.entered eq_refl).
Defined.
End Discard.

Section ApiDiscard.
Import Activity.
Local Open Scope activity_scope.

(** [_discardRun], the handler of a discard through the api, does nothing
    when the activity has no status, when its execution is not completed,
    and in the statuses [executing], [error] and [discarded]. Otherwise it
    does what [discard] does, deactivating the extensions, with no message,
    before it purges the run queue: the run consumers are cancelled,
    [run.discard] is
    published with the content of the state message, and the run queue is
    consumed again; without a state message a [TypeError] is thrown once
    the queue is purged. *)
Theorem api_discard_is_ignored_while_executing self st :
  let r := discardRun self st in
  let idle := {| completion := returned (); state := st; calls := [] |} in
  match status st with
  | None => r = idle
  | Some s =>
      if executionInFlight st || settled s then r = idle
      else
        let halt :=
          [cancel "_activity-api"; cancel "_activity-run"; cancel "_activity-execution"]
          ++ (if extensions self then [extensionsDeactivate None] else [])
          ++ [purge "run-q"] in
        match stateMessage st with
        | Some message =>
            r = {| completion := returned ();
                   state := setConsuming true st;
                   calls :=
                     halt ++ [publish "run" "run.discard" (Msg.content message) noProperties;
                              assertConsumer "run-q" "_activity-run"] |}
        | None =>
            r = {| completion :=
                     thrown (typeError
                               "Cannot read properties of undefined (reading 'content')");
                   state := setConsuming false st;
                   calls := halt |}
        end
  end.
Proof.
  intros r idle. subst r idle. unfold discardRun. rewrite bind_get, after_nil.
  destruct (status st) as [s|] eqn:Hstatus; [|done].
  destruct (executionInFlight st); [done|]. cbn [orb].
  destruct s; cbn [settled]; try done;
    unfold deactivateRunConsumers, stateMessageContent, consumeRunQ, when, createMessage;
    (destruct (extensions self)); steps; cbn [stateMessage setConsuming status];
    (destruct (stateMessage st) as [message|]; steps;
     cbn [consuming setConsuming]; steps);
    unfold ownContent; rewrite ?Hstatus, ?option_eta; reflexivity.
Qed.
End ApiDiscard.

(** ** The counters outside the run queue *)

Section CountersFrame.
Import Activity.
Local Open Scope activity_scope.

Lemma preserves_run {B} (part : State → B) self runContent :
  (∀ v st, part (setExec v st) = part st) →
  (∀ v st, part (setGenerated v st) = part st) →
  (∀ v st, part (setConsuming v st) = part st) →
  preserves part (run self runContent).
Proof. intros Hexec Hgenerated Hconsuming. unfold run. frame; apply preserves_modify; auto. Qed.

Lemma preserves_runDiscard {B} (part : State → B) self discardContent :
  (∀ v st, part (setExec v st) = part st) →
  (∀ v st, part (setGenerated v st) = part st) →
  (∀ v st, part (setConsuming v st) = part st) →
  preserves part (runDiscard self discardContent).
Proof.
  intros Hexec Hgenerated Hconsuming. unfold runDiscard. frame; apply preserves_modify; auto.
Qed.

(** Apart from the run messages [run.end] and [run.discarded], and from
    [recover], nothing changes the counters: not [init], [run],
    [_runDiscard], [discard], [resume], [stop], [next], [activate],
    [deactivate], [getState] and [_discardRun], and not the consumers of the
    inbound queue, of the execution queue and of [run.resume]. *)
Theorem operations_keep_the_counters {Behaviour BrokerState} brokerSafeId self
    (behaviour : Behaviour) (brokerState : BrokerState) :
  (∀ content, preserves counters (init self content))
  ∧ (∀ content, preserves counters (run self content))
  ∧ (∀ content, preserves counters (runDiscard self content))
  ∧ (∀ content, preserves counters (discard self content))
  ∧ preserves counters (resume self)
  ∧ preserves counters (stop self)
  ∧ preserves counters (next self)
  ∧ preserves counters (activate self)
  ∧ preserves counters (deactivate self)
  ∧ preserves counters (getState self behaviour brokerState)
  ∧ preserves counters (discardRun self)
  ∧ (∀ routingKey message, preserves counters (onInbound brokerSafeId self routingKey message))
  ∧ (∀ routingKey message, preserves counters (onJoinInbound self routingKey message))
  ∧ (∀ routingKey message, preserves counters (onExecutionMessage self routingKey message))
  ∧ (∀ message, preserves counters (onResumeMessage self message)).
Proof.
  assert (∀ content, preserves counters (run self content)) as Hrun
    by (intros; by apply preserves_run).
  assert (∀ content, preserves counters (runDiscard self content)) as HrunDiscard
    by (intros; by apply preserves_runDiscard).
  repeat split; intros;
    unfold init, discard, resume, stop, apiStop, onStop, next, getState, recover, discardRun,
      onInbound, onJoinInbound, onExecutionMessage, onResumeMessage;
    frame; auto.
Qed.
End CountersFrame.

(** ** The subscription and the order of an evaluation *)

Section Subscription.
Import OutboundEvaluator.
Context (self : OutboundEvaluator.t).

Lemma consumerCalls_app l1 l2 : consumerCalls (l1 ++ l2) = consumerCalls l1 ++ consumerCalls l2.
Proof. apply List.filter_app. Qed.

Lemma consumerCalls_round log flow content :
  consumerCalls ((log ++ conditionCalls flow) ++ [publication content]) = consumerCalls log.
Proof.
  rewrite !consumerCalls_app. unfold conditionCalls.
  destruct (conditional flow); simpl; by rewrite !app_nil_r.
Qed.

Lemma completed_log err args log :
  calls (completed self err args log) = log ++ [cancel (consumerTag args)].
Proof. unfold completed. by repeat case_match. Qed.

Lemma consumerTag_noted content args : consumerTag (noted content args) = consumerTag args.
Proof. unfold consumerTag. by rewrite noted_evaluationId. Qed.

Lemma consumerTag_discardRest flows args :
  consumerTag (discardRest flows args) = consumerTag args.
Proof.
  unfold consumerTag. by destruct (discardRest_static flows args) as (_ & -> & _).
Qed.

Lemma consumerCalls_condition flow : consumerCalls (conditionCalls flow) = [].
Proof. unfold conditionCalls. by destruct (conditional flow). Qed.

Lemma evaluateFlow_consumers flow flows args log :
  let r := evaluateFlow self flow flows args log in
  consumerCalls (calls r) = consumerCalls log ++ [cancel (consumerTag args)]
  ∧ last (calls r) = Some (cancel (consumerTag args)).
Proof.
  cbv zeta. pattern flow, flows, args, log, (evaluateFlow self flow flows args log).
  apply evaluateFlow_rounds; clear; intros * Hv; intros;
    rewrite ?completed_log, ?last_snoc, ?consumerCalls_round, ?consumerCalls_app,
      ?consumerCalls_condition, ?consumerTag_discardRest, ?consumerTag_noted, ?app_nil_r;
    try done.
  - change (consumerTag (setResult _ _ ?a)) with (consumerTag a).
    by rewrite consumerTag_noted.
  - match goal with IH : _ ∧ _ |- _ => destruct IH as [-> ->] end.
    subst log'. by rewrite consumerCalls_app, consumerCalls_round, consumerTag_noted, app_nil_r.
Qed.

Lemma evaluateFlow_log flow flows args log :
  ∃ more, calls (evaluateFlow self flow flows args log) = log ++ more.
Proof.
  pattern flow, flows, args, log, (evaluateFlow self flow flows args log).
  apply evaluateFlow_rounds; clear; intros * Hv; intros; rewrite ?completed_log;
    try (rewrite <- !app_assoc; by eexists).
  match goal with IH : ∃ _, _ |- _ => destruct IH as [more ->] end.
  subst log'. rewrite <- !app_assoc. by eexists.
Qed.

(** Every outbound evaluation ends by cancelling the consumer
    [_flow-evaluation-<execution id>], whatever its outcome. With outbound
    flows its first call subscribes that consumer, and it subscribes and
    cancels nothing else; without outbound flows it subscribes nothing and
    the cancellation is its only call. *)
Theorem evaluation_cancels_its_subscription fromMessage discardRestAtTake :
  let r := evaluate self fromMessage discardRestAtTake in
  let tag :=
    "_flow-evaluation-" +:+ Js.interpolate (Msg.executionId (Msg.content fromMessage)) in
  consumerCalls (calls r)
  = (if length (outboundFlows self) =? 0 then []
     else [subscribeTmp "execution" "evaluate.flow.#" tag])
    ++ [cancel tag]
  ∧ head (calls r)
    = Some (if length (outboundFlows self) =? 0 then cancel tag
            else subscribeTmp "execution" "evaluate.flow.#" tag)
  ∧ last (calls r) = Some (cancel tag).
Proof.
  intros r tag. subst r. unfold evaluate.
  destruct (outboundFlows self) as [|flow flows]; [by rewrite completed_log|].
  destruct (evaluateFlow_consumers flow flows
              (initialArgs fromMessage discardRestAtTake)
              [subscribeTmp "execution" "evaluate.flow.#"
                 (consumerTag (initialArgs fromMessage discardRestAtTake))])
    as [Hconsumers Hlast].
  split; [exact Hconsumers|]. split; [|exact Hlast].
  destruct (evaluateFlow_log flow flows (initialArgs fromMessage discardRestAtTake)
              [subscribeTmp "execution" "evaluate.flow.#"
                 (consumerTag (initialArgs fromMessage discardRestAtTake))])
    as [more Hmore].
  unfold initialArgs in Hmore. by rewrite Hmore.
Qed.
End Subscription.

Section Order.
Import OutboundEvaluator.
Context (self : OutboundEvaluator.t).

Lemma completed_outcome args log err :
  outcome (completed self None args log) = callbackError err →
  err = nonTakenError self (fromMessage args).
Proof. unfold completed. case_match; simpl; by intros [= <-]. Qed.

Lemma evaluateFlow_order flow flows args log :
  let r := evaluateFlow self flow flows args log in
  ∃ reached rest,
    flow :: flows = reached ++ rest
    ∧ reached ≠ []
    ∧ executions (calls r) = executions log ++ (Flow.id <$> List.filter conditional reached)
    ∧ Forall (λ f, ∀ err, verdict args f ≠ inl err) (removelast reached)
    ∧ ∀ err, outcome r = callbackError err →
             err = nonTakenError self (fromMessage args)
             ∨ ∃ f, last reached = Some f ∧ verdict args f = inl err.
Proof.
  cbv zeta. pattern flow, flows, args, log, (evaluateFlow self flow flows args log).
  apply evaluateFlow_rounds; clear; intros * Hv; intros.
  - exists [flow], flows. rewrite completed_calls, executions_app, executions_condition.
    repeat split; [done| |constructor|].
    + simpl. by destruct (conditional flow).
    + intros err' [= <-]. right. by exists flow.
  - exists [flow], []. rewrite completed_calls, executions_round.
    repeat split; [done| |constructor|].
    + simpl. by destruct (conditional flow).
    + intros err Herr. left. apply completed_outcome in Herr. by rewrite noted_fromMessage in Herr.
  - exists [flow], (nextFlow :: rest). rewrite completed_calls, executions_round.
    repeat split; [done| |constructor|].
    + simpl. by destruct (conditional flow).
    + intros err Herr. left. apply completed_outcome in Herr.
      destruct (discardRest_static (nextFlow :: rest) (noted content a)) as (Hm & _).
      by rewrite Hm, noted_fromMessage in Herr.
  - exists [flow], (nextFlow :: rest). rewrite completed_calls, executions_round.
    repeat split; [done| |constructor|].
    + simpl. by destruct (conditional flow).
    + intros err Herr. left. apply completed_outcome in Herr.
      by rewrite <- (noted_fromMessage content a).
  - match goal with IH : ∃ _, _ |- _ =>
      destruct IH as (reached & rest' & Hsplit & Hsome & Hexec & Hfine & Herr) end.
    exists (flow :: reached), rest'. rewrite Hexec. subst log'.
    rewrite executions_app, executions_round, app_nil_r, <- app_assoc.
    split; [by rewrite Hsplit|]. split; [done|]. split.
    { simpl. by destruct (conditional flow). }
    split.
    + destruct reached as [|g reached]; [done|].
      change (removelast (flow :: g :: reached)) with (flow :: removelast (g :: reached)).
      constructor; [by rewrite Hv|].
      eapply Forall_impl; [exact Hfine|]. intros f Hf err.
      rewrite <- (verdict_stable a (noted content a)); [apply Hf|..].
      * apply noted_fromMessage.
      * apply noted_evaluationId.
    + intros err Hout. destruct (Herr err Hout) as [->|(f & Hlast & Hf)].
      * left. by rewrite noted_fromMessage.
      * right. exists f. split.
        -- destruct reached; [done|]. done.
        -- rewrite <- (verdict_stable a (noted content a)); [done|..].
           ++ apply noted_fromMessage.
           ++ apply noted_evaluationId.
Qed.

(** An outbound evaluation executes the conditions of a leading part of
    its flows, default flow last: every conditional flow of that part once,
    in order, and no condition of a later flow. No condition before the
    last flow reached has failed. An error handed to the callback is either
    the error that no flow was taken or the error of the condition of the
    last flow reached. *)
Theorem conditions_are_executed_in_order fromMessage discardRestAtTake :
  let r := evaluate self fromMessage discardRestAtTake in
  let args := initialArgs fromMessage discardRestAtTake in
  ∃ reached rest,
    outboundFlows self = reached ++ rest
    ∧ executions (calls r) = Flow.id <$> List.filter conditional reached
    ∧ Forall (λ flow, ∀ err, verdict args flow ≠ inl err) (removelast reached)
    ∧ ∀ err, outcome r = callbackError err →
             err = nonTakenError self fromMessage
             ∨ ∃ flow, last reached = Some flow ∧ verdict args flow = inl err.
Proof.
  intros r args. subst r. unfold evaluate. fold (initialArgs fromMessage discardRestAtTake).
  fold args.
  destruct (outboundFlows self) as [|flow flows] eqn:Hflows.
  - exists [], []. rewrite completed_calls. repeat split; [constructor|].
    intros err Herr. left. by apply completed_outcome in Herr.
  - destruct (evaluateFlow_order flow flows args
                [subscribeTmp "execution" "evaluate.flow.#" (consumerTag args)])
      as (reached & rest & Hsplit & _ & Hexec & Hfine & Herr).
    by exists reached, rest.
Qed.
End Order.
